(** * FindMyRepo: the resumable GitHub harvesting engine (dataset_test/test2.py)

    A shallow embedding of [GitHubRepoFetcher]: the per-item validator, the
    quota gate, the paginated search, the dedup aggregation done by the
    [fetch_*] tasks, the checkpoint writes and the enrichment pass.

    Conventions of the embedding.
    - Python [int] is [Z]; list lengths are [nat].  A Python [float] is the
      rational it stands for; the only float operation of the fetcher, the
      true division of two ints, is rounded as Python rounds it.
    - Text is ASCII: [str.lower], [\w], [\s] and [str.strip] are modelled on
      the ASCII range (Python's notion of whitespace there: 9-13, 28-32).
      What is proved of the validator's text checks is stated for ASCII
      text ([Text.is_ascii]).
    - [self.all_repos] is a [gmap string Entry]: Python compares dicts
      regardless of insertion order.
    - The remote service, the interleaving and the completion order of
      worker threads and the health of the file system are an explicit
      environment ([Remote]);
      every external action is appended to a log of [Event]s carried by the
      fetcher, so that "what was requested" and "what was written, in which
      order" can be stated.
    - [print] calls are dropped. *)

From Stdlib Require Import ZArith QArith Lia Ascii String Sorting.Permutation.
From stdpp Require Import gmap strings list fin_maps pretty sorting.

Local Open Scope string_scope.
Local Open Scope list_scope.
Local Open Scope Z_scope.

(** ** Text helpers *)

Module Text.

Definition code (c : ascii) : nat := nat_of_ascii c.

(** [str.isspace] on one ASCII character; also what [\s] matches. *)
Definition isspace (c : ascii) : bool :=
  let n := code c in
  ((9 <=? n)%nat && (n <=? 13)%nat) || ((28 <=? n)%nat && (n <=? 32)%nat).

(** [\w] on ASCII: letters, digits and the underscore. *)
Definition isword (c : ascii) : bool :=
  let n := code c in
  ((48 <=? n)%nat && (n <=? 57)%nat) || ((65 <=? n)%nat && (n <=? 90)%nat)
  || ((97 <=? n)%nat && (n <=? 122)%nat) || (n =? 95)%nat.

Definition lower_char (c : ascii) : ascii :=
  let n := code c in
  if ((65 <=? n)%nat && (n <=? 90)%nat)%bool then ascii_of_nat (n + 32) else c.

Definition chars (s : string) : list ascii := list_ascii_of_string s.


(** [text.lower()] *)
Definition lower (s : string) : list ascii := map lower_char (chars s).

Fixpoint lstrip (l : list ascii) : list ascii :=
  match l with
  | c :: l' => if isspace c then lstrip l' else l
  | [] => []
  end.

(** [description.strip()] *)
Definition strip (s : string) : list ascii :=
  rev (lstrip (rev (lstrip (chars s)))).

End Text.

(** ** The regular expressions of the validator

    The patterns of [__init__] only use literals, [\b], [^], the class
    [[\s-]] (optional or not) and [.*]; a pattern is a list of such atoms and
    [search] is [re.search]. *)

Module Re.

Inductive atom :=
| Chr (c : ascii)      (* a literal character *)
| Bnd                  (* \b *)
| Bol                  (* ^ *)
| SpDash               (* [\s-] *)
| OptSpDash            (* [\s-]? *)
| AnyStar.             (* .* *)

Definition pattern := list atom.

Definition lit (s : string) : pattern := map Chr (Text.chars s).

Definition word_opt (c : option ascii) : bool :=
  match c with Some x => Text.isword x | None => false end.

Definition sp_dash (c : ascii) : bool :=
  Text.isspace c || (Text.code c =? 45)%nat.

Definition newline (c : ascii) : bool := (Text.code c =? 10)%nat.

Definition same (a b : ascii) : bool := (Text.code a =? Text.code b)%nat.

(** Does [pat] match at the current position?  [start] tells whether the
    position is the beginning of the text, [prev] is the character before
    it, [s] what follows. *)
Fixpoint match_here (pat : pattern) (start : bool) (prev : option ascii)
    (s : list ascii) {struct pat} : bool :=
  match pat with
  | [] => true
  | Chr c :: pat' =>
      match s with
      | x :: s' => same x c && match_here pat' false (Some x) s'
      | [] => false
      end
  | Bnd :: pat' =>
      xorb (word_opt prev) (word_opt (head s)) && match_here pat' start prev s
  | Bol :: pat' => start && match_here pat' start prev s
  | SpDash :: pat' =>
      match s with
      | x :: s' => sp_dash x && match_here pat' false (Some x) s'
      | [] => false
      end
  | OptSpDash :: pat' =>
      match s with
      | x :: s' => (sp_dash x && match_here pat' false (Some x) s')
                   || match_here pat' start prev s
      | [] => match_here pat' start prev s
      end
  | AnyStar :: pat' =>
      (fix star (start : bool) (prev : option ascii) (s : list ascii) : bool :=
         match_here pat' start prev s
         || match s with
            | x :: s' => negb (newline x) && star false (Some x) s'
            | [] => false
            end) start prev s
  end.

Fixpoint search_from (pat : pattern) (start : bool) (prev : option ascii)
    (s : list ascii) : bool :=
  match_here pat start prev s
  || match s with
     | x :: s' => search_from pat false (Some x) s'
     | [] => false
     end.

(** [re.search(pattern, text)] is not [None]. *)
Definition search (pat : pattern) (text : list ascii) : bool :=
  search_from pat true None text.

(** [\bw\b] *)
Definition word (w : string) : pattern := Bnd :: lit w ++ [Bnd].

End Re.

(** ** Items of the remote service *)

(** One item of a search page.  The fields are those the fetcher reads; the
    rest of the payload is carried along untouched by the code. *)
Record Repo := mkRepo {
  name : string;
  full_name : string;
  description : option string;      (* [None] is JSON null *)
  license : option string;          (* the license object, by its name *)
  stargazers_count : Z;
  forks_count : Z;
  watchers_count : Z;
  open_issues_count : Z;
  language : option string;
  repo_topics : list string;
}.

(** A call either returns or raises. *)
Inductive Outcome (A : Type) :=
| Ret (a : A)
| Exn (e : string).
Arguments Ret {A} _.
Arguments Exn {A} _.

(** ** The true division of Python ints

    [a / b] is the double nearest to the exact quotient, a tie going to the
    even mantissa; it raises when that double would be beyond the largest
    one, and when [b] is zero. *)

Module Float.

(** the value of the double with mantissa [m] and exponent [e] *)
Definition value (m e : Z) : Q :=
  if 0 <=? e then inject_Z (m * 2 ^ e) else m # Z.to_pos (2 ^ (- e)).

(** [floor (log2 (a / b))] for positive [a] and [b] *)
Definition quotient_exponent (a b : Z) : Z :=
  let d := Z.log2 a - Z.log2 b in
  if b * 2 ^ Z.max d 0 <=? a * 2 ^ Z.max (- d) 0 then d else d - 1.

(** [n / den] rounded to the nearest integer, ties to even *)
Definition round_half_even (n den : Z) : Z :=
  let q := n / den in
  let r := n mod den in
  if 2 * r <? den then q
  else if den <? 2 * r then q + 1
  else if Z.even q then q else q + 1.

(** The quotient is scaled to a mantissa of 53 bits (fewer below the
    smallest normal double, whose exponent is [-1074]) and rounded. *)
Definition true_divide (a b : Z) : Outcome Q :=
  if b =? 0 then Exn "division by zero"
  else if a =? 0 then Ret 0%Q
  else
    let k := quotient_exponent (Z.abs a) (Z.abs b) in
    let e := Z.max (k - 52) (-1074) in
    let m := round_half_even (Z.abs a * 2 ^ Z.max (- e) 0)
               (Z.abs b * 2 ^ Z.max e 0) in
    if (0 <=? e) && (2 ^ 1024 <=? m * 2 ^ e)
    then Exn "integer division result too large for a float"
    else Ret (value (Z.sgn a * Z.sgn b * m) e).

End Float.

(** ** Tier 2: [is_legitimate_project] *)

Module Validator.

(** Filtering thresholds of [__init__]. *)
Definition min_stars : Z := 10.
Definition min_forks : Z := 3.
Definition max_fork_star_ratio : Q := 2 # 1.

Definition tutorial_patterns : list Re.pattern :=
  map Re.word ["tutorial"; "example"; "demo"; "sample"; "boilerplate";
               "template"; "starter"; "learning"; "course"; "workshop";
               "practice"; "exercise"].

Definition portfolio_patterns : list Re.pattern :=
  [ Re.word "portfolio"; Re.word "resume"; Re.word "cv";
    Re.Bnd :: Re.lit "personal" ++ Re.OptSpDash :: Re.lit "site" ++ [Re.Bnd];
    Re.Bnd :: Re.lit "my" ++ Re.OptSpDash :: Re.lit "website" ++ [Re.Bnd];
    Re.word "profile" ].

Definition awesome_patterns : list Re.pattern :=
  [ Re.Bol :: Re.lit "awesome" ++ [Re.SpDash];
    Re.Bnd :: Re.lit "awesome" ++ Re.SpDash :: Re.lit "list" ++ [Re.Bnd];
    Re.Bnd :: Re.lit "curated" ++ Re.SpDash :: Re.lit "list" ++ [Re.Bnd];
    Re.word "resources" ++ Re.AnyStar :: Re.word "list";
    Re.word "collection" ].

(** [matches_pattern]: an empty text matches nothing; otherwise the text is
    lower-cased and every pattern is searched. *)
Definition matches_pattern (text : string) (patterns : list Re.pattern) : bool :=
  match text with
  | EmptyString => false
  | _ => existsb (fun p => Re.search p (Text.lower text)) patterns
  end.

(** [stars > 0 and forks / stars > self.max_fork_star_ratio]: the division
    is only made for a positive star count, and it can raise. *)
Definition ratio_exceeds (forks stars : Z) : Outcome bool :=
  if 0 <? stars then
    match Float.true_divide forks stars with
    | Ret ratio => Ret (negb (Qle_bool ratio max_fork_star_ratio))
    | Exn e => Exn e
    end
  else Ret false.

Definition is_legitimate_project (repo : Repo) : Outcome (bool * option string) :=
  let description := default "" (description repo) in
  if bool_decide (license repo = None) then Ret (false, Some "No license")
  else if bool_decide (description = "")
          || (length (Text.strip description) <? 20)%nat
  then Ret (false, Some "No meaningful description")
  else
    let combined_text := name repo +:+ " " +:+ description in
    if matches_pattern combined_text tutorial_patterns
    then Ret (false, Some "Tutorial/demo/example project")
    else if matches_pattern combined_text portfolio_patterns
    then Ret (false, Some "Portfolio/personal project")
    else if matches_pattern combined_text awesome_patterns
    then Ret (false, Some "Curated list/awesome collection")
    else
      let stars := stargazers_count repo in
      let forks := forks_count repo in
      let watchers := watchers_count repo in
      let open_issues := open_issues_count repo in
      match ratio_exceeds forks stars with
      | Exn e => Exn e
      | Ret true =>
          Ret (false, Some ("High fork/star ratio (" +:+ pretty forks +:+ "/"
                            +:+ pretty stars +:+ ")"))
      | Ret false =>
          if (50 <? stars) && (watchers <? 2)
          then Ret (false, Some "Low engagement (watchers)")
          else if (100 <? stars) && (open_issues =? 0) && (forks <? 5)
          then Ret (false, Some "Low engagement (no issues/forks)")
          else Ret (true, None)
      end.

(** [is_valid] of the tuple the call returns; [None] when it raises. *)
Definition is_valid (repo : Repo) : option bool :=
  match is_legitimate_project repo with
  | Ret (valid, _) => Some valid
  | Exn _ => None
  end.

End Validator.

(** ** The aggregated entity, the progress state and the files *)

(** One value of [self.all_repos]: a dict whose optional keys are [option]
    fields ([None]: the key is absent). *)
Record Entry := mkEntry {
  source : list string;
  is_gsoc : option bool;
  is_hacktoberfest : option bool;
  has_good_first_issues : option bool;
  is_underrated : option bool;
  topics : option (list string);
  languages : option (list string);
  raw_data : Repo;
}.

Definition set_source (v : list string) (e : Entry) : Entry :=
  mkEntry v (is_gsoc e) (is_hacktoberfest e) (has_good_first_issues e)
    (is_underrated e) (topics e) (languages e) (raw_data e).
Definition set_is_gsoc (v : bool) (e : Entry) : Entry :=
  mkEntry (source e) (Some v) (is_hacktoberfest e) (has_good_first_issues e)
    (is_underrated e) (topics e) (languages e) (raw_data e).
Definition set_is_hacktoberfest (v : bool) (e : Entry) : Entry :=
  mkEntry (source e) (is_gsoc e) (Some v) (has_good_first_issues e)
    (is_underrated e) (topics e) (languages e) (raw_data e).
Definition set_has_good_first_issues (v : bool) (e : Entry) : Entry :=
  mkEntry (source e) (is_gsoc e) (is_hacktoberfest e) (Some v)
    (is_underrated e) (topics e) (languages e) (raw_data e).
Definition set_is_underrated (v : bool) (e : Entry) : Entry :=
  mkEntry (source e) (is_gsoc e) (is_hacktoberfest e) (has_good_first_issues e)
    (Some v) (topics e) (languages e) (raw_data e).
Definition set_topics (v : list string) (e : Entry) : Entry :=
  mkEntry (source e) (is_gsoc e) (is_hacktoberfest e) (has_good_first_issues e)
    (is_underrated e) (Some v) (languages e) (raw_data e).
Definition set_languages (v : list string) (e : Entry) : Entry :=
  mkEntry (source e) (is_gsoc e) (is_hacktoberfest e) (has_good_first_issues e)
    (is_underrated e) (topics e) (Some v) (raw_data e).

(** [self.progress_state] *)
Record ProgressState := mkProgress {
  phase : string;
  completed_tasks : list string;
  enrichment_progress : nat;
  enriched_repos : list string;
  filtered_count : Z;
}.

(** The state [load_state] starts from when there is no state file. *)
Definition initial_progress : ProgressState :=
  mkProgress "raw_data" [] 0 [] 0.

(** What [enrich_repo_data_single] assembles: the keys written together by
    one sub-fetch are one optional group. *)
Record DetailsPart := mkDetails {
  detailed_info : Repo;
  primary_language : option string;
  details_license : option string;
  details_topics : list string;
}.

Record ReadmePart := mkReadme {
  readme_url : option string;
  readme_name : option string;
  readme_content : option string;
}.

Record Enriched := mkEnriched {
  details : option DetailsPart;
  languages_breakdown : option (list (string * Z));
  readme : option ReadmePart;
}.

(** One element of the enriched output ([format_repo_for_output]). *)
Record Formatted := mkFormatted {
  out_name : string;
  out_full_name : string;
  out_description : option string;
  out_language : option string;
  out_topics : list string;
  out_stars : Z;
  out_forks : Z;
  out_open_issues : Z;
  out_license : option string;
  out_readme : string;
  out_languages : list string;
  out_is_gsoc : bool;
  out_is_hacktoberfest : bool;
  out_is_underrated : bool;
  out_has_good_first_issues : bool;
  out_sources : list string;
}.

(** The metadata block of the raw data file (the time stamp is left out). *)
Record Metadata := mkMetadata {
  total_repos : nat;
  github_token_used : bool;
  meta_completed_tasks : list string;
  meta_filtered_count : Z;
}.

Inductive FileContent :=
| StateJson (st : ProgressState)
| RawJson (meta : Metadata) (repositories : gmap string Entry)
| EnrichedJson (meta : Metadata) (repositories : list Formatted).

Definition state_file : string := "fetcher_state.json".
Definition raw_file : string := "github_repos_raw.json".
Definition enriched_file : string := "github_repos_enriched.json".

(** ** The environment and the fetcher *)

(** The reply to one HTTP request: a response with its status code, its
    [X-RateLimit-Remaining] header and its decoded body, or an exception
    raised by the request. *)
Inductive Reply (A : Type) :=
| Answered (status_code : Z) (remaining : Z) (body : A)
| Failed (msg : string).
Arguments Answered {A} _ _ _.
Arguments Failed {A} _.

(** [resources.core] in the body of [/rate_limit]: [remaining], an integer,
    and [reset], [None] when the member is missing or is not a number. *)
Record RateBody := mkRate { core_remaining : Z; core_reset : option Z }.

(** Body of [/search/repositories]. *)
Record SearchBody := mkSearch { items : list Repo; total_count : Z }.

(** Body of [/repos/<name>/readme]. *)
Record ReadmeBody := mkReadmeBody {
  download_url : option string;
  body_name : option string;
  content : option string;
  encoding : option string;
}.

Inductive Endpoint := EpDetails | EpLanguages | EpReadme.

#[global] Instance Endpoint_eq_dec : EqDecision Endpoint.
Proof. solve_decision. Defined.

(** Every external action of the fetcher. *)
Inductive Event :=
| EvRateLimit
| EvSearch (query sort : string) (per_page page : Z)
| EvRepo (repo_full_name : string) (ep : Endpoint)
| EvWrite (file : string) (c : FileContent).

(** A future of the enrichment pool: the entity it was submitted for and
    the result of its [enrich_repo_data_single] ([None]: the quota signal). *)
Definition Future : Type := string * (Entry * option Enriched).

Record Remote := mkRemote {
  (** reply of [/rate_limit], by the number of actions performed before; the
      body is [None] when [response.json()] raises or
      [resources.core.remaining] cannot be read *)
  rate_limit_reply : nat -> Reply (option RateBody);
  search_reply : string -> string -> Z -> Z -> Reply SearchBody;
  (** the order in which the requests of one page batch complete *)
  search_completion : string -> list Z -> list Z;
  details_reply : string -> Reply Repo;
  languages_reply : string -> Reply (list (string * Z));
  readme_reply : string -> Reply ReadmeBody;
  (** the order in which the three sub-fetches of one entity complete *)
  endpoint_completion : string -> list Endpoint;
  (** the order in which [as_completed] yields the futures of one
      enrichment batch *)
  enrich_completion : list Future -> list Future;
  (** [base64.b64decode(...).decode('utf-8')], [None] when it raises *)
  b64decode_utf8 : string -> option string;
  (** can the file be opened for writing? *)
  writable : string -> bool;
  (** [datetime.fromtimestamp(reset)] as it prints, [None] when it raises
      (a time stamp out of the range of the platform) *)
  fromtimestamp : Z -> option string;
  (** the interleaving of the workers of one enrichment batch: the
      positions, in the batch, of the workers that take the next steps *)
  enrich_schedule : list (string * Entry) -> list nat;
}.

Record Fetcher := mkFetcher {
  token : option string;
  all_repos : gmap string Entry;
  rate_limit_remaining : Z;
  progress_state : ProgressState;
  log : list Event;
}.

Definition with_all_repos (v : gmap string Entry) (f : Fetcher) : Fetcher :=
  mkFetcher (token f) v (rate_limit_remaining f) (progress_state f) (log f).
Definition with_remaining (v : Z) (f : Fetcher) : Fetcher :=
  mkFetcher (token f) (all_repos f) v (progress_state f) (log f).
Definition with_progress (v : ProgressState) (f : Fetcher) : Fetcher :=
  mkFetcher (token f) (all_repos f) (rate_limit_remaining f) v (log f).
Definition emit (e : Event) (f : Fetcher) : Fetcher :=
  mkFetcher (token f) (all_repos f) (rate_limit_remaining f) (progress_state f)
    (log f ++ [e]).

(** A loop body either goes on with the loop state or leaves the function. *)
Inductive Flow (S R : Type) :=
| Continue (s : S)
| Return (r : R).
Arguments Continue {S R} _.
Arguments Return {S R} _.

(** ** Quota gate *)

Module Quota.

(** [check_rate_limit] returns [False] or an [int]. *)
Inductive CheckResult :=
| CkFalse
| CkInt (n : Z).

(** Whatever raises inside the [try] ends in the [except], which returns
    the cached count: the request, the decoding of the body, and the
    conversion of the reset time, which comes after the cached count was
    refreshed. *)
Definition check_rate_limit (env : Remote) (f : Fetcher) : CheckResult * Fetcher :=
  let f1 := emit EvRateLimit f in
  match rate_limit_reply env (length (log f)) with
  | Answered status _ data =>
      if status =? 200 then
        match data with
        | None => (CkInt (rate_limit_remaining f1), f1)
        | Some core =>
            let f2 := with_remaining (core_remaining core) f1 in
            match core_reset core ≫= fromtimestamp env with
            | None => (CkInt (rate_limit_remaining f2), f2)
            | Some reset_time =>
                if rate_limit_remaining f2 <? 5 then (CkFalse, f2)
                else (CkInt (rate_limit_remaining f2), f2)
            end
        end
      else (CkInt 0, f1)
  | Failed _ => (CkInt (rate_limit_remaining f1), f1)
  end.

(** [result is False] *)
Definition is_False (r : CheckResult) : bool :=
  match r with CkFalse => true | CkInt _ => false end.

Definition wait_for_rate_limit (env : Remote) (f : Fetcher) : bool * Fetcher :=
  if rate_limit_remaining f <? 10 then
    let '(result, f1) := check_rate_limit env f in
    if is_False result then (false, f1) else (true, f1)
  else (true, f).

End Quota.

(** ** Paginated search *)

Module Search.

Import Validator Quota.

(** [build_tier1_query] *)
Definition build_tier1_query (base_query : string) : string :=
  let filters := "stars:>=" +:+ pretty min_stars +:+ " "
                 +:+ "forks:>=" +:+ pretty min_forks +:+ " "
                 +:+ "is:public" +:+ " " +:+ "archived:false" in
  match base_query with
  | EmptyString => filters
  | _ => base_query +:+ " " +:+ filters
  end.

(** The dict returned by [fetch_page]. *)
Inductive PageResult :=
| PageOk (page : Z) (repos : list Repo) (filtered_out : nat)
    (total_items : nat) (total : Z)
| PageErr (page : Z) (error : string).

Definition result_page (r : PageResult) : Z :=
  match r with PageOk p _ _ _ _ => p | PageErr p _ => p end.

(** The Tier 2 loop of [fetch_page]; it raises when the validator does. *)
Fixpoint tier2 (its : list Repo) (valid_repos : list Repo) (filtered_out : nat)
    : Outcome (list Repo * nat) :=
  match its with
  | [] => Ret (valid_repos, filtered_out)
  | item :: rest =>
      match is_legitimate_project item with
      | Exn e => Exn e
      | Ret (is_valid, _) =>
          if is_valid
          then tier2 rest (valid_repos ++ [item]) filtered_out
          else tier2 rest valid_repos (S filtered_out)
      end
  end.

Definition fetch_page (env : Remote) (query : string) (page per_page : Z)
    (sort : string) (f : Fetcher) : PageResult * Fetcher :=
  let f1 := emit (EvSearch query sort per_page page) f in
  match search_reply env query sort per_page page with
  | Failed msg => (PageErr page msg, f1)
  | Answered status remaining data =>
      let f2 := with_remaining remaining f1 in
      if status =? 200 then
        match tier2 (items data) [] 0%nat with
        | Ret (valid_repos, filtered_out) =>
            (PageOk page valid_repos filtered_out (length (items data))
               (total_count data), f2)
        | Exn e => (PageErr page e, f2)
        end
      else if status =? 403 then (PageErr page "rate_limit", f2)
      else (PageErr page ("HTTP " +:+ pretty status), f2)
  end.

(** [range(start, stop)] and [range(start, stop, step)] for a positive step *)
Definition range (start stop : Z) : list Z := seqZ start (stop - start).
Definition range_step (start stop step : Z) : list Z :=
  (fun i => start + step * i) <$> seqZ 0 ((stop - start + step - 1) / step).

(** [l[:n]] *)
Definition slice_to {A} (l : list A) (n : Z) : list A :=
  if 0 <=? n then take (Z.to_nat n) l
  else take (length l - Z.to_nat (- n)) l.

(** [batch_results.sort(key=lambda x: x.get('page', 0))]: a stable sort. *)
Fixpoint insert_by_page (r : PageResult) (l : list PageResult) : list PageResult :=
  match l with
  | [] => [r]
  | x :: l' =>
      if result_page r <? result_page x then r :: l
      else x :: insert_by_page r l'
  end.

Definition sort_by_page (l : list PageResult) : list PageResult :=
  foldl (fun acc r => insert_by_page r acc) [] l.

(** The requests of one batch, run in their completion order. *)
Fixpoint fetch_batch (env : Remote) (query sort : string) (per_page : Z)
    (completed : list Z) (f : Fetcher) : list PageResult * Fetcher :=
  match completed with
  | [] => ([], f)
  | page :: rest =>
      let '(result, f1) := fetch_page env query page per_page sort f in
      let '(results, f2) := fetch_batch env query sort per_page rest f1 in
      (result :: results, f2)
  end.

(** The loop over the sorted results of one batch. *)
Fixpoint process_results (max_results : Z) (results : list PageResult)
    (repos : list Repo) (total_filtered_out : nat)
    : Flow (list Repo * nat) (option (list Repo)) :=
  match results with
  | [] => Continue (repos, total_filtered_out)
  | PageErr _ error :: rest =>
      if bool_decide (error = "rate_limit") then Return None
      else process_results max_results rest repos total_filtered_out
  | PageOk _ page_repos filtered_out _ _ :: rest =>
      match page_repos with
      | [] => Return (Some (slice_to repos max_results))
      | _ => process_results max_results rest (repos ++ page_repos)
               (total_filtered_out + filtered_out)%nat
      end
  end.

Definition per_page : Z := 100.
Definition batch_size : Z := 5.

Definition max_pages (max_results : Z) : Z :=
  Z.min ((max_results + per_page - 1) / per_page) 10.

Definition batch_pages (max_results batch_start : Z) : list Z :=
  range (batch_start + 1)
    (Z.min (batch_start + batch_size + 1) (max_pages max_results + 1)).

(** The statements after the batch loop. *)
Definition finish (max_results : Z) (repos : list Repo)
    (total_filtered_out : nat) (f : Fetcher) : option (list Repo) * Fetcher :=
  let ps := progress_state f in
  (Some (slice_to repos max_results),
   with_progress
     (mkProgress (phase ps) (completed_tasks ps) (enrichment_progress ps)
        (enriched_repos ps) (filtered_count ps + Z.of_nat total_filtered_out))
     f).

(** The batch loop of [search_repos], from the batches [starts] that remain. *)
Fixpoint search_batches (env : Remote) (filtered_query sort : string)
    (max_results : Z) (starts : list Z) (repos : list Repo)
    (total_filtered_out : nat) (f : Fetcher) : option (list Repo) * Fetcher :=
  match starts with
  | [] => finish max_results repos total_filtered_out f
  | batch_start :: rest =>
      let pages := batch_pages max_results batch_start in
      let '(go, f1) := wait_for_rate_limit env f in
      if negb go then (None, f1)
      else
        let '(batch_results, f2) :=
          fetch_batch env filtered_query sort per_page
            (search_completion env filtered_query pages) f1 in
        match process_results max_results (sort_by_page batch_results)
                repos total_filtered_out with
        | Return r => (r, f2)
        | Continue (repos', total') =>
            if Z.of_nat (length repos') >=? max_results
            then finish max_results repos' total' f2
            else search_batches env filtered_query sort max_results rest
                   repos' total' f2
        end
  end.

Definition batch_starts (max_results : Z) : list Z :=
  range_step 0 (max_pages max_results) batch_size.

Definition search_repos (env : Remote) (query : string) (max_results : Z)
    (sort : string) (f : Fetcher) : option (list Repo) * Fetcher :=
  search_batches env (build_tier1_query query) sort max_results
    (batch_starts max_results) [] 0%nat f.

(** The pages requested by the events of a log. *)
Definition requested_pages (evs : list Event) : list Z :=
  omap (fun e => match e with EvSearch _ _ _ p => Some p | _ => None end) evs.

(** The dict [fetch_page] returns for a page; it does not depend on the
    fetcher. *)
Definition page_result (env : Remote) (query sort : string) (page : Z)
    : PageResult :=
  (fetch_page env query page per_page sort
     (mkFetcher None ∅ 0 initial_progress [])).1.

(** [not result['success'] and result.get('error') == 'rate_limit'] *)
Definition is_quota (r : PageResult) : bool :=
  match r with
  | PageErr _ error => bool_decide (error = "rate_limit")
  | PageOk _ _ _ _ _ => false
  end.

(** a successful page without a valid item: [not page_repos] *)
Definition is_barren (r : PageResult) : bool :=
  match r with
  | PageOk _ [] _ _ _ => true
  | _ => false
  end.

(** the valid items a page contributes *)
Definition page_repos (r : PageResult) : list Repo :=
  match r with
  | PageOk _ l _ _ _ => l
  | PageErr _ _ => []
  end.

(** the order [sort_by_page] sorts by *)
Definition by_page (x y : PageResult) : Prop := result_page x <= result_page y.

(** The requests of a batch complete in some order: each exactly once. *)
Definition completes_each_once (env : Remote) : Prop :=
  forall query pages, search_completion env query pages ≡ₚ pages.

(** The states in which the batch loop of [search_repos env query
    max_results sort f0] is entered: with the batches [starts] still to
    run, [repos] collected and [total] items filtered out so far. *)
Inductive LoopAt (env : Remote) (query sort : string) (max_results : Z)
    (f0 : Fetcher) : list Z -> list Repo -> nat -> Fetcher -> Prop :=
| loop_first :
    LoopAt env query sort max_results f0 (batch_starts max_results) [] 0%nat f0
| loop_next b rest repos total f f1 results f2 repos' total' :
    LoopAt env query sort max_results f0 (b :: rest) repos total f ->
    wait_for_rate_limit env f = (true, f1) ->
    fetch_batch env (build_tier1_query query) sort per_page
      (search_completion env (build_tier1_query query)
         (batch_pages max_results b)) f1 = (results, f2) ->
    process_results max_results (sort_by_page results) repos total
      = Continue (repos', total') ->
    Z.of_nat (length repos') < max_results ->
    LoopAt env query sort max_results f0 rest repos' total' f2.

End Search.

#[global] Instance Repo_eq_dec : EqDecision Repo.
Proof. solve_decision. Defined.
#[global] Instance Entry_eq_dec : EqDecision Entry.
Proof. solve_decision. Defined.

(** ** Dedup aggregation: the merge loops of the [fetch_*] tasks *)

Module Aggregate.

Definition new_entry (tag : string) (repo : Repo) : Entry :=
  mkEntry [tag] None None None None None None repo.

(** [if tag not in entry['source']: entry['source'].append(tag)] *)
Definition append_new (tag : string) (l : list string) : list string :=
  if bool_decide (tag ∈ l) then l else l ++ [tag].

(** Loop body of [fetch_top_repos]. *)
Definition merge_top_starred (repo : Repo) (all : gmap string Entry)
    : gmap string Entry :=
  match all !! full_name repo with
  | None => <[full_name repo := new_entry "top_starred" repo]> all
  | Some e =>
      <[full_name repo := set_source (source e ++ ["top_starred"]) e]> all
  end.

(** Loop body of [fetch_gsoc_repos]. *)
Definition merge_gsoc (repo : Repo) (all : gmap string Entry)
    : gmap string Entry :=
  match all !! full_name repo with
  | None => <[full_name repo := set_is_gsoc true (new_entry "gsoc" repo)]> all
  | Some e =>
      <[full_name repo :=
          set_is_gsoc true (set_source (append_new "gsoc" (source e)) e)]> all
  end.

(** Loop body of [fetch_hacktoberfest_repos]. *)
Definition merge_hacktoberfest (repo : Repo) (all : gmap string Entry)
    : gmap string Entry :=
  match all !! full_name repo with
  | None =>
      <[full_name repo :=
          set_is_hacktoberfest true (new_entry "hacktoberfest" repo)]> all
  | Some e =>
      <[full_name repo :=
          set_is_hacktoberfest true
            (set_source (append_new "hacktoberfest" (source e)) e)]> all
  end.

(** Loop body of [fetch_repos_by_topics]. *)
Definition merge_topic (topic : string) (repo : Repo)
    (all : gmap string Entry) : gmap string Entry :=
  match all !! full_name repo with
  | None =>
      <[full_name repo :=
          set_topics [topic] (new_entry ("topic_" +:+ topic) repo)]> all
  | Some e =>
      let e1 := set_source (source e ++ ["topic_" +:+ topic]) e in
      <[full_name repo :=
          set_topics (append_new topic (default [] (topics e1))) e1]> all
  end.

(** Loop body of [fetch_repos_by_languages]. *)
Definition merge_language (lang : string) (repo : Repo)
    (all : gmap string Entry) : gmap string Entry :=
  match all !! full_name repo with
  | None =>
      <[full_name repo :=
          set_languages [lang] (new_entry ("language_" +:+ lang) repo)]> all
  | Some e =>
      let e1 := set_source (source e ++ ["language_" +:+ lang]) e in
      <[full_name repo :=
          set_languages (append_new lang (default [] (languages e1))) e1]> all
  end.

(** Loop body of [fetch_good_first_issue_repos]. *)
Definition merge_good_first_issue (repo : Repo) (all : gmap string Entry)
    : gmap string Entry :=
  match all !! full_name repo with
  | None =>
      <[full_name repo :=
          set_has_good_first_issues true (new_entry "good_first_issue" repo)]> all
  | Some e =>
      <[full_name repo :=
          set_has_good_first_issues true
            (set_source (append_new "good_first_issue" (source e)) e)]> all
  end.

(** [stars < 2000 and (forks > 20 or watchers > 50)] *)
Definition derive_underrated (repo : Repo) : bool :=
  (stargazers_count repo <? 2000)
  && ((20 <? forks_count repo) || (50 <? watchers_count repo)).

(** Loop body of [fetch_underrated_repos]. *)
Definition merge_underrated (repo : Repo) (all : gmap string Entry)
    : gmap string Entry :=
  let underrated := derive_underrated repo in
  match all !! full_name repo with
  | None =>
      <[full_name repo :=
          set_is_underrated underrated (new_entry "underrated" repo)]> all
  | Some e =>
      <[full_name repo :=
          set_is_underrated underrated
            (set_source (append_new "underrated" (source e)) e)]> all
  end.

(** Which task ingests an item. *)
Inductive Facet :=
| TopStarred
| Gsoc
| Hacktoberfest
| Topic (topic : string)
| Language (lang : string)
| GoodFirstIssue
| Underrated.

Definition Ingestion : Type := Facet * Repo.

Definition ingest (i : Ingestion) (all : gmap string Entry) : gmap string Entry :=
  match i.1 with
  | TopStarred => merge_top_starred i.2 all
  | Gsoc => merge_gsoc i.2 all
  | Hacktoberfest => merge_hacktoberfest i.2 all
  | Topic t => merge_topic t i.2 all
  | Language l => merge_language l i.2 all
  | GoodFirstIssue => merge_good_first_issue i.2 all
  | Underrated => merge_underrated i.2 all
  end.

(** Ingestions applied in list order. *)
Definition ingest_all (l : list Ingestion) (all : gmap string Entry)
    : gmap string Entry :=
  foldl (fun all i => ingest i all) all l.

(** [for repo in repos: body] *)
Definition merge_all (body : Repo -> gmap string Entry -> gmap string Entry)
    (repos : list Repo) (f : Fetcher) : Fetcher :=
  with_all_repos (foldl (fun all repo => body repo all) (all_repos f) repos) f.

(** The boolean that [r.get(flag)] stands for in a condition. *)
Definition flag (o : option bool) : bool := default false o.

(** *** The merge loops, one entry at a time

    Every loop body reads [all_repos[full_name]] and writes it back; on
    the entry it is the function [step], started from [blank] when the key
    is new ([ingest_step] below proves this view against the loop bodies). *)

Definition tag (fa : Facet) : string :=
  match fa with
  | TopStarred => "top_starred"
  | Gsoc => "gsoc"
  | Hacktoberfest => "hacktoberfest"
  | Topic t => "topic_" +:+ t
  | Language l => "language_" +:+ l
  | GoodFirstIssue => "good_first_issue"
  | Underrated => "underrated"
  end.

(** does the loop test [tag not in source] before appending? *)
Definition dedups (fa : Facet) : bool :=
  match fa with
  | Gsoc | Hacktoberfest | GoodFirstIssue | Underrated => true
  | TopStarred | Topic _ | Language _ => false
  end.

Definition step (fa : Facet) (r : Repo) (e : Entry) : Entry :=
  mkEntry
    (if dedups fa then append_new (tag fa) (source e)
     else source e ++ [tag fa])
    (match fa with Gsoc => Some true | _ => is_gsoc e end)
    (match fa with Hacktoberfest => Some true | _ => is_hacktoberfest e end)
    (match fa with GoodFirstIssue => Some true | _ => has_good_first_issues e end)
    (match fa with
     | Underrated => Some (derive_underrated r)
     | _ => is_underrated e
     end)
    (match fa with
     | Topic t => Some (append_new t (default [] (topics e)))
     | _ => topics e
     end)
    (match fa with
     | Language l => Some (append_new l (default [] (languages e)))
     | _ => languages e
     end)
    (raw_data e).

Definition blank (r : Repo) : Entry := mkEntry [] None None None None None None r.

(** Two entries that agree up to the order of their lists, leaving
    [raw_data] and [is_underrated] aside. *)
Definition entry_equiv (e1 e2 : Entry) : Prop :=
  source e1 ≡ₚ source e2
  /\ is_gsoc e1 = is_gsoc e2
  /\ is_hacktoberfest e1 = is_hacktoberfest e2
  /\ has_good_first_issues e1 = has_good_first_issues e2
  /\ option_Forall2 Permutation (topics e1) (topics e2)
  /\ option_Forall2 Permutation (languages e1) (languages e2).

Definition map_equiv (m1 m2 : gmap string Entry) : Prop :=
  forall k, option_Forall2 entry_equiv (m1 !! k) (m2 !! k).

End Aggregate.

(** ** Checkpoint store *)

Module Checkpoint.

(** [with open(file, 'w') as f: json.dump(content, f)] *)
Definition open_write (env : Remote) (file : string) (c : FileContent)
    (f : Fetcher) : Outcome unit * Fetcher :=
  if writable env file then (Ret (), emit (EvWrite file c) f)
  else (Exn ("cannot write " +:+ file), f).

(** [save_state]: the exception of a failed write is caught and printed. *)
Definition save_state (env : Remote) (f : Fetcher) : Fetcher :=
  match open_write env state_file (StateJson (progress_state f)) f with
  | (Ret _, f1) => f1
  | (Exn _, f1) => f1
  end.

Definition is_task_complete (task_name : string) (f : Fetcher) : bool :=
  bool_decide (task_name ∈ completed_tasks (progress_state f)).

Definition mark_task_complete (env : Remote) (task_name : string)
    (f : Fetcher) : Fetcher :=
  if is_task_complete task_name f then f
  else
    let ps := progress_state f in
    save_state env
      (with_progress
         (mkProgress (phase ps) (completed_tasks ps ++ [task_name])
            (enrichment_progress ps) (enriched_repos ps) (filtered_count ps))
         f).

Definition metadata_of (f : Fetcher) : Metadata :=
  mkMetadata (size (all_repos f)) (bool_decide (token f <> None))
    (completed_tasks (progress_state f)) (filtered_count (progress_state f)).

(** [save_current_data]: nothing is written for an empty map; a failed
    write is not caught. *)
Definition save_current_data (env : Remote) (f : Fetcher)
    : Outcome unit * Fetcher :=
  if bool_decide (all_repos f = ∅) then (Ret (), f)
  else open_write env raw_file (RawJson (metadata_of f) (all_repos f)) f.

(** The files as a fresh process finds them. *)
Definition apply_write (d : gmap string FileContent) (e : Event)
    : gmap string FileContent :=
  match e with
  | EvWrite file c => <[file := c]> d
  | _ => d
  end.

Definition replay (d : gmap string FileContent) (evs : list Event)
    : gmap string FileContent :=
  foldl apply_write d evs.

Definition is_write (e : Event) : bool :=
  match e with EvWrite _ _ => true | _ => false end.

(** The persistence steps among the events of a run, in order. *)
Definition writes (evs : list Event) : list Event := filter is_write evs.

(** [load_state] *)
Definition load_state (d : gmap string FileContent) : ProgressState :=
  match d !! state_file with
  | Some (StateJson st) => st
  | _ => initial_progress
  end.

(** [load_existing_repos] *)
Definition load_existing_repos (d : gmap string FileContent) (f : Fetcher)
    : Fetcher :=
  match d !! raw_file with
  | Some (RawJson _ repositories) => with_all_repos repositories f
  | _ => f
  end.

(** A fresh process: [__init__], then the resume step of [main]. *)
Definition boot (tok : option string) (d : gmap string FileContent) : Fetcher :=
  load_existing_repos d (mkFetcher tok ∅ 60 (load_state d) []).

(** The events a run added to the log. *)
Definition new_events (before after : Fetcher) : list Event :=
  drop (length (log before)) (log after).

(** [f'] is [f] after the actions [evs]. *)
Definition extends_by (f f' : Fetcher) (evs : list Event) : Prop :=
  log f' = log f ++ evs.

(** Between [f] and [f'] nothing was merged and no task was marked. *)
Definition same_store (f f' : Fetcher) : Prop :=
  all_repos f' = all_repos f /\ token f' = token f
  /\ completed_tasks (progress_state f') = completed_tasks (progress_state f).

(** The files after a crash that let the first [k] persistence steps of
    the events [evs] through. *)
Definition crash_after (d : gmap string FileContent) (evs : list Event)
    (k : nat) : gmap string FileContent :=
  replay d (take k (writes evs)).

(** A fresh process started on the files [d] finds the task marked
    complete while one of the [entities] it collected is not in the data. *)
Definition lost_entities (d : gmap string FileContent) (task_name : string)
    (entities : list string) : Prop :=
  is_task_complete task_name (boot None d) = true
  /\ exists fn, fn ∈ entities /\ all_repos (boot None d) !! fn = None.

End Checkpoint.

(** ** Collection tasks *)

Module Tasks.

Import Search Aggregate Checkpoint.

(** The last three statements of every task. *)
Definition complete_and_save (env : Remote) (task_name : string)
    (f : Fetcher) : Outcome bool * Fetcher :=
  let f1 := mark_task_complete env task_name f in
  match save_current_data env f1 with
  | (Ret _, f2) => (Ret true, f2)
  | (Exn e, f2) => (Exn e, f2)
  end.

Definition fetch_top_repos (env : Remote) (limit : Z) (f : Fetcher)
    : Outcome bool * Fetcher :=
  let task_name := "top_repos" in
  if is_task_complete task_name f then (Ret true, f)
  else
    match search_repos env "help-wanted-issues:>5" limit "stars" f with
    | (None, f1) => (Ret false, f1)
    | (Some repos, f1) =>
        complete_and_save env task_name (merge_all merge_top_starred repos f1)
    end.

(** [for query in queries: ...] of the tasks that run several queries. *)
Fixpoint run_queries (env : Remote) (queries : list string) (each : Z)
    (sort : string) (body : Repo -> gmap string Entry -> gmap string Entry)
    (f : Fetcher) : bool * Fetcher :=
  match queries with
  | [] => (true, f)
  | query :: rest =>
      match search_repos env query each sort f with
      | (None, f1) => (false, f1)
      | (Some repos, f1) =>
          run_queries env rest each sort body (merge_all body repos f1)
      end
  end.

Definition multi_query_task (env : Remote) (task_name : string)
    (queries : list string) (limit : Z) (sort : string)
    (body : Repo -> gmap string Entry -> gmap string Entry) (f : Fetcher)
    : Outcome bool * Fetcher :=
  if is_task_complete task_name f then (Ret true, f)
  else
    match run_queries env queries (limit / Z.of_nat (length queries)) sort
            body f with
    | (false, f1) => (Ret false, f1)
    | (true, f1) => complete_and_save env task_name f1
    end.

Definition fetch_gsoc_repos (env : Remote) (limit : Z) (f : Fetcher) :=
  multi_query_task env "gsoc_repos"
    ["gsoc in:name,description"; "google-summer-of-code in:name,description";
     "topic:gsoc"; "topic:google-summer-of-code"]
    limit "stars" merge_gsoc f.

Definition fetch_hacktoberfest_repos (env : Remote) (limit : Z) (f : Fetcher) :=
  multi_query_task env "hacktoberfest_repos"
    ["hacktoberfest in:name,description"; "topic:hacktoberfest"]
    limit "stars" merge_hacktoberfest f.

Definition fetch_good_first_issue_repos (env : Remote) (limit : Z) (f : Fetcher) :=
  multi_query_task env "good_first_issue"
    ["good-first-issue in:name,description"; "help-wanted in:name,description"]
    limit "stars" merge_good_first_issue f.

Definition fetch_underrated_repos (env : Remote) (limit : Z) (f : Fetcher) :=
  multi_query_task env "underrated"
    ["stars:100..1000 forks:>20"; "stars:500..2000 pushed:>2024-01-01";
     "stars:200..1500 watchers:>50"]
    limit "updated" merge_underrated f.

(** [fetch_repos_by_topics] and [fetch_repos_by_languages]: one task per
    element, [prefix] and [body] tell the two apart. *)
Fixpoint fetch_repos_by (env : Remote) (prefix : string)
    (body : string -> Repo -> gmap string Entry -> gmap string Entry)
    (keys : list string) (limit_each : Z) (f : Fetcher)
    : Outcome bool * Fetcher :=
  match keys with
  | [] => (Ret true, f)
  | key :: rest =>
      let task_name := prefix +:+ "_" +:+ key in
      if is_task_complete task_name f
      then fetch_repos_by env prefix body rest limit_each f
      else
        match search_repos env (prefix +:+ ":" +:+ key) limit_each "stars" f with
        | (None, f1) => (Ret false, f1)
        | (Some repos, f1) =>
            let f2 := mark_task_complete env task_name
                        (merge_all (body key) repos f1) in
            match save_current_data env f2 with
            | (Ret _, f3) => fetch_repos_by env prefix body rest limit_each f3
            | (Exn e, f3) => (Exn e, f3)
            end
        end
  end.

Definition fetch_repos_by_topics (env : Remote) (topics : list string)
    (limit_per_topic : Z) (f : Fetcher) :=
  fetch_repos_by env "topic" merge_topic topics limit_per_topic f.

Definition fetch_repos_by_languages (env : Remote) (langs : list string)
    (limit_per_lang : Z) (f : Fetcher) :=
  fetch_repos_by env "language" merge_language langs limit_per_lang f.

End Tasks.

(** ** Enrichment *)

Module Enrich.

Import Quota Checkpoint.

(** What one sub-fetch hands back ([None]: no data). *)
Inductive Data :=
| DataDetails (d : Repo)
| DataLanguages (l : list (string * Z))
| DataReadme (r : ReadmeBody).

(** [fetch_endpoint]: data on a 200, nothing on a 403, on any other status
    and on an exception. *)
Definition on_reply {A} (wrap : A -> Data) (r : Reply A) (f : Fetcher)
    : option Data * Fetcher :=
  match r with
  | Answered status remaining data =>
      let f1 := with_remaining remaining f in
      if status =? 200 then (Some (wrap data), f1)
      else if status =? 403 then (None, f1)
      else (None, f1)
  | Failed _ => (None, f)
  end.

Definition fetch_endpoint (env : Remote) (repo_full_name : string)
    (ep : Endpoint) (f : Fetcher) : option Data * Fetcher :=
  let f1 := emit (EvRepo repo_full_name ep) f in
  match ep with
  | EpDetails => on_reply DataDetails (details_reply env repo_full_name) f1
  | EpLanguages => on_reply DataLanguages (languages_reply env repo_full_name) f1
  | EpReadme => on_reply DataReadme (readme_reply env repo_full_name) f1
  end.

Definition truthy (o : option string) : bool :=
  match o with Some s => negb (bool_decide (s = "")) | None => false end.

(** The body of the [as_completed] loop of [enrich_repo_data_single]. *)
Definition absorb (env : Remote) (data : option Data) (enriched : Enriched)
    : Enriched :=
  match data with
  | None => enriched
  | Some (DataDetails d) =>
      mkEnriched
        (Some (mkDetails d (language d) (license d) (repo_topics d)))
        (languages_breakdown enriched) (readme enriched)
  | Some (DataLanguages l) =>
      mkEnriched (details enriched) (Some l) (readme enriched)
  | Some (DataReadme r) =>
      let decoded :=
        if truthy (content r) && bool_decide (encoding r = Some "base64")
        then b64decode_utf8 env (default "" (content r))
        else None in
      mkEnriched (details enriched) (languages_breakdown enriched)
        (Some (mkReadme (download_url r) (body_name r) decoded))
  end.

Definition no_enrichment : Enriched := mkEnriched None None None.

Fixpoint sub_fetches (env : Remote) (repo_full_name : string)
    (completed : list Endpoint) (enriched : Enriched) (f : Fetcher)
    : Enriched * Fetcher :=
  match completed with
  | [] => (enriched, f)
  | ep :: rest =>
      let '(data, f1) := fetch_endpoint env repo_full_name ep f in
      sub_fetches env repo_full_name rest (absorb env data enriched) f1
  end.

Definition enrich_repo_data_single (env : Remote) (repo_full_name : string)
    (f : Fetcher) : option Enriched * Fetcher :=
  let '(go, f1) := wait_for_rate_limit env f in
  if negb go then (None, f1)
  else
    let '(enriched, f2) :=
      sub_fetches env repo_full_name (endpoint_completion env repo_full_name)
        no_enrichment f1 in
    (Some enriched, f2).

(** [a or b] on optional strings and on lists *)
Definition or_str (a b : option string) : option string :=
  if truthy a then a else b.
Definition or_list {A} (a b : list A) : list A :=
  match a with [] => b | _ => a end.

(** [format_repo_for_output] *)
Definition format_repo_for_output (repo_data : Entry) (enriched_data : Enriched)
    : Formatted :=
  let raw := raw_data repo_data in
  let detailed := from_option detailed_info raw (details enriched_data) in
  mkFormatted
    (name detailed) (full_name detailed) (description detailed)
    (or_str (details enriched_data ≫= primary_language) (language detailed))
    (or_list (from_option details_topics [] (details enriched_data))
       (repo_topics detailed))
    (stargazers_count detailed) (forks_count detailed)
    (open_issues_count detailed)
    (or_str (details enriched_data ≫= details_license) (license detailed))
    (default "" (readme enriched_data ≫= readme_content))
    (from_option (map fst) [] (languages_breakdown enriched_data))
    (default false (is_gsoc repo_data))
    (default false (is_hacktoberfest repo_data))
    (default false (is_underrated repo_data))
    (default false (has_good_first_issues repo_data))
    (source repo_data).

(** [enriched_repos[full_name] = v] on an insertion-ordered dict *)
Fixpoint dict_set {V} (k : string) (v : V) (d : list (string * V))
    : list (string * V) :=
  match d with
  | [] => [(k, v)]
  | (k', v') :: d' =>
      if bool_decide (k' = k) then (k, v) :: d'
      else (k', v') :: dict_set k v d'
  end.

(** [_save_enriched_data] *)
Definition _save_enriched_data (env : Remote)
    (enriched : list (string * (Entry * Enriched))) (filename : string)
    (metadata : Metadata) (f : Fetcher) : Outcome unit * Fetcher :=
  let formatted_repos :=
    map (fun kv => format_repo_for_output kv.2.1 kv.2.2) enriched in
  open_write env filename
    (EnrichedJson
       (mkMetadata (length formatted_repos) (github_token_used metadata)
          (meta_completed_tasks metadata) (meta_filtered_count metadata))
       formatted_repos)
    f.

Definition record_enriched (full : string) (n : nat) (f : Fetcher) : Fetcher :=
  let ps := progress_state f in
  with_progress
    (mkProgress (phase ps) (completed_tasks ps) n
       (if bool_decide (full ∈ enriched_repos ps) then enriched_repos ps
        else enriched_repos ps ++ [full])
       (filtered_count ps))
    f.

(** *** The pool of one batch

    [enrich_all_repos] submits every entity of the batch before it reads a
    result, so the calls of [enrich_repo_data_single] run side by side on
    the shared fetcher.  A worker goes through its call in steps: the quota
    gate, then its sub-fetches one after the other in their completion
    order.  A step reads and writes the cached quota at once; the steps of
    different workers interleave as the environment says. *)
Inductive Worker :=
| Submitted (repo_full_name : string)
| Fetching (repo_full_name : string) (pending : list Endpoint)
    (enriched : Enriched)
| Finished (result : option Enriched).

Definition worker_step (env : Remote) (w : Worker) (f : Fetcher)
    : Worker * Fetcher :=
  match w with
  | Submitted full =>
      let '(go, f1) := wait_for_rate_limit env f in
      if negb go then (Finished None, f1)
      else (Fetching full (endpoint_completion env full) no_enrichment, f1)
  | Fetching full (ep :: rest) enriched =>
      let '(data, f1) := fetch_endpoint env full ep f in
      (Fetching full rest (absorb env data enriched), f1)
  | Fetching full [] enriched => (Finished (Some enriched), f)
  | Finished result => (Finished result, f)
  end.

(** the worker at position [i] takes its next step *)
Definition step_at (env : Remote) (i : nat) (ws : list Worker) (f : Fetcher)
    : list Worker * Fetcher :=
  match ws !! i with
  | Some w => let '(w', f') := worker_step env w f in (<[i := w']> ws, f')
  | None => (ws, f)
  end.

Fixpoint run_steps (env : Remote) (schedule : list nat) (ws : list Worker)
    (f : Fetcher) : list Worker * Fetcher :=
  match schedule with
  | [] => (ws, f)
  | i :: rest =>
      let '(ws1, f1) := step_at env i ws f in run_steps env rest ws1 f1
  end.

(** the steps a worker may take before it has finished *)
Definition steps_to_go (env : Remote) (w : Worker) : nat :=
  match w with
  | Submitted full => 2 + length (endpoint_completion env full)
  | Fetching _ pending _ => 1 + length pending
  | Finished _ => 0
  end.

(** every worker takes its next step, one after the other *)
Fixpoint turn (env : Remote) (ws : list Worker) (f : Fetcher)
    : list Worker * Fetcher :=
  match ws with
  | [] => ([], f)
  | w :: rest =>
      let '(w', f1) := worker_step env w f in
      let '(rest', f2) := turn env rest f1 in
      (w' :: rest', f2)
  end.

Fixpoint turns (env : Remote) (n : nat) (ws : list Worker) (f : Fetcher)
    : list Worker * Fetcher :=
  match n with
  | O => (ws, f)
  | S n' => let '(ws1, f1) := turn env ws f in turns env n' ws1 f1
  end.

Definition result_of (w : Worker) : option Enriched :=
  match w with Finished result => result | _ => None end.

(** The pool runs the interleaving of the environment and then lets the
    workers go on in turns until all have finished (leaving the [with]
    block waits for them); it hands back the futures in the order of
    submission. *)
Definition run_pool (env : Remote) (batch : list (string * Entry))
    (f : Fetcher) : list Future * Fetcher :=
  let workers := (fun kv => Submitted kv.1) <$> batch in
  let '(ws1, f1) := run_steps env (enrich_schedule env batch) workers f in
  let '(ws2, f2) := turns env (max_list (steps_to_go env <$> ws1)) ws1 f1 in
  (zip_with (fun kv w => (kv.1, (kv.2, result_of w))) batch ws2, f2).

(** The [as_completed] loop over the futures of one batch, in the order
    they are yielded.  A failed write in the quota branch is inside the
    [try] of the loop body: it is caught and the loop goes on. *)
Fixpoint enrich_batch (env : Remote) (output_file : string)
    (metadata : Metadata) (completed : list Future)
    (enriched : list (string * (Entry * Enriched))) (f : Fetcher)
    : Flow (list (string * (Entry * Enriched)) * Fetcher) Fetcher :=
  match completed with
  | [] => Continue (enriched, f)
  | (full, (repo_data, result)) :: rest =>
      match result with
      | None =>
          match _save_enriched_data env enriched output_file metadata f with
          | (Ret _, f1) => Return f1
          | (Exn _, f1) =>
              enrich_batch env output_file metadata rest enriched f1
          end
      | Some e =>
          let enriched' := dict_set full (repo_data, e) enriched in
          enrich_batch env output_file metadata rest enriched'
            (record_enriched full (length enriched') f)
      end
  end.


(** The batch loop of [enrich_all_repos], from [repos_list] on: [batches]
    are the slices [repos_list[batch_start:batch_start + batch_size]] that
    remain.  The log lists the requests of the pool before the writes of
    the loop over its futures: the workers only touch the cached quota and
    the service, the loop only the progress state and the files, and the
    function does not return before every worker has finished. *)
Fixpoint enrich_batches (env : Remote) (output_file : string)
    (metadata : Metadata) (batches : list (list (string * Entry)))
    (enriched : list (string * (Entry * Enriched))) (f : Fetcher)
    : Outcome unit * Fetcher :=
  match batches with
  | [] => (Ret (), f)
  | batch :: rest =>
      let '(futures, f0) := run_pool env batch f in
      match enrich_batch env output_file metadata
              (enrich_completion env futures) enriched f0 with
      | Return f1 => (Ret (), f1)
      | Continue (enriched', f1) =>
          match _save_enriched_data env enriched' output_file metadata f1 with
          | (Exn e, f2) => (Exn e, f2)
          | (Ret _, f2) =>
              enrich_batches env output_file metadata rest enriched'
                (save_state env f2)
          end
      end
  end.




(** The data of a reply, as [fetch_endpoint] hands it back. *)
Definition answered_ok {A} (r : Reply A) : option A :=
  match r with
  | Answered status _ data => if status =? 200 then Some data else None
  | Failed _ => None
  end.

(** What the sub-fetch [ep] of an entity hands back. *)
Definition sub_result (env : Remote) (repo_full_name : string)
    (ep : Endpoint) : option Data :=
  match ep with
  | EpDetails => DataDetails <$> answered_ok (details_reply env repo_full_name)
  | EpLanguages =>
      DataLanguages <$> answered_ok (languages_reply env repo_full_name)
  | EpReadme => DataReadme <$> answered_ok (readme_reply env repo_full_name)
  end.

(** The record when the sub-fetch [ep] alone is absorbed. *)
Definition alone (env : Remote) (repo_full_name : string) (ep : Endpoint)
    : Enriched :=
  absorb env (sub_result env repo_full_name ep) no_enrichment.



(** The record in which every group of keys is what its own sub-fetch
    gives, whatever the two others gave. *)
Definition own_record (env : Remote) (repo_full_name : string) : Enriched :=
  mkEnriched (details (alone env repo_full_name EpDetails))
    (languages_breakdown (alone env repo_full_name EpLanguages))
    (readme (alone env repo_full_name EpReadme)).







End Enrich.

(** ** Concrete items, services and fetchers used by the examples *)

Module Samples.

Import Checkpoint.

Definition repo (nm full : string) (stars forks watchers : Z) : Repo :=
  mkRepo nm full (Some "A fast and reliable HTTP client library")
    (Some "MIT License") stars forks watchers 12 (Some "Python") [].

Definition requests_repo : Repo := repo "requests" "psf/requests" 500 30 500.
Definition flask_repo : Repo := repo "flask" "pallets/flask" 800 40 800.


(** an item that Tier 2 rejects: it has no license *)
Definition unlicensed_repo : Repo :=
  mkRepo "httpx" "encode/httpx" (Some "A next generation HTTP client for Python")
    None 500 30 500 12 (Some "Python") [].

(** a clock that converts the time stamps of the years 1970 to 9999 *)
Definition calendar (reset : Z) : option string :=
  if (0 <=? reset) && (reset <? 253402300800)
  then Some ("@" +:+ pretty reset) else None.

(** a service with plenty of quota whose every page is empty; the workers
    of a pool take their steps in turn *)
Definition quiet : Remote :=
  mkRemote
    (fun _ => Answered 200 5000 (Some (mkRate 5000 (Some 0))))
    (fun _ _ _ _ => Answered 200 4999 (mkSearch [] 0))
    (fun _ pages => pages)
    (fun _ => Answered 404 4999 requests_repo)
    (fun _ => Answered 404 4999 [])
    (fun _ => Answered 404 4999 (mkReadmeBody None None None None))
    (fun _ => [EpDetails; EpLanguages; EpReadme])
    (fun futures => futures)
    (fun _ => None)
    (fun _ => true)
    calendar
    (fun _ => []).

(** [quiet] with the search replies replaced *)
Definition serving (pages : string -> string -> Z -> Z -> Reply SearchBody)
    : Remote :=
  mkRemote (rate_limit_reply quiet) pages (search_completion quiet)
    (details_reply quiet) (languages_reply quiet) (readme_reply quiet)
    (endpoint_completion quiet) (enrich_completion quiet)
    (b64decode_utf8 quiet) (writable quiet)
    (fromtimestamp quiet) (enrich_schedule quiet).

(** a fresh process on an empty directory *)
Definition fresh : Fetcher := boot None ∅.

(** a service whose search pages are given by their number and whose
    batches complete last page first *)
Definition paged (page_reply : Z -> Reply SearchBody) : Remote :=
  mkRemote (rate_limit_reply quiet) (fun _ _ _ page => page_reply page)
    (fun _ pages => rev pages)
    (details_reply quiet) (languages_reply quiet) (readme_reply quiet)
    (endpoint_completion quiet) (enrich_completion quiet)
    (b64decode_utf8 quiet) (writable quiet)
    (fromtimestamp quiet) (enrich_schedule quiet).

Definition ok (l : list Repo) : Reply SearchBody :=
  Answered 200 4000 (mkSearch l (Z.of_nat (length l))).
Definition status (code : Z) : Reply SearchBody :=
  Answered code 4000 (mkSearch [] 0).

(** two pages of results *)
Definition two_pages : Remote :=
  paged (fun page =>
           if page =? 1 then ok [requests_repo; unlicensed_repo]
           else if page =? 2 then ok [flask_repo]
           else ok []).

(** items on page 1, a server error on page 2, no quota left on page 3 *)
Definition quota_on_third : Remote :=
  paged (fun page =>
           if page =? 1 then ok [requests_repo]
           else if page =? 2 then status 500
           else if page =? 3 then status 403
           else ok [flask_repo]).

(** page 1 holds only a rejected item, page 3 has no quota left *)
Definition barren_before_quota : Remote :=
  paged (fun page =>
           if page =? 1 then ok [unlicensed_repo]
           else if page =? 3 then status 403
           else ok [flask_repo]).

(** page 1 has no quota left, page 2 holds only a rejected item *)
Definition quota_before_barren : Remote :=
  paged (fun page =>
           if page =? 1 then status 403
           else if page =? 2 then ok [unlicensed_repo]
           else ok [flask_repo]).

(** page 2 holds only a rejected item, page 3 has a valid one *)
Definition barren_second : Remote :=
  paged (fun page =>
           if page =? 1 then ok [requests_repo]
           else if page =? 2 then ok [unlicensed_repo]
           else ok [flask_repo]).

(** one valid item on each of the pages 1 to 6, no quota left on page 7 *)
Definition quota_on_seventh : Remote :=
  paged (fun page =>
           if page <=? 5 then ok [requests_repo]
           else if page =? 7 then status 403
           else ok [flask_repo]).

Definition top_query : string := "help-wanted-issues:>5".

(** items seen by the underrated queries: the same repository with more
    and with fewer forks *)
Definition forked_repo : Repo := repo "tool" "acme/tool" 500 30 10.
Definition quiet_repo : Repo := repo "tool" "acme/tool" 500 10 10.

(** [two_pages] on a file system where the state file cannot be written *)
Definition state_locked : Remote :=
  mkRemote (rate_limit_reply two_pages) (search_reply two_pages)
    (search_completion two_pages)
    (details_reply quiet) (languages_reply quiet) (readme_reply quiet)
    (endpoint_completion quiet) (enrich_completion quiet)
    (b64decode_utf8 quiet)
    (fun file => negb (bool_decide (file = state_file)))
    (fromtimestamp quiet) (enrich_schedule quiet).

(** [two_pages] on a file system where nothing can be written *)
Definition read_only : Remote :=
  mkRemote (rate_limit_reply two_pages) (search_reply two_pages)
    (search_completion two_pages)
    (details_reply quiet) (languages_reply quiet) (readme_reply quiet)
    (endpoint_completion quiet) (enrich_completion quiet)
    (b64decode_utf8 quiet) (fun _ => false)
    (fromtimestamp quiet) (enrich_schedule quiet).

(** a service without quota: every sub-fetch is refused with a 403 and
    the quota endpoint reports nothing left *)
Definition exhausted : Remote :=
  mkRemote
    (fun _ => Answered 200 0 (Some (mkRate 0 (Some 0))))
    (search_reply quiet) (search_completion quiet)
    (fun _ => Answered 403 0 requests_repo)
    (fun _ => Answered 403 0 [])
    (fun _ => Answered 403 0 (mkReadmeBody None None None None))
    (fun _ => [EpReadme; EpDetails; EpLanguages])
    (fun futures => futures)
    (fun _ => None)
    (fun _ => true)
    calendar
    (fun _ => []).

(** details and languages are served, the readme is refused *)
Definition readme_refused : Remote :=
  mkRemote
    (rate_limit_reply quiet) (search_reply quiet) (search_completion quiet)
    (fun _ => Answered 200 4000 requests_repo)
    (fun _ => Answered 200 3999 [("Python", 1000)])
    (fun _ => Answered 403 0 (mkReadmeBody None None None None))
    (fun _ => [EpLanguages; EpReadme; EpDetails])
    (fun futures => futures)
    (fun _ => None)
    (fun _ => true)
    calendar
    (fun _ => []).

(** the quota endpoint reports 2 requests left and a reset time that the
    clock cannot convert *)
Definition reset_out_of_range : Remote :=
  mkRemote
    (fun _ => Answered 200 2 (Some (mkRate 2 (Some (10 ^ 18)))))
    (search_reply quiet) (search_completion quiet)
    (details_reply quiet) (languages_reply quiet) (readme_reply quiet)
    (endpoint_completion quiet) (enrich_completion quiet)
    (b64decode_utf8 quiet) (writable quiet)
    (fromtimestamp quiet) (enrich_schedule quiet).

Definition requests_entry : Entry := Aggregate.new_entry "top_starred" requests_repo.
Definition flask_entry : Entry := Aggregate.new_entry "top_starred" flask_repo.

Definition no_metadata : Metadata := mkMetadata 2 false ["top_repos"] 0.

Definition two_entities : list (string * Entry) :=
  [("psf/requests", requests_entry); ("pallets/flask", flask_entry)].


(** a process that is low on cached quota *)
Definition low_quota : Fetcher := mkFetcher None ∅ 3 initial_progress [].

End Samples.

(** ** The collection phase of [main] *)

Module Driver.

Import Search Aggregate Checkpoint Tasks.

(** [save_raw_data]: the data file is written also for an empty map; a
    failed write is not caught. *)
Definition save_raw_data (env : Remote) (f : Fetcher) : Outcome unit * Fetcher :=
  open_write env raw_file (RawJson (metadata_of f) (all_repos f)) f.

Definition topics_plan : list string :=
  ["machine-learning"; "web-development"; "data-science";
   "artificial-intelligence"; "blockchain"; "cybersecurity";
   "mobile-development"; "devops"; "open-source"].

Definition languages_plan : list string :=
  ["Python"; "JavaScript"; "TypeScript"; "Java"; "Go"; "Rust"; "C++"; "Ruby";
   "PHP"; "Swift"].

(** [if not fetcher.fetch_x(...): return], then the rest of the block *)
Definition and_then (r : Outcome bool * Fetcher)
    (rest : Fetcher -> Outcome bool * Fetcher) : Outcome bool * Fetcher :=
  match r with
  | (Ret true, f) => rest f
  | (Ret false, f) => (Ret false, f)
  | (Exn e, f) => (Exn e, f)
  end.

(** [fetcher.progress_state['phase'] = 'enrichment'] *)
Definition enter_enrichment (f : Fetcher) : Fetcher :=
  let ps := progress_state f in
  with_progress
    (mkProgress "enrichment" (completed_tasks ps) (enrichment_progress ps)
       (enriched_repos ps) (filtered_count ps))
    f.

(** The block of [main] under [if current_phase == 'raw_data']: [Ret true]
    when the block runs to its end, [Ret false] when [main] returns from
    inside it. *)
Definition collection_phase (env : Remote) (f : Fetcher)
    : Outcome bool * Fetcher :=
  and_then (fetch_top_repos env 10000 f) (fun f =>
  and_then (fetch_gsoc_repos env 500 f) (fun f =>
  and_then (fetch_hacktoberfest_repos env 500 f) (fun f =>
  and_then (fetch_repos_by_topics env topics_plan 500 f) (fun f =>
  and_then (fetch_repos_by_languages env languages_plan 500 f) (fun f =>
  and_then (fetch_good_first_issue_repos env 500 f) (fun f =>
  and_then (fetch_underrated_repos env 500 f) (fun f =>
  match save_raw_data env f with
  | (Exn e, f1) => (Exn e, f1)
  | (Ret _, f1) => (Ret true, save_state env (enter_enrichment f1))
  end))))))).

(** The names of the tasks the block runs. *)
Definition planned_tasks : list string :=
  ["top_repos"; "gsoc_repos"; "hacktoberfest_repos"]
  ++ ((fun t => "topic" +:+ "_" +:+ t) <$> topics_plan)
  ++ ((fun l => "language" +:+ "_" +:+ l) <$> languages_plan)
  ++ ["good_first_issue"; "underrated"].

(** Between [f] and [f'] tasks were only added and the phase was kept. *)
Definition advances (f f' : Fetcher) : Prop :=
  completed_tasks (progress_state f) ⊆ completed_tasks (progress_state f')
  /\ phase (progress_state f') = phase (progress_state f).

End Driver.

(** ** Views used to state properties of the aggregation and the search *)

Module Views.

Import Validator Search Aggregate.

(** how many times [t] occurs in [l] *)
Definition occurrences (t : string) (l : list string) : nat :=
  length (filter (fun x => x = t) l).

(** The tags that are appended after a membership test occur at most once,
    and the topic and language lists have no duplicate. *)
Definition tidy (e : Entry) : Prop :=
  (forall fa, dedups fa = true -> (occurrences (tag fa) (source e) <= 1)%nat)
  /\ NoDup (default [] (topics e))
  /\ NoDup (default [] (languages e)).

(** What the task [fa] leaves on an entry besides its tag. *)
Definition facet_set (fa : Facet) (e : Entry) : Prop :=
  match fa with
  | Gsoc => is_gsoc e = Some true
  | Hacktoberfest => is_hacktoberfest e = Some true
  | GoodFirstIssue => has_good_first_issues e = Some true
  | Topic t => exists ts, topics e = Some ts /\ t ∈ ts
  | Language l => exists ls, languages e = Some ls /\ l ∈ ls
  | TopStarred | Underrated => True
  end.

(** the item passes Tier 2 *)
Definition legitimate (it : Repo) : Prop :=
  is_valid it = Some true.

(** the exception of the first item on which the validator raises *)
Definition first_raise (its : list Repo) : option string :=
  head (omap (fun it => match is_legitimate_project it with
                        | Exn e => Some e
                        | Ret _ => None
                        end) its).

(** [w] occurs in [t] as a whole word: neither the character before the
    occurrence nor the one after it is a word character. *)
Definition occurs_as_word (w t : list ascii) : Prop :=
  exists pre post,
    t = pre ++ w ++ post
    /\ Re.word_opt (last pre) = false /\ Re.word_opt (head post) = false.

(** the words of [tutorial_patterns] *)
Definition tutorial_words : list string :=
  ["tutorial"; "example"; "demo"; "sample"; "boilerplate"; "template";
   "starter"; "learning"; "course"; "workshop"; "practice"; "exercise"].

#[global] Instance legitimate_dec it : Decision (legitimate it).
Proof. unfold legitimate. apply _. Defined.

End Views.

(** ** More services and fetchers for the examples *)

Module MoreSamples.

Import Checkpoint Samples.

(** [two_pages] with the quota endpoint reporting nothing left *)
Definition two_pages_no_quota : Remote :=
  mkRemote (fun _ => Answered 200 0 (Some (mkRate 0 (Some 0))))
    (search_reply two_pages) (search_completion two_pages)
    (details_reply quiet) (languages_reply quiet) (readme_reply quiet)
    (endpoint_completion quiet) (enrich_completion quiet)
    (b64decode_utf8 quiet) (writable quiet)
    (fromtimestamp quiet) (enrich_schedule quiet).

(** a process that has run the top-repos task *)
Definition after_top : Fetcher :=
  (Tasks.fetch_top_repos two_pages 10000 fresh).2.

(** a process whose state marks every task of the plan *)
Definition all_done : Fetcher :=
  with_progress (mkProgress "raw_data" Driver.planned_tasks 0 [] 0) fresh.

End MoreSamples.

(** * Properties *)

(** ** The true division *)

Module FloatFacts.
Import Float.

Lemma pow2_pos n : 0 < 2 ^ n \/ (n < 0 /\ 2 ^ n = 0).
Proof.
  destruct (Z_lt_le_dec n 0) as [H|H]; [right|left].
  - split; [done|]. by apply Z.pow_neg_r.
  - by apply Z.pow_pos_nonneg.
Qed.











End FloatFacts.

(** ** Tier 2 validator *)

Module ValidatorFacts.

Import Validator Samples.






End ValidatorFacts.

(** ** Quota gate *)

Module QuotaFacts.

Import Quota Checkpoint.

Lemma new_events_emit f e : new_events f (emit e f) = [e].
Proof. unfold new_events, emit; simpl. by rewrite drop_app_length. Qed.

Lemma new_events_refl f : new_events f f = [].
Proof. unfold new_events. by rewrite drop_all. Qed.

Lemma check_rate_limit_events env f :
  new_events f (check_rate_limit env f).2 = [EvRateLimit].
Proof.
  unfold check_rate_limit.
  destruct (rate_limit_reply env _) as [status rem [core|]|msg]; simpl;
    try apply new_events_emit;
    (destruct (status =? 200); simpl; [|apply new_events_emit]);
    [|apply new_events_emit].
  destruct (core_reset core ≫= fromtimestamp env); simpl;
    [destruct (core_remaining core <? 5); simpl|];
    unfold new_events; simpl; by rewrite drop_app_length.
Qed.

(** [check_rate_limit] returns [False] only at the end of the [try]: the
    service answered 200, the body and the reset time were read, and the
    count is below 5. *)
Lemma check_rate_limit_False env f :
  is_False (check_rate_limit env f).1 = true <->
  exists hdr core reset_time,
    rate_limit_reply env (length (log f)) = Answered 200 hdr (Some core)
    /\ core_reset core ≫= fromtimestamp env = Some reset_time
    /\ core_remaining core < 5.
Proof.
  unfold check_rate_limit.
  destruct (rate_limit_reply env _) as [status rem data|msg]; simpl.
  - destruct (status =? 200) eqn:Hs; simpl.
    + apply Z.eqb_eq in Hs; subst status.
      destruct data as [core|]; simpl.
      * destruct (core_reset core ≫= fromtimestamp env) as [t|] eqn:Ht; simpl.
        -- destruct (core_remaining core <? 5) eqn:Hc; simpl.
           ++ apply Z.ltb_lt in Hc. split; [eauto 10|done].
           ++ apply Z.ltb_ge in Hc. split; [done|].
              intros (? & ? & ? & [= <- <-] & ? & ?). lia.
        -- split; [done|].
           intros (? & ? & ? & [= <- <-] & ? & ?). congruence.
      * split; [done|]. intros (? & ? & ? & ? & ?). done.
    + apply Z.eqb_neq in Hs. split; [done|].
      intros (? & ? & ? & [= -> ] & ?). done.
  - split; [done|]. intros (? & ? & ? & ? & ?). done.
Qed.

Lemma check_rate_limit_False_remaining env f :
  is_False (check_rate_limit env f).1 = true ->
  rate_limit_remaining (check_rate_limit env f).2 < 5.
Proof.
  unfold check_rate_limit.
  destruct (rate_limit_reply env _) as [status rem [core|]|msg]; simpl;
    try done; (destruct (status =? 200); simpl; [|done]); [|done].
  destruct (core_reset core ≫= fromtimestamp env); simpl; [|done].
  destruct (core_remaining core <? 5) eqn:Hc; simpl; [|done].
  intros _. by apply Z.ltb_lt in Hc.
Qed.

(** C7 (as amended). The gate asks the service for the remaining quota
    only when the cached count is below 10, and leaves the fetcher as it is
    otherwise.  It answers STOP exactly when it asked, the service answered
    200 with a body whose count could be read and whose reset time could be
    converted, and that count is below 5; the cached count is then that
    refreshed count.  In every other case, a refresh that fails on the way
    included, it answers CONTINUE.  The function is total: no error leaves
    it. *)
Theorem wait_for_rate_limit_gate (env : Remote) (f : Fetcher) :
  let go := (wait_for_rate_limit env f).1 in
  let f' := (wait_for_rate_limit env f).2 in
  new_events f f' = (if decide (rate_limit_remaining f < 10)
                     then [EvRateLimit] else [])
  /\ (10 <= rate_limit_remaining f -> f' = f)
  /\ (go = false <->
      rate_limit_remaining f < 10
      /\ exists hdr core reset_time,
           rate_limit_reply env (length (log f)) = Answered 200 hdr (Some core)
           /\ core_reset core ≫= fromtimestamp env = Some reset_time
           /\ core_remaining core < 5)
  /\ (go = false -> rate_limit_remaining f' < 5).
Proof.
  unfold wait_for_rate_limit.
  destruct (rate_limit_remaining f <? 10) eqn:Hlow.
  - apply Z.ltb_lt in Hlow. rewrite decide_True by done.
    pose proof (check_rate_limit_events env f) as Hev.
    pose proof (check_rate_limit_False env f) as HF.
    pose proof (check_rate_limit_False_remaining env f) as HR.
    destruct (check_rate_limit env f) as [result f1] eqn:Hck; simpl in *.
    destruct (is_False result) eqn:Hres; simpl.
    + split; [done|]. split; [lia|]. split; [tauto|]. intros _. by apply HR.
    + split; [done|]. split; [lia|]. split; [|done].
      split; [done|]. intros [_ H]. apply HF in H. done.
  - apply Z.ltb_ge in Hlow. rewrite decide_False by lia. simpl.
    rewrite new_events_refl. split; [done|]. split; [done|]. split; [|done].
    split; [done|]. intros [H _]. lia.
Qed.

(** C7 does not hold as stated: the gate refreshes the cached count from 3
    to 2, below the floor of 5, and answers CONTINUE, because the reset time
    of the reply cannot be converted and the check ends in its [except]. *)
Lemma refreshed_below_floor_continues :
  rate_limit_remaining Samples.low_quota = 3
  /\ rate_limit_reply Samples.reset_out_of_range 0
     = Answered 200 2 (Some (mkRate 2 (Some (10 ^ 18))))
  /\ fromtimestamp Samples.reset_out_of_range (10 ^ 18) = None
  /\ wait_for_rate_limit Samples.reset_out_of_range Samples.low_quota
     = (true, emit EvRateLimit (with_remaining 2 Samples.low_quota)).
Proof. vm_compute. done. Qed.

End QuotaFacts.

(** ** Bookkeeping: what a call adds to the log and what it leaves alone *)

Module LogFacts.

Import Quota Search Checkpoint.

Lemma extends_by_refl f : extends_by f f [].
Proof. unfold extends_by. by rewrite app_nil_r. Qed.

Lemma extends_by_trans f1 f2 f3 e1 e2 :
  extends_by f1 f2 e1 -> extends_by f2 f3 e2 -> extends_by f1 f3 (e1 ++ e2).
Proof. unfold extends_by. intros H1 H2. by rewrite H2, H1, app_assoc. Qed.

Lemma extends_by_new_events f f' evs :
  extends_by f f' evs -> new_events f f' = evs.
Proof. unfold extends_by, new_events. intros ->. apply drop_app_length. Qed.

Lemma extends_by_emit f e : extends_by f (emit e f) [e].
Proof. done. Qed.

Lemma same_store_refl f : same_store f f.
Proof. done. Qed.

Lemma same_store_trans f1 f2 f3 :
  same_store f1 f2 -> same_store f2 f3 -> same_store f1 f3.
Proof. unfold same_store. intros (?&?&?) (?&?&?). repeat split; congruence. Qed.

Lemma wait_extends env f :
  extends_by f (wait_for_rate_limit env f).2
    (if decide (rate_limit_remaining f < 10) then [EvRateLimit] else []).
Proof.
  unfold wait_for_rate_limit, check_rate_limit.
  destruct (rate_limit_remaining f <? 10) eqn:Hlow.
  - apply Z.ltb_lt in Hlow. rewrite decide_True by done.
    destruct (rate_limit_reply env _) as [status rem [core|]|msg]; simpl;
      try done; (destruct (status =? 200); simpl; [|done]); [|done].
    destruct (core_reset core ≫= fromtimestamp env); simpl; [|done].
    by destruct (core_remaining core <? 5).
  - apply Z.ltb_ge in Hlow. rewrite decide_False by lia.
    apply extends_by_refl.
Qed.

Lemma wait_same_store env f : same_store f (wait_for_rate_limit env f).2.
Proof.
  unfold wait_for_rate_limit, check_rate_limit.
  destruct (rate_limit_remaining f <? 10); [|done].
  destruct (rate_limit_reply env _) as [status rem [core|]|msg]; simpl;
    try done; (destruct (status =? 200); simpl; [|done]); [|done].
  destruct (core_reset core ≫= fromtimestamp env); simpl; [|done].
  by destruct (core_remaining core <? 5).
Qed.

Lemma wait_progress env f :
  progress_state (wait_for_rate_limit env f).2 = progress_state f.
Proof.
  unfold wait_for_rate_limit, check_rate_limit.
  destruct (rate_limit_remaining f <? 10); [|done].
  destruct (rate_limit_reply env _) as [status rem [core|]|msg]; simpl;
    try done; (destruct (status =? 200); simpl; [|done]); [|done].
  destruct (core_reset core ≫= fromtimestamp env); simpl; [|done].
  by destruct (core_remaining core <? 5).
Qed.

Lemma fetch_page_extends env q page pp sort f :
  extends_by f (fetch_page env q page pp sort f).2 [EvSearch q sort pp page].
Proof.
  unfold fetch_page.
  destruct (search_reply env q sort pp page) as [status rem data|msg]; [|done].
  destruct (status =? 200); [by destruct (tier2 _ _ _) as [[??]|?]|].
  by destruct (status =? 403).
Qed.

Lemma fetch_page_progress env q page pp sort f :
  progress_state (fetch_page env q page pp sort f).2 = progress_state f
  /\ same_store f (fetch_page env q page pp sort f).2.
Proof.
  unfold fetch_page.
  destruct (search_reply env q sort pp page) as [status rem data|msg]; [|done].
  destruct (status =? 200); [by destruct (tier2 _ _ _) as [[??]|?]|].
  by destruct (status =? 403).
Qed.

(** The dict does not depend on the fetcher that issues the request. *)
Lemma fetch_page_result env q page sort f :
  (fetch_page env q page per_page sort f).1 = page_result env q sort page.
Proof.
  unfold page_result, fetch_page.
  destruct (search_reply env q sort per_page page) as [status rem data|msg];
    [|done].
  destruct (status =? 200); [by destruct (tier2 _ _ _) as [[??]|?]|].
  by destruct (status =? 403).
Qed.

Lemma page_result_page env q sort page :
  result_page (page_result env q sort page) = page.
Proof.
  unfold page_result, fetch_page.
  destruct (search_reply env q sort per_page page) as [status rem data|msg];
    [|done].
  destruct (status =? 200); [by destruct (tier2 _ _ _) as [[??]|?]|].
  by destruct (status =? 403).
Qed.

Lemma fetch_batch_spec env q sort completed f :
  (fetch_batch env q sort per_page completed f).1
    = page_result env q sort <$> completed
  /\ extends_by f (fetch_batch env q sort per_page completed f).2
       (EvSearch q sort per_page <$> completed)
  /\ progress_state (fetch_batch env q sort per_page completed f).2
       = progress_state f
  /\ same_store f (fetch_batch env q sort per_page completed f).2.
Proof.
  revert f. induction completed as [|page rest IH]; intros f; simpl.
  { split; [done|]. split; [apply extends_by_refl|done]. }
  pose proof (fetch_page_result env q page sort f) as Hres.
  pose proof (fetch_page_extends env q page per_page sort f) as Hext.
  pose proof (fetch_page_progress env q page per_page sort f) as [Hps Hst].
  destruct (fetch_page env q page per_page sort f) as [result f1]; simpl in *.
  specialize (IH f1) as (IH1 & IH2 & IH3 & IH4).
  destruct (fetch_batch env q sort per_page rest f1) as [results f2];
    simpl in *.
  subst result results. split; [done|].
  split; [apply (extends_by_trans _ _ _ _ _ Hext IH2)|].
  split; [congruence|]. by eapply same_store_trans.
Qed.

Lemma requested_pages_search q sort pp (pages : list Z) :
  requested_pages (EvSearch q sort pp <$> pages) = pages.
Proof. induction pages as [|p l IH]; simpl; [done|]. by f_equal. Qed.

Lemma requested_pages_app e1 e2 :
  requested_pages (e1 ++ e2) = requested_pages e1 ++ requested_pages e2.
Proof. apply omap_app. Qed.

Lemma writes_search q sort pp (pages : list Z) :
  writes (EvSearch q sort pp <$> pages) = [].
Proof. by induction pages. Qed.

Lemma writes_app e1 e2 : writes (e1 ++ e2) = writes e1 ++ writes e2.
Proof. apply filter_app. Qed.

(** Sorting the results of a batch puts them back in page order. *)
Lemma insert_by_page_perm r l : insert_by_page r l ≡ₚ r :: l.
Proof.
  induction l as [|x l IH]; simpl; [done|].
  destruct (result_page r <? result_page x); [done|].
  rewrite IH. apply Permutation_swap.
Qed.

Lemma insert_by_page_sorted r l :
  StronglySorted by_page l -> StronglySorted by_page (insert_by_page r l).
Proof.
  induction 1 as [|x l Hl IH Hx]; simpl; [repeat constructor|].
  destruct (result_page r <? result_page x) eqn:E.
  - apply Z.ltb_lt in E. constructor; [by constructor|].
    constructor; [unfold by_page; lia|].
    eapply Forall_impl; [exact Hx|]. unfold by_page. simpl. lia.
  - apply Z.ltb_ge in E. constructor; [done|].
    rewrite insert_by_page_perm. constructor; [done|done].
Qed.

Lemma sort_by_page_acc acc l :
  StronglySorted by_page acc ->
  foldl (fun acc r => insert_by_page r acc) acc l ≡ₚ acc ++ l
  /\ StronglySorted by_page (foldl (fun acc r => insert_by_page r acc) acc l).
Proof.
  revert acc. induction l as [|r l IH]; intros acc Hacc; simpl.
  { by rewrite app_nil_r. }
  destruct (IH (insert_by_page r acc)) as [IH1 IH2];
    [by apply insert_by_page_sorted|].
  split; [|done]. rewrite IH1, insert_by_page_perm. simpl.
  apply Permutation_middle.
Qed.

Lemma seqZ_sorted m n : StronglySorted Z.le (seqZ m n).
Proof.
  remember (Z.to_nat n) as k eqn:Hk. revert m n Hk.
  induction k as [|k IH]; intros m n Hk.
  - rewrite seqZ_nil by lia. constructor.
  - rewrite seqZ_cons by lia. constructor; [apply IH; lia|].
    apply Forall_seqZ. lia.
Qed.

Lemma sort_by_page_results (g : Z -> PageResult) completed pages :
  (forall p, result_page (g p) = p) ->
  completed ≡ₚ pages -> StronglySorted Z.le pages ->
  sort_by_page (g <$> completed) = g <$> pages.
Proof.
  intros Hg Hperm Hsorted.
  destruct (sort_by_page_acc [] (g <$> completed)) as [Hp Hs];
    [constructor|]. simpl in Hp.
  apply (StronglySorted_unique_strong by_page); [|done| |].
  - intros x1 x2 H1 H2 H12 H21.
    rewrite Hp, Hperm in H1.
    apply list_elem_of_fmap in H1 as (p1 & -> & _).
    apply list_elem_of_fmap in H2 as (p2 & -> & _).
    unfold by_page in *. rewrite !Hg in *. f_equal. lia.
  - clear Hperm. induction Hsorted as [|p l Hl IH Hx]; simpl; constructor;
      [done|].
    rewrite Forall_fmap. eapply Forall_impl; [exact Hx|].
    intros y Hy. unfold by_page. simpl. by rewrite !Hg.
  - unfold sort_by_page. by rewrite Hp, Hperm.
Qed.

End LogFacts.

(** ** Paginated search *)

Module SearchFacts.

Import Quota Search Checkpoint LogFacts.

Lemma batch_pages_sorted max_results b :
  StronglySorted Z.le (batch_pages max_results b).
Proof. apply seqZ_sorted. Qed.

Lemma batch_pages_length max_results b :
  (length (batch_pages max_results b) <= 5)%nat.
Proof.
  unfold batch_pages, range, batch_size. rewrite length_seqZ. lia.
Qed.

Lemma batch_pages_bounds max_results b p :
  0 <= b -> p ∈ batch_pages max_results b -> 1 <= p <= 10.
Proof.
  unfold batch_pages, range, batch_size, max_pages.
  intros Hb Hp. apply elem_of_seqZ in Hp. lia.
Qed.

Lemma batch_starts_length max_results :
  (length (batch_starts max_results) <= 2)%nat.
Proof.
  unfold batch_starts, range_step, batch_size, max_pages.
  rewrite length_fmap, length_seqZ.
  generalize ((max_results + per_page - 1) / per_page). intros m.
  assert ((Z.min m 10 - 0 + 5 - 1) / 5 < 3); [|lia].
  apply Z.div_lt_upper_bound; lia.
Qed.

Lemma batch_starts_nonneg max_results :
  Forall (fun b => 0 <= b) (batch_starts max_results).
Proof.
  unfold batch_starts, range_step, batch_size.
  rewrite Forall_fmap. apply Forall_seqZ. intros i Hi. simpl. lia.
Qed.

Lemma batch_starts_negative max_results :
  max_results <= 0 -> batch_starts max_results = [].
Proof.
  intros Hneg. unfold batch_starts, range_step, batch_size, max_pages, per_page.
  assert ((max_results + 100 - 1) / 100 <= 0).
  { assert ((max_results + 100 - 1) / 100 < 1); [|lia].
    apply Z.div_lt_upper_bound; lia. }
  rewrite seqZ_nil; [done|].
  assert ((Z.min ((max_results + 100 - 1) / 100) 10 - 0 + 5 - 1) / 5 < 1);
    [|lia].
  apply Z.div_lt_upper_bound; lia.
Qed.

Lemma slice_to_nil {A} n : slice_to (@nil A) n = [].
Proof. unfold slice_to. destruct (0 <=? n); by rewrite take_nil. Qed.

Lemma slice_to_length {A} (l : list A) n :
  0 <= n -> Z.of_nat (length (slice_to l n)) <= n.
Proof.
  intros Hn. unfold slice_to. rewrite (proj2 (Z.leb_le 0 n)) by done.
  rewrite length_take. lia.
Qed.

(** One turn of the batch loop, with the sorted results written as the
    results of the pages of the batch in page order. *)
Lemma search_batches_cons env fq sort max_results b rest repos total f :
  completes_each_once env ->
  search_batches env fq sort max_results (b :: rest) repos total f =
    let w := wait_for_rate_limit env f in
    if negb w.1 then (None, w.2)
    else
      let f2 := (fetch_batch env fq sort per_page
                   (search_completion env fq (batch_pages max_results b))
                   w.2).2 in
      match process_results max_results
              (page_result env fq sort <$> batch_pages max_results b)
              repos total with
      | Return r => (r, f2)
      | Continue (repos', total') =>
          if Z.of_nat (length repos') >=? max_results
          then finish max_results repos' total' f2
          else search_batches env fq sort max_results rest repos' total' f2
      end.
Proof.
  intros Hfair. simpl.
  destruct (wait_for_rate_limit env f) as [go f1]; simpl.
  destruct go; simpl; [|done].
  pose proof (fetch_batch_spec env fq sort
                (search_completion env fq (batch_pages max_results b)) f1)
    as (Hres & _).
  destruct (fetch_batch _ _ _ _ _ f1) as [results f2]; simpl in *.
  rewrite Hres.
  rewrite (sort_by_page_results _ _ (batch_pages max_results b));
    [done|apply page_result_page|apply Hfair|apply batch_pages_sorted].
Qed.

Lemma finish_spec max_results repos total f :
  extends_by f (finish max_results repos total f).2 []
  /\ same_store f (finish max_results repos total f).2
  /\ (finish max_results repos total f).1 = Some (slice_to repos max_results).
Proof.
  split; [unfold extends_by; simpl; by rewrite app_nil_r|done].
Qed.

(** What a run of the batch loop adds to the log. *)
Lemma search_batches_events env fq sort max_results starts :
  forall repos total f,
  let f' := (search_batches env fq sort max_results starts repos total f).2 in
  exists evs,
    extends_by f f' evs /\ writes evs = [] /\ same_store f f'
    /\ (completes_each_once env -> Forall (fun b => 0 <= b) starts ->
        (length (requested_pages evs) <= 5 * length starts)%nat
        /\ Forall (fun p => 1 <= p <= 10) (requested_pages evs)).
Proof.
  induction starts as [|b rest IH]; intros repos total f; simpl.
  { destruct (finish_spec max_results repos total f) as (H1 & H2 & _).
    exists []. split; [done|]. split; [done|].
    split; [done|]. intros _ _. split; [simpl; lia|constructor]. }
  pose proof (wait_extends env f) as Hw.
  pose proof (wait_same_store env f) as Hws.
  destruct (wait_for_rate_limit env f) as [go f1]; simpl in *.
  set (gate := if decide (rate_limit_remaining f < 10)
               then [EvRateLimit] else []) in *.
  assert (writes gate = [] /\ requested_pages gate = []) as [Hgw Hgp].
  { unfold gate. by destruct (decide _). }
  destruct go; simpl.
  2:{ exists gate. split; [done|]. split; [done|]. split; [done|].
      intros _ _. rewrite Hgp. split; [simpl; lia|constructor]. }
  set (completed := search_completion env fq (batch_pages max_results b)).
  pose proof (fetch_batch_spec env fq sort completed f1) as (_ & Hb & _ & Hbs).
  destruct (fetch_batch env fq sort per_page completed f1) as [results f2];
    simpl in *.
  set (reqs := EvSearch fq sort per_page <$> completed) in *.
  assert (extends_by f f2 (gate ++ reqs)) as Hf2
    by (by eapply extends_by_trans).
  assert (same_store f f2) as Hs2 by (by eapply same_store_trans).
  assert (writes (gate ++ reqs) = []) as Hw2.
  { rewrite writes_app, Hgw. apply writes_search. }
  assert (completes_each_once env -> 0 <= b ->
          (length (requested_pages (gate ++ reqs)) <= 5)%nat
          /\ Forall (fun p => 1 <= p <= 10) (requested_pages (gate ++ reqs)))
    as Hpages.
  { intros Hfair Hb0. rewrite requested_pages_app, Hgp. simpl.
    unfold reqs. rewrite requested_pages_search. unfold completed.
    rewrite (Hfair fq (batch_pages max_results b)).
    split; [apply batch_pages_length|].
    apply Forall_forall. intros p Hp. by eapply batch_pages_bounds. }
  assert (forall r, exists evs,
            extends_by f (r, f2).2 evs /\ writes evs = []
            /\ same_store f (r : option (list Repo), f2).2
            /\ (completes_each_once env -> Forall (fun b => 0 <= b) (b :: rest) ->
                (length (requested_pages evs) <= 5 * S (length rest))%nat
                /\ Forall (fun p => 1 <= p <= 10) (requested_pages evs)))
    as Hstop.
  { intros r. exists (gate ++ reqs). split; [done|]. split; [done|].
    split; [done|]. intros Hfair Hall. apply Forall_cons in Hall as [Hb0 _].
    destruct (Hpages Hfair Hb0). split; [lia|done]. }
  destruct (process_results _ _ _ _) as [[repos' total']|r];
    [|apply (Hstop r)].
  destruct (Z.of_nat (length repos') >=? max_results).
  { destruct (finish_spec max_results repos' total' f2) as (H1 & H2 & _).
    exists ((gate ++ reqs) ++ []).
    split; [by eapply extends_by_trans|].
    split; [by rewrite app_nil_r|].
    split; [by eapply same_store_trans|].
    intros Hfair Hall. apply Forall_cons in Hall as [Hb0 _].
    rewrite app_nil_r. destruct (Hpages Hfair Hb0). split; [lia|done]. }
  destruct (IH repos' total' f2) as (evs & He & Hwr & Hst & Hp).
  exists ((gate ++ reqs) ++ evs).
  split; [by eapply extends_by_trans|].
  split; [by rewrite writes_app, Hw2, Hwr|].
  split; [by eapply same_store_trans|].
  intros Hfair Hall. apply Forall_cons in Hall as [Hb0 Hrest].
  destruct (Hpages Hfair Hb0) as [Hl1 Hf1].
  destruct (Hp Hfair Hrest) as [Hl2 Hf2'].
  rewrite requested_pages_app, length_app. split; [lia|].
  by apply Forall_app.
Qed.

Lemma search_batches_result env fq sort max_results starts :
  forall repos total f l,
  (search_batches env fq sort max_results starts repos total f).1 = Some l ->
  exists collected, l = slice_to collected max_results.
Proof.
  induction starts as [|b rest IH]; intros repos total f l; simpl.
  { intros [= <-]. eauto. }
  destruct (wait_for_rate_limit env f) as [go f1]; simpl.
  destruct go; simpl; [|done].
  destruct (fetch_batch _ _ _ _ _ f1) as [results f2].
  generalize (sort_by_page results). intros sorted.
  assert (forall rs repos0 total0 r,
            process_results max_results rs repos0 total0 = Return r ->
            r = None \/ exists collected, r = Some (slice_to collected max_results))
    as Hret.
  { induction rs as [|x rs IHrs]; intros repos0 total0 r; simpl; [done|].
    destruct x as [pg page_repos fo ti tc|pg err].
    - destruct page_repos; [intros [= <-]; eauto|apply IHrs].
    - destruct (bool_decide _); [intros [= <-]; eauto|apply IHrs]. }
  destruct (process_results max_results sorted repos total)
    as [[repos' total']|r] eqn:Hpr.
  - destruct (Z.of_nat (length repos') >=? max_results).
    + intros [= <-]. eauto.
    + apply IH.
  - simpl. intros ->. apply Hret in Hpr as [?|[c [= ->]]]; [done|eauto].
Qed.

(** C5. For every [max_results], [search_repos] returns (it is a total
    function), requests at most 10 pages, all numbered from 1 to 10, and a
    returned list is the collected list cut to [max_results]: it has at
    most [max_results] items (none when [max_results] is negative). *)
Theorem search_repos_bounded (env : Remote) (query : string)
    (max_results : Z) (sort : string) (f : Fetcher) :
  completes_each_once env ->
  let r := search_repos env query max_results sort f in
  let pages := requested_pages (new_events f r.2) in
  (length pages <= 10)%nat
  /\ Forall (fun p => 1 <= p <= 10) pages
  /\ forall l, r.1 = Some l ->
       (exists collected, l = slice_to collected max_results)
       /\ Z.of_nat (length l) <= Z.max 0 max_results.
Proof.
  intros Hfair r pages. subst r pages. unfold search_repos.
  destruct (search_batches_events env (build_tier1_query query) sort
              max_results (batch_starts max_results) [] 0%nat f)
    as (evs & Hext & _ & _ & Hp).
  rewrite (extends_by_new_events _ _ _ Hext).
  destruct (Hp Hfair (batch_starts_nonneg max_results)) as [Hlen Hall].
  pose proof (batch_starts_length max_results).
  split; [lia|]. split; [done|].
  intros l Hl. split; [by eapply search_batches_result|].
  destruct (decide (0 <= max_results)) as [Hpos|Hneg].
  - apply search_batches_result in Hl as [c ->].
    pose proof (slice_to_length c max_results Hpos). lia.
  - rewrite batch_starts_negative in Hl by lia. simpl in Hl.
    injection Hl as <-. rewrite slice_to_nil. simpl. lia.
Qed.

End SearchFacts.

(** ** Exhausted and barren pages inside a batch *)

Module BatchFacts.

Import Validator Quota Search Checkpoint Aggregate Tasks LogFacts SearchFacts.

Lemma loop_at_search env query sort max_results f0 starts repos total f :
  LoopAt env query sort max_results f0 starts repos total f ->
  search_repos env query max_results sort f0
  = search_batches env (build_tier1_query query) sort max_results
      starts repos total f.
Proof.
  induction 1 as [|b rest repos total f f1 results f2 repos' total'
                    _ IH Hgate Hfetch Hproc Hlen]; [done|].
  rewrite IH. simpl. rewrite Hgate. simpl. rewrite Hfetch, Hproc.
  rewrite Z.geb_leb. by rewrite (proj2 (Z.leb_gt _ _)) by lia.
Qed.

Lemma process_results_quota max_results pre r post repos total :
  Forall (fun x => is_barren x = false) pre -> is_quota r = true ->
  process_results max_results (pre ++ r :: post) repos total = Return None.
Proof.
  intros Hpre Hr. revert repos total.
  induction Hpre as [|x pre Hx _ IH]; intros repos total; simpl.
  - destruct r as [|pg err]; [done|]. simpl in Hr. by rewrite Hr.
  - destruct x as [pg [|it its] fo ti tc|pg err]; [done|apply IH|].
    destruct (bool_decide _); [done|apply IH].
Qed.

Lemma process_results_barren max_results pre r post repos total :
  Forall (fun x => is_barren x = false /\ is_quota x = false) pre ->
  is_barren r = true ->
  process_results max_results (pre ++ r :: post) repos total
  = Return (Some (slice_to (repos ++ flat_map page_repos pre) max_results)).
Proof.
  intros Hpre Hr. revert repos total.
  induction Hpre as [|x pre [Hx1 Hx2] _ IH]; intros repos total; simpl.
  - rewrite app_nil_r. by destruct r as [pg [|it its] fo ti tc|pg err].
  - destruct x as [pg [|it its] fo ti tc|pg err]; [done| |].
    + rewrite IH. simpl. by rewrite <- app_assoc.
    + simpl in Hx2. rewrite Hx2. apply IH.
Qed.

Lemma tier2_rejects_all its valid fo :
  Forall (fun it => is_valid it = Some false) its ->
  exists fo', tier2 its valid fo = Ret (valid, fo').
Proof.
  intros H. revert fo. induction H as [|it its Hit _ IH]; intros fo; simpl;
    [by eexists|].
  unfold is_valid in Hit.
  destruct (is_legitimate_project it) as [[v why]|]; [|done].
  injection Hit as ->. apply IH.
Qed.

(** A 200 page whose items all fail Tier 2 is a barren page. *)
Lemma all_rejected_barren env fq sort p hdr data :
  search_reply env fq sort per_page p = Answered 200 hdr data ->
  Forall (fun it => is_valid it = Some false) (items data) ->
  is_barren (page_result env fq sort p) = true.
Proof.
  intros Hrep Hall. unfold page_result, fetch_page. rewrite Hrep. simpl.
  destruct (tier2_rejects_all (items data) [] 0%nat Hall) as [fo ->]. done.
Qed.

Lemma fmap_flat_map_page env fq sort (pre : list Z) :
  flat_map page_repos (page_result env fq sort <$> pre)
  = flat_map (fun p => page_repos (page_result env fq sort p)) pre.
Proof. induction pre as [|p pre IH]; simpl; [done|]. by f_equal. Qed.

(** What the batch loop returns when the results of a batch make it leave. *)
Lemma batch_returns env fq sort max_results b rest repos total f r :
  completes_each_once env ->
  (wait_for_rate_limit env f).1 = true ->
  process_results max_results
    (page_result env fq sort <$> batch_pages max_results b) repos total
    = Return r ->
  (search_batches env fq sort max_results (b :: rest) repos total f).1 = r.
Proof.
  intros Hfair Hgate Hproc. rewrite search_batches_cons by done.
  simpl. rewrite Hgate. simpl. by rewrite Hproc.
Qed.

Lemma fetch_top_repos_quota env limit f :
  is_task_complete "top_repos" f = false ->
  (search_repos env "help-wanted-issues:>5" limit "stars" f).1 = None ->
  fetch_top_repos env limit f
  = (Ret false, (search_repos env "help-wanted-issues:>5" limit "stars" f).2).
Proof.
  intros Hc Hn. unfold fetch_top_repos. rewrite Hc.
  destruct (search_repos _ _ _ _ _) as [[l|] f1]; [done|done].
Qed.

Lemma search_repos_frame env query max_results sort f :
  same_store f (search_repos env query max_results sort f).2
  /\ writes (new_events f (search_repos env query max_results sort f).2) = [].
Proof.
  unfold search_repos.
  destruct (search_batches_events env (build_tier1_query query) sort
              max_results (batch_starts max_results) [] 0%nat f)
    as (evs & Hext & Hw & Hs & _).
  by rewrite (extends_by_new_events _ _ _ Hext).
Qed.

(** C2 (as amended). In a batch that the loop of [search_repos] starts,
    if a page reports quota exhaustion and no lower-numbered page of the
    batch is a success without valid item, [search_repos] returns [None]:
    the items fetched by the other pages are not returned, nothing is
    merged or written, and [fetch_top_repos] returns [False] without
    marking its task complete. *)
Theorem quota_page_aborts_query (env : Remote) (query sort : string)
    (max_results : Z) (f0 : Fetcher) (b : Z) (rest : list Z)
    (repos : list Repo) (total : nat) (f : Fetcher) (pre : list Z) (p : Z)
    (post : list Z) :
  completes_each_once env ->
  LoopAt env query sort max_results f0 (b :: rest) repos total f ->
  (wait_for_rate_limit env f).1 = true ->
  batch_pages max_results b = pre ++ p :: post ->
  is_quota (page_result env (build_tier1_query query) sort p) = true ->
  Forall (fun p' => is_barren (page_result env (build_tier1_query query)
                                 sort p') = false) pre ->
  let r := search_repos env query max_results sort f0 in
  r.1 = None /\ same_store f0 r.2 /\ writes (new_events f0 r.2) = []
  /\ (query = "help-wanted-issues:>5" -> sort = "stars" ->
      is_task_complete "top_repos" f0 = false ->
      let t := fetch_top_repos env max_results f0 in
      t.1 = Ret false /\ same_store f0 t.2 /\ writes (new_events f0 t.2) = []).
Proof.
  intros Hfair Hloop Hgate Hsplit Hq Hpre r. subst r.
  assert ((search_repos env query max_results sort f0).1 = None) as Hnone.
  { rewrite (loop_at_search _ _ _ _ _ _ _ _ _ Hloop).
    apply batch_returns; [done|done|]. rewrite Hsplit, fmap_app, fmap_cons.
    apply process_results_quota; [|done]. by rewrite Forall_fmap. }
  destruct (search_repos_frame env query max_results sort f0) as [Hs Hw].
  split; [done|]. split; [done|]. split; [done|].
  intros -> -> Hc t. subst t.
  rewrite fetch_top_repos_quota by done. done.
Qed.

(** C10 (as amended). In a batch that the loop of [search_repos] starts,
    if a page answers 200 and every raw item of it fails
    [is_legitimate_project], and no lower-numbered page of the batch
    reports quota exhaustion or is itself without valid item, the query
    ends there: [search_repos] returns the items collected before that
    page, cut to [max_results], whatever the later pages hold. *)
Theorem barren_page_ends_query (env : Remote) (query sort : string)
    (max_results : Z) (f0 : Fetcher) (b : Z) (rest : list Z)
    (repos : list Repo) (total : nat) (f : Fetcher) (pre : list Z) (p : Z)
    (post : list Z) (hdr : Z) (data : SearchBody) :
  completes_each_once env ->
  LoopAt env query sort max_results f0 (b :: rest) repos total f ->
  (wait_for_rate_limit env f).1 = true ->
  batch_pages max_results b = pre ++ p :: post ->
  search_reply env (build_tier1_query query) sort per_page p
    = Answered 200 hdr data ->
  Forall (fun it => is_valid it = Some false) (items data) ->
  Forall (fun p' =>
            is_barren (page_result env (build_tier1_query query) sort p') = false
            /\ is_quota (page_result env (build_tier1_query query) sort p')
               = false) pre ->
  (search_repos env query max_results sort f0).1
  = Some (slice_to
            (repos ++ flat_map (fun p' => page_repos
                                  (page_result env (build_tier1_query query)
                                     sort p')) pre)
            max_results).
Proof.
  intros Hfair Hloop Hgate Hsplit Hrep Hall Hpre.
  rewrite (loop_at_search _ _ _ _ _ _ _ _ _ Hloop).
  apply batch_returns; [done|done|]. rewrite Hsplit, fmap_app, fmap_cons.
  rewrite <- fmap_flat_map_page.
  apply process_results_barren; [by rewrite Forall_fmap|].
  by eapply all_rejected_barren.
Qed.

End BatchFacts.

Module BatchExamples.

Import Validator Quota Search Checkpoint Aggregate Tasks Samples.
Import LogFacts SearchFacts BatchFacts.

Lemma paged_completes_each_once page_reply :
  completes_each_once (paged page_reply).
Proof. intros query pages. simpl. symmetry. apply Permutation_rev. Defined.

Example search_one_result :
  (search_repos two_pages "topic:x" 1 "stars" fresh).1 = Some [requests_repo].
Proof. vm_compute. reflexivity. Qed.

Example search_many_results :
  (search_repos two_pages "topic:x" 50000 "stars" fresh).1
  = Some [requests_repo; flask_repo]
  /\ requested_pages
       (new_events fresh (search_repos two_pages "topic:x" 50000 "stars" fresh).2)
     = [5; 4; 3; 2; 1].
Proof. vm_compute. done. Qed.

Lemma search_repos_bounded_witness :
  completes_each_once two_pages
  /\ (length (requested_pages
                (new_events fresh
                   (search_repos two_pages "topic:x" 1 "stars" fresh).2))
      <= 10)%nat
  /\ (length (requested_pages
                (new_events fresh
                   (search_repos two_pages "topic:x" 50000 "stars" fresh).2))
      <= 10)%nat.
Proof.
  split; [apply paged_completes_each_once|]. split.
  - exact (proj1 (search_repos_bounded two_pages "topic:x" 1 "stars" fresh
                    (paged_completes_each_once _))).
  - exact (proj1 (search_repos_bounded two_pages "topic:x" 50000 "stars" fresh
                    (paged_completes_each_once _))).
Defined.

Lemma quota_page_aborts_query_witness :
  (search_repos quota_on_third top_query 10000 "stars" fresh).1 = None
  /\ (fetch_top_repos quota_on_third 10000 fresh).1 = Ret false
  /\ completed_tasks (progress_state (fetch_top_repos quota_on_third 10000 fresh).2)
     = completed_tasks (progress_state fresh)
  /\ (search_repos quota_on_seventh top_query 10000 "stars" fresh).1 = None.
Proof.
  assert ((search_repos quota_on_seventh top_query 10000 "stars" fresh).1 = None)
    as Hsecond.
  { refine (proj1 (quota_page_aborts_query quota_on_seventh top_query "stars"
                     10000 fresh 5 [] _ _ _ [6] 7 [8; 9; 10] _ _ _ _ _ _)).
    - apply paged_completes_each_once.
    - refine (loop_next _ _ _ _ _ 0 [5] [] 0%nat fresh fresh _ _
                (replicate 5 requests_repo) 0%nat
                (loop_first quota_on_seventh top_query "stars" 10000 fresh)
                eq_refl (surjective_pairing _) _ _).
      + vm_compute. reflexivity.
      + vm_compute. reflexivity.
    - vm_compute. reflexivity.
    - reflexivity.
    - vm_compute. reflexivity.
    - repeat constructor. }
  destruct (quota_page_aborts_query quota_on_third top_query "stars" 10000
              fresh 0 [5] [] 0%nat fresh [1; 2] 3 [4; 5])
    as (H1 & _ & _ & H2).
  - apply paged_completes_each_once.
  - exact (loop_first quota_on_third top_query "stars" 10000 fresh).
  - reflexivity.
  - reflexivity.
  - vm_compute. reflexivity.
  - repeat constructor.
  - split; [exact H1|].
    destruct (H2 eq_refl eq_refl eq_refl) as (H3 & (_ & _ & H4) & _).
    split; [exact H3|]. split; [exact H4|exact Hsecond].
Defined.

(** C2 does not hold as stated: page 3 of the batch reports quota
    exhaustion, but page 1 came back without a valid item, so the query
    returns a list and [fetch_top_repos] marks its task complete. *)
Lemma quota_page_behind_barren_page :
  3 ∈ batch_pages 10000 0
  /\ is_quota (page_result barren_before_quota (build_tier1_query top_query)
                 "stars" 3) = true
  /\ (search_repos barren_before_quota top_query 10000 "stars" fresh).1
     = Some []
  /\ (search_repos barren_before_quota top_query 10000 "stars" fresh).1 <> None
  /\ (fetch_top_repos barren_before_quota 10000 fresh).1 = Ret true
  /\ completed_tasks
       (progress_state (fetch_top_repos barren_before_quota 10000 fresh).2)
     = ["top_repos"].
Proof.
  split; [vm_compute; repeat constructor|].
  split; [vm_compute; reflexivity|].
  split; [vm_compute; reflexivity|].
  split; [vm_compute; discriminate|].
  split; vm_compute; reflexivity.
Qed.

Lemma barren_page_ends_query_witness :
  (search_repos barren_second top_query 10000 "stars" fresh).1
  = Some (slice_to
            ([] ++ flat_map
                     (fun p' => page_repos
                        (page_result barren_second
                           (build_tier1_query top_query) "stars" p')) [1])
            10000).
Proof.
  apply (barren_page_ends_query barren_second top_query "stars" 10000
           fresh 0 [5] [] 0%nat fresh [1] 2 [3; 4; 5] 4000
           (mkSearch [unlicensed_repo] 1)).
  - apply paged_completes_each_once.
  - exact (loop_first barren_second top_query "stars" 10000 fresh).
  - reflexivity.
  - reflexivity.
  - vm_compute. reflexivity.
  - repeat constructor.
  - repeat constructor.
Defined.

(** The query of the witness returns the valid item of page 1 only, though
    page 2 was not empty and page 3 holds a valid item. *)
Example barren_second_result :
  (search_repos barren_second top_query 10000 "stars" fresh).1
  = Some [requests_repo].
Proof. vm_compute. reflexivity. Qed.

(** C10 does not hold as stated: page 2 answers 200 with one item that
    fails Tier 2, but page 1 of the same batch reports quota exhaustion,
    so the query returns [None] and not the items collected so far. *)
Lemma barren_page_behind_quota_page :
  2 ∈ batch_pages 10000 0
  /\ search_reply quota_before_barren (build_tier1_query top_query) "stars"
       per_page 2 = Answered 200 4000 (mkSearch [unlicensed_repo] 1)
  /\ Forall (fun it => is_valid it = Some false) [unlicensed_repo]
  /\ (search_repos quota_before_barren top_query 10000 "stars" fresh).1 = None.
Proof.
  split; [vm_compute; repeat constructor|].
  split; [reflexivity|].
  split; [repeat constructor|].
  vm_compute. reflexivity.
Qed.

End BatchExamples.

(** ** Dedup aggregation *)

Module AggregateFacts.

Import Aggregate Samples.

Lemma ingest_step fa r (m : gmap string Entry) :
  ingest (fa, r) m
  = <[full_name r := step fa r (default (blank r) (m !! full_name r))]> m.
Proof.
  unfold ingest; destruct fa; simpl;
    unfold merge_top_starred, merge_gsoc, merge_hacktoberfest, merge_topic,
      merge_language, merge_good_first_issue, merge_underrated;
    destruct (m !! full_name r); reflexivity.
Qed.

#[local] Instance entry_equiv_equivalence : Equivalence entry_equiv.
Proof.
  split.
  - intros e. repeat split; reflexivity.
  - intros e1 e2 (?&?&?&?&?&?). repeat split; try done; by symmetry.
  - intros e1 e2 e3 (?&?&?&?&?&?) (?&?&?&?&?&?).
    repeat split; try congruence; etrans; eauto.
Qed.

#[local] Instance map_equiv_equivalence : Equivalence map_equiv.
Proof.
  split.
  - intros m k. reflexivity.
  - intros m1 m2 H k. symmetry. apply H.
  - intros m1 m2 m3 H1 H2 k. etrans; [apply H1|apply H2].
Qed.

Lemma append_new_perm t l l' :
  l ≡ₚ l' -> append_new t l ≡ₚ append_new t l'.
Proof.
  intros H. unfold append_new.
  destruct (bool_decide (t ∈ l)) eqn:E1, (bool_decide (t ∈ l')) eqn:E2;
    try done.
  - apply bool_decide_eq_true in E1. apply bool_decide_eq_false in E2.
    rewrite H in E1. done.
  - apply bool_decide_eq_false in E1. apply bool_decide_eq_true in E2.
    rewrite H in E1. done.
  - by rewrite H.
Qed.

Lemma append_new_comm t u l :
  append_new t (append_new u l) ≡ₚ append_new u (append_new t l).
Proof.
  unfold append_new.
  repeat (case_bool_decide; simpl); try done;
    repeat match goal with
           | H : _ ∈ _ ++ [_] |- _ =>
               apply elem_of_app in H as [H|H%list_elem_of_singleton]
           | H : ¬ (_ ∈ _ ++ [_]) |- _ =>
               rewrite elem_of_app, list_elem_of_singleton in H
           end; subst; try tauto; try done.
  rewrite <- !app_assoc. apply Permutation_app_head, Permutation_swap.
Qed.

Lemma append_new_snoc t u l :
  t <> u -> append_new t (l ++ [u]) ≡ₚ append_new t l ++ [u].
Proof.
  intros Hne. unfold append_new.
  repeat (case_bool_decide; simpl); try done;
    repeat match goal with
           | H : _ ∈ _ ++ [_] |- _ =>
               apply elem_of_app in H as [H|H%list_elem_of_singleton]
           | H : ¬ (_ ∈ _ ++ [_]) |- _ =>
               rewrite elem_of_app, list_elem_of_singleton in H
           end; subst; try tauto; try done.
  rewrite <- !app_assoc. apply Permutation_app_head, Permutation_swap.
Qed.

(** A tag that is appended once differs from every tag appended always. *)
Lemma tag_dedups_ne fa fb :
  dedups fa = true -> dedups fb = false -> tag fa <> tag fb.
Proof. destruct fa, fb; simpl; try done. Qed.

Lemma source_step_comm fa fb ra rb e :
  source (step fa ra (step fb rb e)) ≡ₚ source (step fb rb (step fa ra e)).
Proof.
  simpl. destruct (dedups fa) eqn:Ha, (dedups fb) eqn:Hb.
  - apply append_new_comm.
  - apply append_new_snoc. by apply tag_dedups_ne.
  - symmetry. apply append_new_snoc. by apply tag_dedups_ne.
  - rewrite <- !app_assoc. apply Permutation_app_head, Permutation_swap.
Qed.

Lemma step_comm fa fb ra rb e :
  entry_equiv (step fa ra (step fb rb e)) (step fb rb (step fa ra e)).
Proof.
  split; [apply source_step_comm|].
  split; [by destruct fa, fb|]. split; [by destruct fa, fb|].
  split; [by destruct fa, fb|].
  split.
  - destruct fa, fb; simpl; try reflexivity;
      constructor; apply append_new_comm.
  - destruct fa, fb; simpl; try reflexivity;
      constructor; apply append_new_comm.
Qed.

Lemma default_nil_perm (o1 o2 : option (list string)) :
  option_Forall2 Permutation o1 o2 -> default [] o1 ≡ₚ default [] o2.
Proof. by destruct 1. Qed.

Lemma step_proper fa r r' e1 e2 :
  entry_equiv e1 e2 -> entry_equiv (step fa r e1) (step fa r' e2).
Proof.
  intros (Hs & Hg & Hh & Hf & Ht & Hl). split.
  { simpl. destruct (dedups fa); [by apply append_new_perm|by rewrite Hs]. }
  split; [by destruct fa|]. split; [by destruct fa|].
  split; [by destruct fa|].
  split.
  - destruct fa; simpl; try done. constructor.
    by apply append_new_perm, default_nil_perm.
  - destruct fa; simpl; try done. constructor.
    by apply append_new_perm, default_nil_perm.
Qed.

Lemma blank_equiv r r' : entry_equiv (blank r) (blank r').
Proof. repeat split; constructor. Qed.

Lemma default_blank_equiv r r' o1 o2 :
  option_Forall2 entry_equiv o1 o2 ->
  entry_equiv (default (blank r) o1) (default (blank r') o2).
Proof. destruct 1; [done|apply blank_equiv]. Qed.

Lemma ingest_proper i m1 m2 :
  map_equiv m1 m2 -> map_equiv (ingest i m1) (ingest i m2).
Proof.
  destruct i as [fa r]. intros H k. rewrite !ingest_step.
  destruct (decide (full_name r = k)) as [<-|Hne].
  - rewrite !lookup_insert_eq. constructor.
    apply step_proper, default_blank_equiv, H.
  - rewrite !lookup_insert_ne by done. apply H.
Qed.

Lemma ingest_comm i j m :
  map_equiv (ingest i (ingest j m)) (ingest j (ingest i m)).
Proof.
  destruct i as [fa ra], j as [fb rb]. rewrite !ingest_step.
  destruct (decide (full_name ra = full_name rb)) as [E|Hne].
  - rewrite E. rewrite !lookup_insert_eq. simpl. rewrite !insert_insert_eq.
    intros k. destruct (decide (full_name rb = k)) as [<-|Hk].
    + rewrite !lookup_insert_eq. constructor.
      etrans; [apply step_comm|].
      apply step_proper, step_proper, default_blank_equiv.
      reflexivity.
    + rewrite !lookup_insert_ne by done. reflexivity.
  - rewrite !lookup_insert_ne by done.
    rewrite insert_insert_ne by done. reflexivity.
Qed.

Lemma ingest_all_proper l m1 m2 :
  map_equiv m1 m2 -> map_equiv (ingest_all l m1) (ingest_all l m2).
Proof.
  revert m1 m2. induction l as [|i l IH]; intros m1 m2 H; simpl; [done|].
  apply IH. by apply ingest_proper.
Qed.

Lemma ingest_all_perm l1 l2 :
  l1 ≡ₚ l2 ->
  forall m1 m2, map_equiv m1 m2 ->
  map_equiv (ingest_all l1 m1) (ingest_all l2 m2).
Proof.
  induction 1 as [|x l l' _ IH|x y l|l l' l'' _ IH1 _ IH2];
    intros m1 m2 Hm; simpl.
  - done.
  - apply IH. by apply ingest_proper.
  - apply ingest_all_proper. etrans; [apply ingest_comm|].
    by apply ingest_proper, ingest_proper.
  - etrans; [by apply IH1|]. by apply IH2.
Qed.

(** C3 (as amended). Whatever the order in which a finite collection of
    ingestions is applied to the empty aggregator, the result has the same
    keys and, for every key, the same source tags up to their order, the
    same [is_gsoc], [is_hacktoberfest] and [has_good_first_issues] flags
    and the same topics and languages up to their order. *)
Theorem ingest_all_order_independent (l1 l2 : list Ingestion) :
  l1 ≡ₚ l2 ->
  let m1 := ingest_all l1 ∅ in
  let m2 := ingest_all l2 ∅ in
  dom m1 = dom m2
  /\ forall k e1 e2, m1 !! k = Some e1 -> m2 !! k = Some e2 ->
       source e1 ≡ₚ source e2
       /\ is_gsoc e1 = is_gsoc e2
       /\ is_hacktoberfest e1 = is_hacktoberfest e2
       /\ has_good_first_issues e1 = has_good_first_issues e2
       /\ option_Forall2 Permutation (topics e1) (topics e2)
       /\ option_Forall2 Permutation (languages e1) (languages e2).
Proof.
  intros Hperm m1 m2.
  assert (map_equiv m1 m2) as H by (by apply ingest_all_perm).
  split.
  - apply set_eq. intros k. rewrite !elem_of_dom. specialize (H k).
    destruct H; split; intros [? ?]; by eauto.
  - intros k e1 e2 H1 H2. specialize (H k). rewrite H1, H2 in H.
    by inversion H.
Qed.

Lemma ingest_all_order_independent_witness :
  source <$> (ingest_all [(TopStarred, requests_repo); (Gsoc, requests_repo);
                          (Topic "http", requests_repo)] ∅ !! "psf/requests")
    = Some ["top_starred"; "gsoc"; "topic_http"]
  /\ source <$> (ingest_all [(Topic "http", requests_repo);
                             (TopStarred, requests_repo);
                             (Gsoc, requests_repo)] ∅ !! "psf/requests")
    = Some ["topic_http"; "top_starred"; "gsoc"]
  /\ dom (ingest_all [(TopStarred, requests_repo); (Gsoc, requests_repo);
                      (Topic "http", requests_repo)] ∅)
     = dom (ingest_all [(Topic "http", requests_repo);
                        (TopStarred, requests_repo);
                        (Gsoc, requests_repo)] ∅).
Proof.
  split; [vm_compute; reflexivity|]. split; [vm_compute; reflexivity|].
  refine (proj1 (ingest_all_order_independent _ _ _)).
  symmetry.
  apply (Permutation_cons_append
           [(TopStarred, requests_repo); (Gsoc, requests_repo)]
           (Topic "http", requests_repo)).
Defined.

(** C3 does not hold as stated: the same two ingestions applied in the two
    possible orders leave different entity maps (the source lists are in a
    different order). *)
Lemma ingest_order_observable :
  [(TopStarred, requests_repo); (Gsoc, requests_repo)]
    ≡ₚ [(Gsoc, requests_repo); (TopStarred, requests_repo)]
  /\ ingest_all [(TopStarred, requests_repo); (Gsoc, requests_repo)] ∅
     <> ingest_all [(Gsoc, requests_repo); (TopStarred, requests_repo)] ∅.
Proof.
  split; [apply Permutation_swap|]. intros H.
  apply (f_equal (fun m => source <$> m !! "psf/requests")) in H.
  vm_compute in H. discriminate.
Qed.

(** C4: the code departs from the claim.  Two ingestions of the same
    repository by the underrated task, the first deriving [True] and the
    second deriving [False], leave [is_underrated] at [False], not at the
    OR of the two derived values. *)
Theorem underrated_flag_overwritten :
  derive_underrated forked_repo = true
  /\ derive_underrated quiet_repo = false
  /\ full_name forked_repo = full_name quiet_repo
  /\ is_underrated <$>
       (ingest_all [(Underrated, forked_repo); (Underrated, quiet_repo)] ∅
          !! "acme/tool")
     = Some (Some false).
Proof. vm_compute. done. Qed.

(** The scenario of the specification: an entity tagged by one task and
    then ingested as underrated carries both tags and the facet. *)
Example tags_then_underrated :
  (fun e => (source e, is_underrated e)) <$>
    (ingest_all [(TopStarred, forked_repo); (Underrated, forked_repo)] ∅
       !! "acme/tool")
  = Some (["top_starred"; "underrated"], Some true).
Proof. vm_compute. reflexivity. Qed.

(** The three flags that are only ever set to [True] never go back, and
    tasks other than the underrated one leave [is_underrated] alone. *)
Lemma flags_sticky fa r e :
  (is_gsoc e = Some true -> is_gsoc (step fa r e) = Some true)
  /\ (is_hacktoberfest e = Some true ->
      is_hacktoberfest (step fa r e) = Some true)
  /\ (has_good_first_issues e = Some true ->
      has_good_first_issues (step fa r e) = Some true)
  /\ (fa <> Underrated -> is_underrated (step fa r e) = is_underrated e).
Proof. destruct fa; simpl; done. Qed.

End AggregateFacts.

(** ** Checkpoint store *)

Module CheckpointFacts.

Import Search Aggregate Checkpoint Tasks Samples.
Import LogFacts SearchFacts BatchFacts AggregateFacts.

Lemma replay_app d e1 e2 : replay d (e1 ++ e2) = replay (replay d e1) e2.
Proof. apply foldl_app. Qed.

Lemma boot_progress tok d : progress_state (boot tok d) = load_state d.
Proof.
  unfold boot, load_existing_repos.
  destruct (d !! raw_file) as [[]|]; done.
Qed.

Lemma boot_all_repos tok d meta repositories :
  d !! raw_file = Some (RawJson meta repositories) ->
  all_repos (boot tok d) = repositories.
Proof. intros H. unfold boot, load_existing_repos. by rewrite H. Qed.

(** A task that the state file does not mark is not complete for the
    process that starts from it. *)
Lemma unmarked_not_lost d task entities :
  task ∉ completed_tasks (load_state d) -> ~ lost_entities d task entities.
Proof.
  intros Hd [Hc _]. unfold is_task_complete in Hc.
  rewrite boot_progress in Hc. by apply bool_decide_eq_true in Hc.
Qed.

Lemma merge_top_starred_keys r (m : gmap string Entry) k :
  is_Some (merge_top_starred r m !! k) <->
  k = full_name r \/ is_Some (m !! k).
Proof.
  change (merge_top_starred r m) with (ingest (TopStarred, r) m).
  rewrite ingest_step. destruct (decide (full_name r = k)) as [<-|Hne].
  - rewrite lookup_insert_eq. split; [by left|by eauto].
  - rewrite lookup_insert_ne by done. split; [by right|].
    intros [->|?]; [done|done].
Qed.

Lemma merge_all_top_keys repos :
  forall (m : gmap string Entry) k,
  is_Some (foldl (fun all repo => merge_top_starred repo all) m repos !! k) <->
  k ∈ full_name <$> repos \/ is_Some (m !! k).
Proof.
  induction repos as [|r repos IH]; intros m k; simpl.
  - split; [by right|]. intros [H|H]; [by apply elem_of_nil in H|done].
  - rewrite IH, merge_top_starred_keys, elem_of_cons. tauto.
Qed.

Lemma writes_one file c : writes [EvWrite file c] = [EvWrite file c].
Proof. done. Qed.

(** The two persistence steps that end a task: the state file, when it
    can be written, then the data file, unless the map is empty or the
    write fails (and then the task raises). *)
Lemma complete_and_save_steps env task f :
  is_task_complete task f = false ->
  exists ws wd,
    extends_by f (complete_and_save env task f).2 (ws ++ wd)
    /\ writes (ws ++ wd) = ws ++ wd
    /\ (ws = [] \/ exists st, ws = [EvWrite state_file (StateJson st)])
    /\ ((wd = [] /\ (all_repos f = ∅
                      \/ exists e, (complete_and_save env task f).1 = Exn e))
        \/ exists meta, wd = [EvWrite raw_file (RawJson meta (all_repos f))]).
Proof.
  intros Hc. unfold complete_and_save, mark_task_complete. rewrite Hc.
  unfold save_state, save_current_data, open_write.
  destruct (writable env state_file); simpl.
  - destruct (bool_decide (all_repos f = ∅)) eqn:He; simpl.
    + eexists [_], []. split; [done|]. split; [done|].
      split; [right; eauto|]. left. split; [done|].
      left. by apply bool_decide_eq_true in He.
    + destruct (writable env raw_file); simpl.
      * eexists [_], [_]. split; [unfold extends_by; simpl;
                                   by rewrite <- app_assoc|].
        split; [done|]. split; [right; eauto|]. right. eauto.
      * eexists [_], []. split; [done|]. split; [done|].
        split; [right; eauto|]. left. split; [done|]. right. eauto.
  - destruct (bool_decide (all_repos f = ∅)) eqn:He; simpl.
    + exists [], []. split; [unfold extends_by; simpl; by rewrite app_nil_r|]. split; [done|].
      split; [by left|]. left. split; [done|].
      left. by apply bool_decide_eq_true in He.
    + destruct (writable env raw_file); simpl.
      * eexists [], [_]. split; [done|].
        split; [done|]. split; [by left|]. right. eauto.
      * exists [], []. split; [unfold extends_by; simpl; by rewrite app_nil_r|]. split; [done|].
        split; [by left|]. left. split; [done|]. right. eauto.
Qed.

Lemma replay_data_last d ws meta repositories :
  (ws = [] \/ exists st, ws = [EvWrite state_file (StateJson st)]) ->
  replay d (ws ++ [EvWrite raw_file (RawJson meta repositories)]) !! raw_file
  = Some (RawJson meta repositories).
Proof.
  intros _. rewrite replay_app. simpl. apply lookup_insert_eq.
Qed.

(** C1 (as amended). Take a run of [fetch_top_repos] that returns
    normally, on files that do not yet mark the task.  If the process
    stops before the first or after the last persistence step of the run, a
    fresh process never finds the task marked complete with one of the
    collected entities missing from the data file.  (The steps are: the
    state file first, then the data file.) *)
Theorem checkpoint_consistent_outside_window (env : Remote) (limit : Z)
    (f : Fetcher) (d : gmap string FileContent) :
  "top_repos" ∉ completed_tasks (load_state d) ->
  (exists b, (fetch_top_repos env limit f).1 = Ret b) ->
  let collected :=
    default [] (search_repos env "help-wanted-issues:>5" limit "stars" f).1 in
  let evs := new_events f (fetch_top_repos env limit f).2 in
  forall k, k = 0%nat \/ (length (writes evs) <= k)%nat ->
    ~ lost_entities (crash_after d evs k) "top_repos" (full_name <$> collected).
Proof.
  intros Hd Hret collected evs k Hk.
  destruct Hk as [->|Hk].
  { unfold crash_after. rewrite take_0. by apply unmarked_not_lost. }
  unfold crash_after. rewrite take_ge by done. subst evs collected.
  revert Hret. unfold fetch_top_repos.
  destruct (is_task_complete "top_repos" f) eqn:Hc.
  { intros _. simpl. rewrite QuotaFacts.new_events_refl. simpl.
    by apply unmarked_not_lost. }
  destruct (search_repos_frame env "help-wanted-issues:>5" limit "stars" f)
    as [(Hall & _ & Hct) _].
  pose proof (search_batches_events env
                (build_tier1_query "help-wanted-issues:>5") "stars" limit
                (batch_starts limit) [] 0%nat f) as (evs & Hext & Hwr & _).
  fold (search_repos env "help-wanted-issues:>5" limit "stars" f) in *.
  destruct (search_repos env "help-wanted-issues:>5" limit "stars" f)
    as [[repos|] f1]; simpl in Hall, Hct, Hext |- *.
  2:{ intros _. rewrite (extends_by_new_events _ _ _ Hext), Hwr. simpl.
      by apply unmarked_not_lost. }
  assert (is_task_complete "top_repos" (merge_all merge_top_starred repos f1)
          = false) as Hc2.
  { unfold is_task_complete in *. simpl. by rewrite Hct. }
  destruct (complete_and_save_steps env "top_repos" _ Hc2)
    as (ws & wd & Hext2 & Hww & Hws & Hwd).
  intros Hret.
  assert (extends_by f (complete_and_save env "top_repos"
                          (merge_all merge_top_starred repos f1)).2
            (evs ++ ws ++ wd)) as Hext3.
  { eapply extends_by_trans; [|exact Hext2]. exact Hext. }
  rewrite (extends_by_new_events _ _ _ Hext3), writes_app, Hwr, Hww. simpl.
  intros [_ (fn & Hfn & Hnone)].
  assert (is_Some (all_repos (merge_all merge_top_starred repos f1) !! fn))
    as [x Hx] by (apply merge_all_top_keys; by left).
  destruct Hwd as [[-> [He|[e He]]]|[meta ->]].
  - rewrite He in Hx. by rewrite lookup_empty in Hx.
  - destruct Hret as [b Hret]. rewrite He in Hret. done.
  - erewrite boot_all_repos in Hnone; [|by apply replay_data_last].
    congruence.
Qed.

Lemma checkpoint_consistent_outside_window_witness :
  ~ lost_entities
      (crash_after ∅ (new_events fresh (fetch_top_repos two_pages 10000 fresh).2) 2)
      "top_repos"
      (full_name <$>
         default [] (search_repos two_pages "help-wanted-issues:>5" 10000
                       "stars" fresh).1).
Proof.
  apply (checkpoint_consistent_outside_window two_pages 10000 fresh ∅).
  - vm_compute. apply not_elem_of_nil.
  - exists true. vm_compute. reflexivity.
  - right. vm_compute. repeat constructor.
Defined.

(** C1 does not hold as stated: [fetch_top_repos] performs two
    persistence steps, the state file and then the data file; if the
    process stops between them, a fresh process finds the task marked
    complete and none of the collected entities in its data. *)
Lemma crash_between_state_and_data :
  (search_repos two_pages "help-wanted-issues:>5" 10000 "stars" fresh).1
    = Some [requests_repo; flask_repo]
  /\ length (writes (new_events fresh
                       (fetch_top_repos two_pages 10000 fresh).2)) = 2%nat
  /\ lost_entities
       (crash_after ∅
          (new_events fresh (fetch_top_repos two_pages 10000 fresh).2) 1)
       "top_repos" ["psf/requests"; "pallets/flask"].
Proof.
  split; [vm_compute; reflexivity|]. split; [vm_compute; reflexivity|].
  split; [vm_compute; reflexivity|].
  exists "psf/requests". split; [by left|]. vm_compute. reflexivity.
Qed.

(** C8 (as amended). A failed write of the data file is not caught:
    [save_current_data] raises and the task that called it raises too.  A
    failed write of the state file is caught inside [save_state]: nothing
    is written, the task is marked complete in memory only and the call
    returns. *)
Theorem persistence_failures (env : Remote) (task : string) (f : Fetcher) :
  (writable env raw_file = false -> all_repos f <> ∅ ->
   (exists e, (save_current_data env f).1 = Exn e)
   /\ (exists e, (complete_and_save env task f).1 = Exn e))
  /\ (writable env state_file = false ->
      save_state env f = f
      /\ new_events f (mark_task_complete env task f) = []
      /\ is_task_complete task (mark_task_complete env task f) = true).
Proof.
  split.
  - intros Hw He.
    assert (exists e, (save_current_data env f).1 = Exn e) as Hs.
    { unfold save_current_data, open_write.
      rewrite bool_decide_eq_false_2 by done. rewrite Hw. eauto. }
    split; [done|].
    unfold complete_and_save, mark_task_complete.
    destruct (is_task_complete task f).
    + destruct Hs as [e Hs]. destruct (save_current_data env f) as [[|] ?];
        simpl in *; [done|eauto].
    + unfold save_state, save_current_data, open_write.
      destruct (writable env state_file); simpl;
        rewrite bool_decide_eq_false_2 by done; rewrite Hw; simpl; eauto.
  - intros Hw. unfold mark_task_complete, save_state, open_write.
    rewrite Hw. split; [done|].
    destruct (is_task_complete task f) eqn:Hc.
    + split; [apply QuotaFacts.new_events_refl|done].
    + split; [unfold new_events; simpl; apply drop_all|].
      unfold is_task_complete. simpl. apply bool_decide_eq_true.
      apply elem_of_app. right. by left.
Qed.

Lemma persistence_failures_witness :
  (exists e, (complete_and_save read_only "top_repos"
                (with_all_repos {[ "psf/requests" := requests_entry ]} fresh)).1
             = Exn e)
  /\ save_state read_only fresh = fresh
  /\ is_task_complete "top_repos"
       (mark_task_complete read_only "top_repos" fresh) = true.
Proof.
  destruct (persistence_failures read_only "top_repos"
              (with_all_repos {[ "psf/requests" := requests_entry ]} fresh))
    as [H1 _].
  destruct (persistence_failures read_only "top_repos" fresh) as [_ H2].
  split.
  - apply H1; [reflexivity|]. intros H.
    apply (f_equal (fun m => m !! "psf/requests")) in H.
    vm_compute in H. discriminate.
  - destruct (H2 eq_refl) as (Ha & _ & Hb). split; [exact Ha|exact Hb].
Defined.

(** C8 does not hold as stated: the state file cannot be written, yet
    [fetch_top_repos] returns [True], having written the data file after
    the failed state write. *)
Lemma state_write_failure_ignored :
  writable state_locked state_file = false
  /\ (fetch_top_repos state_locked 10000 fresh).1 = Ret true
  /\ (fun e => match e with EvWrite file _ => file | _ => "" end) <$>
        writes (log (fetch_top_repos state_locked 10000 fresh).2)
      = [raw_file].
Proof. vm_compute. done. Qed.

End CheckpointFacts.

(** ** Enrichment *)

Module EnrichFacts.

Import Quota Checkpoint Enrich Samples LogFacts.








Lemma enrich_single_stop env full f :
  (wait_for_rate_limit env f).1 = false ->
  enrich_repo_data_single env full f = (None, (wait_for_rate_limit env f).2).
Proof.
  intros Hgate. unfold enrich_repo_data_single.
  destruct (wait_for_rate_limit env f) as [go f1]. simpl in *. by subst go.
Qed.

(** *** What a call adds to the log and what it leaves alone *)

Lemma on_reply_frame {A} (wrap : A -> Data) (r : Reply A) f :
  log (on_reply wrap r f).2 = log f
  /\ progress_state (on_reply wrap r f).2 = progress_state f
  /\ all_repos (on_reply wrap r f).2 = all_repos f.
Proof.
  destruct r as [status rem data|msg]; simpl; [|done].
  destruct (status =? 200); [done|]. by destruct (status =? 403).
Qed.

Lemma fetch_endpoint_frame env full ep f :
  extends_by f (fetch_endpoint env full ep f).2 [EvRepo full ep]
  /\ progress_state (fetch_endpoint env full ep f).2 = progress_state f
  /\ all_repos (fetch_endpoint env full ep f).2 = all_repos f.
Proof.
  unfold fetch_endpoint, extends_by.
  destruct ep;
    match goal with
    | |- context [on_reply ?w ?r ?g] =>
        destruct (on_reply_frame w r g) as (-> & -> & ->)
    end; done.
Qed.

Lemma sub_fetches_frame env full completed :
  forall e f,
  extends_by f (sub_fetches env full completed e f).2
    (EvRepo full <$> completed)
  /\ progress_state (sub_fetches env full completed e f).2 = progress_state f
  /\ all_repos (sub_fetches env full completed e f).2 = all_repos f.
Proof.
  induction completed as [|ep rest IH]; intros e f; simpl.
  { split; [apply extends_by_refl|done]. }
  destruct (fetch_endpoint_frame env full ep f) as (H1 & H2 & H3).
  destruct (fetch_endpoint env full ep f) as [data f1]; simpl in *.
  destruct (IH (absorb env data e) f1) as (I1 & I2 & I3).
  split; [apply (extends_by_trans _ _ _ _ _ H1 I1)|]. split; congruence.
Qed.

Lemma writes_repo full (eps : list Endpoint) :
  writes (EvRepo full <$> eps) = [].
Proof. by induction eps. Qed.

Lemma enrich_single_frame env full f :
  let r := enrich_repo_data_single env full f in
  (exists evs, extends_by f r.2 evs /\ writes evs = []
               /\ (r.1 = None -> Forall (fun e => e = EvRateLimit) evs))
  /\ progress_state r.2 = progress_state f
  /\ all_repos r.2 = all_repos f.
Proof.
  unfold enrich_repo_data_single.
  pose proof (wait_extends env f) as Hw.
  pose proof (wait_progress env f) as Hp.
  pose proof (wait_same_store env f) as (Ha & _).
  destruct (wait_for_rate_limit env f) as [go f1]; simpl in *.
  set (gate := if decide (rate_limit_remaining f < 10)
               then [EvRateLimit] else []) in *.
  assert (writes gate = [] /\ Forall (fun e => e = EvRateLimit) gate)
    as [Hgw Hgf].
  { unfold gate. destruct (decide _); split; by repeat constructor. }
  destruct go; simpl.
  - destruct (sub_fetches_frame env full (endpoint_completion env full)
                no_enrichment f1) as (S1 & S2 & S3).
    destruct (sub_fetches env full _ no_enrichment f1) as [e f2]; simpl in *.
    split; [|split; congruence].
    eexists. split; [apply (extends_by_trans _ _ _ _ _ Hw S1)|].
    split; [|done]. by rewrite writes_app, Hgw, writes_repo.
  - split; [|done]. exists gate. done.
Qed.

(** *** The pool *)














(** *** The loop over the futures *)

Lemma dict_set_keys {V} (k : string) (v : V) d x :
  x ∈ (dict_set k v d).*1 <-> x = k \/ x ∈ d.*1.
Proof.
  induction d as [|[k' v'] d IH]; simpl.
  - rewrite list_elem_of_singleton. split; [by left|].
    intros [->|H]; [done|by apply elem_of_nil in H].
  - case_bool_decide as E; simpl.
    + subst k'. rewrite !elem_of_cons. tauto.
    + rewrite !elem_of_cons, IH. tauto.
Qed.

Lemma dict_set_NoDup {V} (k : string) (v : V) d :
  NoDup d.*1 -> NoDup (dict_set k v d).*1.
Proof.
  induction d as [|[k' v'] d IH]; simpl; intros Hnd.
  - apply NoDup_singleton.
  - apply NoDup_cons in Hnd as [Hk Hd]. case_bool_decide as E; simpl.
    + subst k'. by apply NoDup_cons.
    + apply NoDup_cons. split; [|by apply IH].
      rewrite dict_set_keys. intros [->|?]; done.
Qed.

Lemma record_enriched_spec full n f :
  full ∈ enriched_repos (progress_state (record_enriched full n f))
  /\ enriched_repos (progress_state f)
     ⊆ enriched_repos (progress_state (record_enriched full n f))
  /\ enrichment_progress (progress_state (record_enriched full n f)) = n.
Proof.
  unfold record_enriched. simpl. case_bool_decide as E.
  - done.
  - split; [apply elem_of_app; right; by left|]. split; [|done].
    intros x Hx. apply elem_of_app. by left.
Qed.







End EnrichFacts.

(** ** Checkpoint store: marks and round trips *)

Module CheckpointExtras.

Import Search Aggregate Checkpoint Tasks Samples MoreSamples.
Import LogFacts CheckpointFacts.

Lemma mark_task_complete_sets env task f :
  is_task_complete task (mark_task_complete env task f) = true.
Proof.
  unfold mark_task_complete. destruct (is_task_complete task f) eqn:Hc; [done|].
  unfold save_state, open_write, is_task_complete.
  destruct (writable env state_file); simpl; apply bool_decide_eq_true;
    apply elem_of_app; right; by left.
Qed.

(** X1. Marking a task complete twice is marking it once: the second call
    changes neither the fetcher nor the files. *)
Theorem mark_task_complete_idempotent (env : Remote) (task : string)
    (f : Fetcher) :
  mark_task_complete env task (mark_task_complete env task f)
  = mark_task_complete env task f.
Proof.
  pose proof (mark_task_complete_sets env task f) as H.
  unfold mark_task_complete at 1. by rewrite H.
Qed.

Lemma mark_task_complete_progress env task f :
  progress_state (mark_task_complete env task f)
  = if is_task_complete task f then progress_state f
    else mkProgress (phase (progress_state f))
           (completed_tasks (progress_state f) ++ [task])
           (enrichment_progress (progress_state f))
           (enriched_repos (progress_state f))
           (filtered_count (progress_state f)).
Proof.
  unfold mark_task_complete. destruct (is_task_complete task f); [done|].
  unfold save_state, open_write. by destruct (writable env state_file).
Qed.

(** X2. [mark_task_complete] marks its task, leaves the mark of every other
    task as it was, never lists a task twice, and touches neither the
    collected entities nor the cached quota. *)
Theorem mark_task_complete_exact (env : Remote) (task : string) (f : Fetcher) :
  let f' := mark_task_complete env task f in
  is_task_complete task f' = true
  /\ (forall other, other <> task ->
        is_task_complete other f' = is_task_complete other f)
  /\ (NoDup (completed_tasks (progress_state f)) ->
      NoDup (completed_tasks (progress_state f')))
  /\ all_repos f' = all_repos f
  /\ rate_limit_remaining f' = rate_limit_remaining f.
Proof.
  intros f'. subst f'. split; [apply mark_task_complete_sets|].
  pose proof (mark_task_complete_progress env task f) as Hp.
  split; [|split; [|]].
  - intros other Hne. unfold is_task_complete at 1. rewrite Hp.
    destruct (is_task_complete task f); [done|]. simpl.
    unfold is_task_complete. apply bool_decide_ext.
    rewrite elem_of_app, list_elem_of_singleton. tauto.
  - intros Hnd. rewrite Hp. destruct (is_task_complete task f) eqn:Hc; [done|].
    simpl. apply NoDup_app. split; [done|]. split; [|apply NoDup_singleton].
    intros x Hx ->%list_elem_of_singleton.
    unfold is_task_complete in Hc. by apply bool_decide_eq_false in Hc.
  - unfold mark_task_complete. destruct (is_task_complete task f); [done|].
    unfold save_state, open_write. by destruct (writable env state_file).
Qed.

Lemma save_state_events env f :
  extends_by f (save_state env f)
    (if writable env state_file
     then [EvWrite state_file (StateJson (progress_state f))] else []).
Proof.
  unfold save_state, open_write. destruct (writable env state_file); simpl.
  - done.
  - apply extends_by_refl.
Qed.

(** X3. State round trip: after [save_state], [load_state] on the files reads
    back the progress state of the fetcher when the state file could be
    written, and what it read before otherwise. *)
Theorem save_state_load_state (env : Remote) (f : Fetcher)
    (d : gmap string FileContent) :
  load_state (replay d (new_events f (save_state env f)))
  = if writable env state_file then progress_state f else load_state d.
Proof.
  rewrite (extends_by_new_events _ _ _ (save_state_events env f)).
  destruct (writable env state_file); [|done].
  unfold load_state, replay. simpl. by rewrite lookup_insert_eq.
Qed.

Lemma save_current_data_events env f :
  extends_by f (save_current_data env f).2
    (if bool_decide (all_repos f = ∅) || negb (writable env raw_file) then []
     else [EvWrite raw_file (RawJson (metadata_of f) (all_repos f))]).
Proof.
  unfold save_current_data, open_write.
  destruct (bool_decide (all_repos f = ∅)); simpl; [apply extends_by_refl|].
  destruct (writable env raw_file); simpl; [done|apply extends_by_refl].
Qed.

(** X4. Data round trip: after [save_current_data], a fresh process loads
    exactly the entity map of the fetcher, with a metadata count equal to
    its size, unless the map was empty or the file could not be written: then
    the files are as before. *)
Theorem save_current_data_load (env : Remote) (f : Fetcher)
    (tok : option string) (d : gmap string FileContent) :
  let d' := replay d (new_events f (save_current_data env f).2) in
  if bool_decide (all_repos f = ∅) || negb (writable env raw_file)
  then d' = d
  else all_repos (boot tok d') = all_repos f
       /\ exists meta repositories,
            d' !! raw_file = Some (RawJson meta repositories)
            /\ total_repos meta = size repositories.
Proof.
  intros d'. subst d'.
  rewrite (extends_by_new_events _ _ _ (save_current_data_events env f)).
  destruct (bool_decide (all_repos f = ∅) || negb (writable env raw_file));
    [done|].
  unfold replay. simpl.
  split; [by erewrite boot_all_repos; [|apply lookup_insert_eq]|].
  eexists _, _. split; [apply lookup_insert_eq|done].
Qed.

(** X5. Resume: when a task ends with both files written, a fresh process
    started on the files has the progress state and the entity map of the
    process that wrote them. *)
Theorem complete_and_save_resume (env : Remote) (task : string) (f : Fetcher)
    (tok : option string) (d : gmap string FileContent) :
  writable env state_file = true ->
  writable env raw_file = true ->
  all_repos f <> ∅ ->
  is_task_complete task f = false ->
  let f' := (complete_and_save env task f).2 in
  let fresh_process := boot tok (replay d (new_events f f')) in
  (complete_and_save env task f).1 = Ret true
  /\ progress_state fresh_process = progress_state f'
  /\ all_repos fresh_process = all_repos f'
  /\ is_task_complete task fresh_process = true.
Proof.
  intros Hs Hr He Hc f' fp. subst f' fp.
  unfold complete_and_save, mark_task_complete. rewrite Hc.
  unfold save_state, save_current_data, open_write. rewrite Hs. simpl.
  rewrite bool_decide_eq_false_2 by done. rewrite Hr. simpl.
  unfold new_events. simpl. rewrite <- app_assoc, drop_app_length.
  unfold replay. simpl. split; [done|].
  assert (forall X Y : FileContent,
            <[raw_file:=Y]> (<[state_file:=X]> d) !! state_file = Some X) as Hl.
  { intros X Y. rewrite lookup_insert_ne by done. apply lookup_insert_eq. }
  split; [|split].
  - rewrite boot_progress. unfold load_state. by rewrite Hl.
  - by erewrite boot_all_repos; [|apply lookup_insert_eq].
  - unfold is_task_complete. rewrite boot_progress. unfold load_state.
    rewrite Hl. simpl. apply bool_decide_eq_true, elem_of_app. right. by left.
Qed.

Lemma complete_and_save_resume_witness :
  progress_state
    (boot None
       (replay ∅
          (new_events (with_all_repos {[ "psf/requests" := requests_entry ]} fresh)
             (complete_and_save quiet "top_repos"
                (with_all_repos {[ "psf/requests" := requests_entry ]} fresh)).2)))
  = mkProgress "raw_data" ["top_repos"] 0 [] 0.
Proof.
  destruct (complete_and_save_resume quiet "top_repos"
              (with_all_repos {[ "psf/requests" := requests_entry ]} fresh)
              None ∅) as (_ & H & _).
  - reflexivity.
  - reflexivity.
  - intros H. apply (f_equal (fun m => m !! "psf/requests")) in H.
    vm_compute in H. discriminate.
  - reflexivity.
  - rewrite H. vm_compute. reflexivity.
Defined.

End CheckpointExtras.

(** ** Paginated search: pages, batches and what a query leaves alone *)

Module SearchExtras.

Import Validator Quota Search Checkpoint Views Samples MoreSamples.
Import LogFacts SearchFacts.

(** The validator only raises from its division. *)
Lemma is_legitimate_project_raises r e :
  is_legitimate_project r = Exn e ->
  e = "integer division result too large for a float".
Proof.
  unfold is_legitimate_project.
  destruct (bool_decide _); [done|]. destruct (_ || _); [done|].
  do 3 (destruct (matches_pattern _ _); [done|]).
  destruct (ratio_exceeds _ _) as [[|]|e'] eqn:Hr; [done| |].
  { destruct (_ && _); [done|]. by destruct (_ && _). }
  intros [= <-]. unfold ratio_exceeds in Hr.
  destruct (0 <? stargazers_count r) eqn:Hs; [|done].
  apply Z.ltb_lt in Hs. unfold Float.true_divide in Hr.
  destruct (stargazers_count r =? 0) eqn:Hz; [apply Z.eqb_eq in Hz; lia|].
  destruct (forks_count r =? 0); [done|].
  destruct (_ && _); [by injection Hr as <-|done].
Qed.

Lemma first_raise_cons it its :
  first_raise (it :: its)
  = match is_legitimate_project it with
    | Exn e => Some e
    | Ret _ => first_raise its
    end.
Proof. unfold first_raise. simpl. by destruct (is_legitimate_project it). Qed.

Lemma tier2_filter its :
  forall valid fo,
  tier2 its valid fo
  = match first_raise its with
    | Some e => Exn e
    | None =>
        Ret (valid ++ filter legitimate its,
             (fo + length (filter (fun it => ~ legitimate it) its))%nat)
    end.
Proof.
  induction its as [|it its IH]; intros valid fo.
  { simpl. unfold first_raise. simpl. by rewrite app_nil_r, Nat.add_0_r. }
  rewrite first_raise_cons, !filter_cons. simpl tier2.
  destruct (decide (legitimate it)) as [Hl|Hl].
  - rewrite decide_False by tauto.
    unfold legitimate, is_valid in Hl.
    destruct (is_legitimate_project it) as [[v why]|e]; [|done].
    injection Hl as ->. rewrite IH. destruct (first_raise its); [done|].
    by rewrite <- app_assoc.
  - unfold legitimate, is_valid in Hl.
    destruct (is_legitimate_project it) as [[[|] why]|e] eqn:E; [done| |done].
    rewrite decide_True
      by (unfold legitimate, is_valid; rewrite E; congruence).
    rewrite IH. destruct (first_raise its); [done|].
    simpl. do 2 f_equal. lia.
Qed.

(** X6. A page answered with status 200 carries exactly the items that pass
    Tier 2, in the order of the service; the rejected ones are counted, and
    the two counts add up to the size of the raw page.  When the validator
    raises on an item, the page is an error page with the text of the
    exception. *)
Theorem fetch_page_tier2 (env : Remote) (query sort : string)
    (page pp hdr : Z) (data : SearchBody) (f : Fetcher) :
  search_reply env query sort pp page = Answered 200 hdr data ->
  match first_raise (items data) with
  | Some e => (fetch_page env query page pp sort f).1 = PageErr page e
  | None =>
      exists filtered_out,
        (fetch_page env query page pp sort f).1
        = PageOk page (filter legitimate (items data)) filtered_out
            (length (items data)) (total_count data)
        /\ filtered_out
           = length (filter (fun it => ~ legitimate it) (items data))
        /\ (length (filter legitimate (items data)) + filtered_out)%nat
           = length (items data)
  end.
Proof.
  intros Hrep. unfold fetch_page. rewrite Hrep. simpl.
  rewrite tier2_filter. destruct (first_raise (items data)); [done|]. simpl.
  eexists. split; [reflexivity|].
  split; [done|].
  induction (items data) as [|it its IH]; [done|].
  rewrite !filter_cons. destruct (decide (legitimate it)).
  - rewrite decide_False by tauto. simpl. lia.
  - rewrite decide_True by tauto. simpl. lia.
Qed.

Lemma fetch_page_tier2_witness :
  exists filtered_out,
    (fetch_page two_pages "q" 1 100 "stars" fresh).1
    = PageOk 1 (filter legitimate [requests_repo; unlicensed_repo]) filtered_out
        2 2
    /\ filtered_out = 1%nat.
Proof.
  pose proof (fetch_page_tier2 two_pages "q" "stars" 1 100 4000
                (mkSearch [requests_repo; unlicensed_repo] 2) fresh eq_refl)
    as H.
  assert (first_raise [requests_repo; unlicensed_repo] = None) as E
    by (vm_compute; reflexivity).
  simpl items in H. rewrite E in H.
  destruct H as (fo & H1 & H2 & _).
  exists fo. split; [exact H1|]. rewrite H2. vm_compute. reflexivity.
Defined.

(** X7. A page counts as quota-exhausted exactly when the service answered
    403, or when the request raised an exception whose text is
    [rate_limit]; any other status and any other exception is an ordinary
    error that the query skips. *)
Theorem page_result_quota_iff (env : Remote) (query sort : string) (page : Z) :
  is_quota (page_result env query sort page) = true <->
  (exists hdr data,
     search_reply env query sort per_page page = Answered 403 hdr data)
  \/ search_reply env query sort per_page page = Failed "rate_limit".
Proof.
  unfold page_result, fetch_page.
  destruct (search_reply env query sort per_page page)
    as [status hdr data|msg]; simpl.
  - destruct (status =? 200) eqn:E2.
    { apply Z.eqb_eq in E2. subst status. simpl.
      rewrite tier2_filter.
      destruct (first_raise (items data)) as [e|] eqn:Hraise; simpl.
      - split; [|intros [(? & ? & [=])|[=]]].
        intros He%bool_decide_eq_true. exfalso.
        unfold first_raise in Hraise.
        apply head_Some_elem_of, list_elem_of_omap in Hraise
          as (it & _ & Hit).
        destruct (is_legitimate_project it) as [?|e'] eqn:Hv; [done|].
        injection Hit as ->. apply is_legitimate_project_raises in Hv.
        by subst e.
      - split; [done|]. intros [(? & ? & [=])|[=]]. }
    destruct (status =? 403) eqn:E3; simpl.
    + apply Z.eqb_eq in E3. subst status. split; [|done]. intros _. left. eauto.
    + apply Z.eqb_neq in E3. split; [intros H|].
      * exfalso.
        first [discriminate H|apply bool_decide_eq_true in H; discriminate H].
      * intros [(? & ? & [= -> _ _])|[=]]. done.
  - rewrite bool_decide_eq_true. split.
    + intros ->. by right.
    + intros [(? & ? & [=])|[= ->]]. done.
Qed.

(** The valid items of every dict [fetch_page] builds pass Tier 2. *)
Lemma page_result_legitimate env q sort page :
  Forall legitimate (page_repos (page_result env q sort page)).
Proof.
  unfold page_result, fetch_page.
  destruct (search_reply env q sort per_page page) as [status hdr data|msg];
    simpl; [|constructor].
  destruct (status =? 200).
  - rewrite tier2_filter. destruct (first_raise (items data)); simpl;
      [constructor|]. apply Forall_forall.
    intros it Hit. by apply list_elem_of_filter in Hit as [? _].
  - destruct (status =? 403); constructor.
Qed.

Lemma slice_to_Forall {A} (P : A -> Prop) l n :
  Forall P l -> Forall P (slice_to l n).
Proof. unfold slice_to. destruct (0 <=? n); apply Forall_take. Qed.

Lemma process_results_legitimate max_results results :
  forall repos total,
  Forall (fun r => Forall legitimate (page_repos r)) results ->
  Forall legitimate repos ->
  match process_results max_results results repos total with
  | Continue (repos', _) => Forall legitimate repos'
  | Return r => Forall legitimate (default [] r)
  end.
Proof.
  induction results as [|x rs IH]; intros repos total Hrs Hrepos; simpl;
    [done|].
  apply Forall_cons in Hrs as [Hx Hrs].
  destruct x as [pg page_repos fo ti tc|pg err]; simpl in *.
  - destruct page_repos as [|it its]; [by apply slice_to_Forall|].
    apply IH; [done|]. by apply Forall_app.
  - destruct (bool_decide _); [constructor|]. by apply IH.
Qed.

Lemma search_batches_legitimate env fq sort max_results starts :
  forall repos total f,
  Forall legitimate repos ->
  Forall legitimate
    (default [] (search_batches env fq sort max_results starts repos total f).1).
Proof.
  induction starts as [|b rest IH]; intros repos total f Hrepos; simpl.
  { by apply slice_to_Forall. }
  destruct (wait_for_rate_limit env f) as [go f1]; simpl.
  destruct go; simpl; [|constructor].
  pose proof (fetch_batch_spec env fq sort
                (search_completion env fq (batch_pages max_results b)) f1)
    as (Hres & _).
  destruct (fetch_batch _ _ _ _ _ f1) as [results f2]; simpl in *.
  assert (Forall (fun r => Forall legitimate (page_repos r))
            (sort_by_page results)) as Hsorted.
  { destruct (sort_by_page_acc [] results) as [Hp _]; [constructor|].
    unfold sort_by_page. rewrite Hp. simpl. subst results.
    rewrite Forall_fmap. apply Forall_forall. intros p _.
    apply page_result_legitimate. }
  pose proof (process_results_legitimate max_results _ repos total
                Hsorted Hrepos) as Hpr.
  destruct (process_results _ _ _ _) as [[repos' total']|r]; [|done].
  destruct (Z.of_nat (length repos') >=? max_results).
  - simpl. by apply slice_to_Forall.
  - by apply IH.
Qed.

(** X8. Whatever the service answers and in whatever order the requests of
    a batch complete, every item [search_repos] returns passes
    [is_legitimate_project]. *)
Theorem search_repos_returns_legitimate (env : Remote) (query : string)
    (max_results : Z) (sort : string) (f : Fetcher) :
  Forall legitimate (default [] (search_repos env query max_results sort f).1).
Proof. apply search_batches_legitimate. constructor. Qed.

(** X9. A query for no result or for a negative number of results returns
    the empty list without any request: the log, the cached quota and the
    filtered count are left as they were. *)
Theorem search_repos_nonpositive (env : Remote) (query : string)
    (max_results : Z) (sort : string) (f : Fetcher) :
  max_results <= 0 ->
  let r := search_repos env query max_results sort f in
  r.1 = Some [] /\ log r.2 = log f
  /\ rate_limit_remaining r.2 = rate_limit_remaining f
  /\ filtered_count (progress_state r.2) = filtered_count (progress_state f).
Proof.
  intros Hn r. subst r. unfold search_repos.
  rewrite batch_starts_negative by done. simpl.
  rewrite slice_to_nil. repeat split; try done; lia.
Qed.

Lemma search_repos_nonpositive_witness :
  (search_repos two_pages "topic:x" 0 "stars" fresh).1 = Some []
  /\ (search_repos two_pages "topic:x" (-7) "stars" fresh).1 = Some [].
Proof.
  split.
  - refine (proj1 (search_repos_nonpositive two_pages "topic:x" 0 "stars"
                     fresh _)). lia.
  - refine (proj1 (search_repos_nonpositive two_pages "topic:x" (-7) "stars"
                     fresh _)). lia.
Defined.

Lemma batch_starts_positive max_results :
  0 < max_results -> exists rest, batch_starts max_results = 0 :: rest.
Proof.
  intros Hp. unfold batch_starts, range_step, batch_size, max_pages, per_page.
  assert (1 <= (max_results + 100 - 1) / 100)
    by (apply Z.div_le_lower_bound; lia).
  assert (1 <= (Z.min ((max_results + 100 - 1) / 100) 10 - 0 + 5 - 1) / 5)
    by (apply Z.div_le_lower_bound; lia).
  rewrite seqZ_cons by lia. simpl. eauto.
Qed.

(** X10. When the quota gate answers STOP before the first batch of a query
    for at least one result, the query returns the quota signal [None]
    without requesting any page. *)
Theorem search_repos_gate_stop (env : Remote) (query : string)
    (max_results : Z) (sort : string) (f : Fetcher) :
  0 < max_results ->
  (wait_for_rate_limit env f).1 = false ->
  let r := search_repos env query max_results sort f in
  r.1 = None /\ requested_pages (new_events f r.2) = []
  /\ new_events f r.2 = [EvRateLimit].
Proof.
  intros Hp Hgate r. subst r. unfold search_repos.
  destruct (batch_starts_positive max_results Hp) as [rest ->]. simpl.
  pose proof (wait_extends env f) as Hext.
  assert (rate_limit_remaining f < 10) as Hlow.
  { unfold wait_for_rate_limit in Hgate.
    destruct (rate_limit_remaining f <? 10) eqn:E; [by apply Z.ltb_lt|done]. }
  rewrite decide_True in Hext by done.
  destruct (wait_for_rate_limit env f) as [go f1]. simpl in *. subst go.
  simpl. by rewrite (extends_by_new_events _ _ _ Hext).
Qed.

Lemma search_repos_gate_stop_witness :
  (search_repos exhausted "topic:x" 100 "stars" low_quota).1 = None
  /\ requested_pages
       (new_events low_quota
          (search_repos exhausted "topic:x" 100 "stars" low_quota).2) = [].
Proof.
  destruct (search_repos_gate_stop exhausted "topic:x" 100 "stars" low_quota)
    as (H1 & H2 & _); [lia|reflexivity|].
  split; [exact H1|exact H2].
Defined.

Lemma search_batches_progress env fq sort max_results starts :
  forall repos total f,
  let ps := progress_state f in
  let ps' := progress_state
               (search_batches env fq sort max_results starts repos total f).2 in
  phase ps' = phase ps /\ completed_tasks ps' = completed_tasks ps
  /\ enrichment_progress ps' = enrichment_progress ps
  /\ enriched_repos ps' = enriched_repos ps
  /\ filtered_count ps <= filtered_count ps'.
Proof.
  induction starts as [|b rest IH]; intros repos total f; simpl.
  { repeat split; try done; lia. }
  pose proof (wait_progress env f) as Hw.
  destruct (wait_for_rate_limit env f) as [go f1]; simpl in *.
  destruct go; simpl; [|rewrite Hw; repeat split; try done; lia].
  pose proof (fetch_batch_spec env fq sort
                (search_completion env fq (batch_pages max_results b)) f1)
    as (_ & _ & Hb & _).
  destruct (fetch_batch _ _ _ _ _ f1) as [results f2]; simpl in *.
  destruct (process_results _ _ _ _) as [[repos' total']|r]; simpl.
  - destruct (Z.of_nat (length repos') >=? max_results); simpl.
    + rewrite Hb, Hw. repeat split; try done; lia.
    + specialize (IH repos' total' f2). simpl in IH. rewrite Hb, Hw in IH.
      exact IH.
  - rewrite Hb, Hw. repeat split; try done; lia.
Qed.

(** X11. A query only talks to the service: it writes no file, merges
    nothing into the entity map, marks no task, keeps the phase and the
    enrichment progress, and can only raise the count of filtered items. *)
Theorem search_repos_only_requests (env : Remote) (query : string)
    (max_results : Z) (sort : string) (f : Fetcher) :
  let f' := (search_repos env query max_results sort f).2 in
  writes (new_events f f') = []
  /\ all_repos f' = all_repos f
  /\ token f' = token f
  /\ phase (progress_state f') = phase (progress_state f)
  /\ completed_tasks (progress_state f') = completed_tasks (progress_state f)
  /\ enriched_repos (progress_state f') = enriched_repos (progress_state f)
  /\ filtered_count (progress_state f) <= filtered_count (progress_state f').
Proof.
  intros f'. subst f'. unfold search_repos.
  destruct (search_batches_events env (build_tier1_query query) sort
              max_results (batch_starts max_results) [] 0%nat f)
    as (evs & Hext & Hw & (Ha & Ht & _) & _).
  destruct (search_batches_progress env (build_tier1_query query) sort
              max_results (batch_starts max_results) [] 0%nat f)
    as (Hph & Hct & _ & Her & Hfc).
  by rewrite (extends_by_new_events _ _ _ Hext).
Qed.

(** X12. Whatever the order in which the requests of a batch complete, the
    sorted results of the batch are the dicts of its pages in page order. *)
Theorem batch_results_in_page_order (env : Remote) (query sort : string)
    (max_results b : Z) (f : Fetcher) :
  completes_each_once env ->
  sort_by_page
    (fetch_batch env query sort per_page
       (search_completion env query (batch_pages max_results b)) f).1
  = page_result env query sort <$> batch_pages max_results b.
Proof.
  intros Hfair.
  destruct (fetch_batch_spec env query sort
              (search_completion env query (batch_pages max_results b)) f)
    as (-> & _).
  apply sort_by_page_results;
    [apply page_result_page|apply Hfair|apply batch_pages_sorted].
Qed.

Lemma batch_results_in_page_order_witness :
  result_page <$>
    sort_by_page
      (fetch_batch two_pages "q" "stars" per_page
         (search_completion two_pages "q" (batch_pages 10000 0)) fresh).1
  = [1; 2; 3; 4; 5]
  /\ search_completion two_pages "q" (batch_pages 10000 0) = [5; 4; 3; 2; 1].
Proof.
  rewrite (batch_results_in_page_order two_pages "q" "stars" 10000 0 fresh).
  - split; vm_compute; reflexivity.
  - intros q pages. simpl. symmetry. apply Permutation_rev.
Defined.

Lemma filter_none {A} (P : A -> Prop) `{forall x, Decision (P x)} (l : list A) :
  Forall (fun x => ~ P x) l -> filter P l = [].
Proof.
  induction 1 as [|x l Hx _ IH]; [done|]. by rewrite filter_cons_False.
Qed.

Lemma insert_by_page_filter p r l :
  StronglySorted by_page l ->
  filter (fun x => result_page x = p) (insert_by_page r l)
  = filter (fun x => result_page x = p) l
    ++ filter (fun x => result_page x = p) [r].
Proof.
  induction 1 as [|x l Hl IH Hx]; simpl; [done|].
  destruct (result_page r <? result_page x) eqn:E.
  - apply Z.ltb_lt in E. rewrite !filter_cons, filter_nil.
    destruct (decide (result_page r = p)) as [Hr|Hr]; [|by rewrite app_nil_r].
    rewrite decide_False by lia.
    assert (filter (fun x0 => result_page x0 = p) l = []) as ->; [|done].
    apply filter_none. eapply Forall_impl; [exact Hx|].
    unfold by_page. simpl. lia.
  - rewrite !filter_cons, IH.
    by destruct (decide (result_page x = p)).
Qed.

Lemma sort_by_page_filter_acc p l :
  forall acc, StronglySorted by_page acc ->
  filter (fun x => result_page x = p)
    (foldl (fun acc r => insert_by_page r acc) acc l)
  = filter (fun x => result_page x = p) acc
    ++ filter (fun x => result_page x = p) l.
Proof.
  induction l as [|r l IH]; intros acc Hacc; simpl.
  { by rewrite app_nil_r. }
  rewrite IH by (by apply insert_by_page_sorted).
  rewrite insert_by_page_filter by done.
  by rewrite <- app_assoc, <- filter_app.
Qed.

(** X13. [sort_by_page] is a stable sort by page number: the result is a
    rearrangement of the input, ordered by page, and results with the same
    page keep their relative order. *)
Theorem sort_by_page_stable (l : list PageResult) :
  sort_by_page l ≡ₚ l
  /\ StronglySorted by_page (sort_by_page l)
  /\ forall p, filter (fun x => result_page x = p) (sort_by_page l)
               = filter (fun x => result_page x = p) l.
Proof.
  destruct (sort_by_page_acc [] l) as [Hp Hs]; [constructor|].
  split; [exact Hp|]. split; [exact Hs|].
  intros p. unfold sort_by_page. rewrite sort_by_page_filter_acc; [done|].
  constructor.
Qed.

End SearchExtras.

(** ** Dedup aggregation: keys, payloads and tags *)

Module AggregateExtras.

Import Aggregate Views Samples MoreSamples.
Import AggregateFacts.

Lemma ingest_lookup i (m : gmap string Entry) k :
  ingest i m !! k
  = if decide (full_name i.2 = k)
    then Some (step i.1 i.2 (default (blank i.2) (m !! k)))
    else m !! k.
Proof.
  destruct i as [fa r]. rewrite ingest_step. simpl.
  destruct (decide (full_name r = k)) as [<-|Hne].
  - by rewrite lookup_insert_eq.
  - by rewrite lookup_insert_ne.
Qed.

(** X14. The raw payload of an entity is the one of its first ingestion: an
    entity already in the map keeps its payload through every later
    ingestion, and a new key takes the payload of the first item ingested
    under it. *)
Theorem ingest_all_first_payload (l : list Ingestion)
    (m : gmap string Entry) (k : string) :
  raw_data <$> (ingest_all l m !! k)
  = match m !! k with
    | Some e => Some (raw_data e)
    | None => snd <$> head (filter (fun i => full_name i.2 = k) l)
    end.
Proof.
  revert m. induction l as [|i l IH]; intros m; simpl.
  { by destruct (m !! k). }
  rewrite IH, ingest_lookup, filter_cons.
  destruct (decide (full_name i.2 = k)) as [E|Hne]; [|done].
  simpl. by destruct (m !! k).
Qed.

(** X15. The keys of the aggregator after a series of ingestions are the
    keys it had and the full names of the ingested items: no key is ever
    removed and no other key appears. *)
Theorem ingest_all_dom (l : list Ingestion) (m : gmap string Entry) :
  dom (ingest_all l m)
  = dom m ∪ list_to_set ((fun i => full_name i.2) <$> l).
Proof.
  revert m. induction l as [|i l IH]; intros m; simpl.
  { by rewrite (right_id_L ∅ (∪)). }
  rewrite IH. destruct i as [fa r]. rewrite ingest_step, dom_insert_L. simpl.
  by rewrite (comm_L (∪) {[full_name r]} (dom m)), <- (assoc_L (∪)).
Qed.

Lemma occurrences_app t l1 l2 :
  occurrences t (l1 ++ l2) = (occurrences t l1 + occurrences t l2)%nat.
Proof. unfold occurrences. by rewrite filter_app, length_app. Qed.

Lemma occurrences_absent t l : t ∉ l -> occurrences t l = 0%nat.
Proof.
  intros H. unfold occurrences.
  rewrite SearchExtras.filter_none; [done|].
  apply Forall_forall. intros x Hx ->. done.
Qed.

Lemma occurrences_single t u :
  occurrences t [u] = if decide (u = t) then 1%nat else 0%nat.
Proof. unfold occurrences. rewrite filter_singleton; [|exact []].
       by destruct (decide (u = t)). Qed.

Lemma append_new_NoDup t l : NoDup l -> NoDup (append_new t l).
Proof.
  intros H. unfold append_new. case_bool_decide; [done|].
  apply NoDup_app. split; [done|]. split; [|apply NoDup_singleton].
  intros x Hx ->%list_elem_of_singleton. done.
Qed.

Lemma step_tidy fa r e : tidy e -> tidy (step fa r e).
Proof.
  intros (Hs & Ht & Hl). split; [|split].
  - intros fb Hfb. simpl. specialize (Hs fb Hfb).
    destruct (dedups fa) eqn:Hfa.
    + unfold append_new. case_bool_decide as Hin; [done|].
      rewrite occurrences_app, occurrences_single.
      destruct (decide (tag fa = tag fb)) as [E|_]; [|lia].
      rewrite <- E, occurrences_absent by done. lia.
    + rewrite occurrences_app, occurrences_single.
      rewrite decide_False; [lia|].
      intros E. by apply (tag_dedups_ne fb fa).
  - destruct fa; simpl; try done. by apply append_new_NoDup.
  - destruct fa; simpl; try done. by apply append_new_NoDup.
Qed.

Lemma blank_tidy r : tidy (blank r).
Proof. split; [intros; simpl; unfold occurrences; simpl; lia|]. split; constructor. Qed.

(** X16. In an aggregator built from the empty map, the tags [gsoc],
    [hacktoberfest], [good_first_issue] and [underrated] occur at most once
    in the source list of an entity, and its topic and language lists have
    no duplicate, however often the entity was ingested. *)
Theorem ingest_all_tidy (l : list Ingestion) :
  map_Forall (fun _ e => tidy e) (ingest_all l ∅).
Proof.
  assert (forall m, map_Forall (fun _ e => tidy e) m ->
            map_Forall (fun _ e => tidy e) (ingest_all l m)) as H.
  { induction l as [|i l IH]; intros m Hm; simpl; [done|].
    apply IH. intros k e. rewrite ingest_lookup.
    destruct (decide (full_name i.2 = k)); [|apply Hm].
    intros [= <-]. apply step_tidy.
    destruct (m !! k) as [old|] eqn:E; simpl; [by eapply Hm|apply blank_tidy]. }
  apply H. apply map_Forall_empty.
Qed.

Lemma append_new_elem t u l : u ∈ append_new t l <-> u = t \/ u ∈ l.
Proof.
  unfold append_new. case_bool_decide.
  - split; [by right|]. intros [->|?]; done.
  - rewrite elem_of_app, list_elem_of_singleton. tauto.
Qed.

Lemma step_tagged fa r e :
  tag fa ∈ source (step fa r e) /\ facet_set fa (step fa r e).
Proof.
  split.
  - simpl. destruct (dedups fa).
    + apply append_new_elem. by left.
    + apply elem_of_app. right. by left.
  - destruct fa; simpl; try done; eexists; (split; [done|]);
      apply append_new_elem; by left.
Qed.

Lemma step_keeps fa r fb e :
  tag fb ∈ source e /\ facet_set fb e ->
  tag fb ∈ source (step fa r e) /\ facet_set fb (step fa r e).
Proof.
  intros [Hs Hf]. split.
  - simpl. destruct (dedups fa).
    + apply append_new_elem. by right.
    + apply elem_of_app. by left.
  - destruct fb; simpl in *; try done; try (by destruct fa).
    + destruct Hf as (ts & Hts & Hin). destruct fa; simpl; eauto.
      rewrite Hts. simpl. eexists. split; [done|].
      apply append_new_elem. by right.
    + destruct Hf as (ls & Hls & Hin). destruct fa; simpl; eauto.
      rewrite Hls. simpl. eexists. split; [done|].
      apply append_new_elem. by right.
Qed.

Lemma ingest_all_keeps l :
  forall (m : gmap string Entry) fb k e,
  m !! k = Some e -> tag fb ∈ source e /\ facet_set fb e ->
  exists e', ingest_all l m !! k = Some e'
             /\ tag fb ∈ source e' /\ facet_set fb e'.
Proof.
  induction l as [|i l IH]; intros m fb k e Hk He; simpl; [eauto|].
  destruct (decide (full_name i.2 = k)) as [E|Hne].
  - apply (IH (ingest i m) fb k (step i.1 i.2 e)).
    + rewrite ingest_lookup, decide_True by done. by rewrite Hk.
    + by apply step_keeps.
  - apply (IH (ingest i m) fb k e); [|done].
    by rewrite ingest_lookup, decide_False.
Qed.

Lemma ingest_all_trace (l : list Ingestion) (m : gmap string Entry)
    (fa : Facet) (r : Repo) :
  (fa, r) ∈ l ->
  exists e, ingest_all l m !! full_name r = Some e
            /\ tag fa ∈ source e /\ facet_set fa e.
Proof.
  revert m. induction l as [|i l IH]; intros m Hin.
  { by apply elem_of_nil in Hin. }
  apply elem_of_cons in Hin as [<-|Hin]; [|by apply IH].
  simpl. eapply ingest_all_keeps.
  - rewrite ingest_lookup. simpl. by rewrite decide_True.
  - apply step_tagged.
Qed.

(** X17. Every ingestion leaves its trace: after a series of ingestions the
    entity of each ingested item is in the map, carries the tag of the task
    that ingested it and the facet that task sets (the flag, or the topic or
    language in the list), whatever was ingested before or after. *)
Theorem ingest_all_tagged (l : list Ingestion) (m : gmap string Entry)
    (fa : Facet) (r : Repo) :
  (fa, r) ∈ l ->
  exists e, ingest_all l m !! full_name r = Some e
            /\ tag fa ∈ source e /\ facet_set fa e.
Proof. apply ingest_all_trace. Qed.

Lemma ingest_all_tagged_witness :
  exists e,
    ingest_all [(TopStarred, requests_repo); (Topic "http", requests_repo);
                (Gsoc, flask_repo); (Underrated, requests_repo)] ∅
      !! "psf/requests" = Some e
    /\ "topic_http" ∈ source e
    /\ exists ts, topics e = Some ts /\ "http" ∈ ts.
Proof.
  apply (ingest_all_tagged
           [(TopStarred, requests_repo); (Topic "http", requests_repo);
            (Gsoc, flask_repo); (Underrated, requests_repo)] ∅
           (Topic "http") requests_repo).
  apply list_elem_of_further, list_elem_of_here.
Defined.

End AggregateExtras.

(** ** Collection tasks and the collection phase *)

Module TaskExtras.

Import Search Aggregate Checkpoint Tasks Driver Views Samples MoreSamples.
Import LogFacts SearchFacts CheckpointFacts.

Lemma advances_refl f : advances f f.
Proof. done. Qed.

Lemma advances_trans f1 f2 f3 :
  advances f1 f2 -> advances f2 f3 -> advances f1 f3.
Proof.
  intros [H1 H2] [H3 H4]. split; [by etrans|congruence].
Qed.

Lemma search_repos_advances env query max_results sort f :
  advances f (search_repos env query max_results sort f).2.
Proof.
  destruct (SearchExtras.search_batches_progress env (build_tier1_query query)
              sort max_results (batch_starts max_results) [] 0%nat f)
    as (Hph & Hct & _).
  unfold advances, search_repos. by rewrite Hph, Hct.
Qed.

Lemma mark_task_complete_advances env task f :
  advances f (mark_task_complete env task f)
  /\ task ∈ completed_tasks (progress_state (mark_task_complete env task f)).
Proof.
  pose proof (CheckpointExtras.mark_task_complete_sets env task f) as Hset.
  apply bool_decide_eq_true in Hset. split; [|done].
  unfold advances. rewrite CheckpointExtras.mark_task_complete_progress.
  destruct (is_task_complete task f); [done|]. simpl. split; [|done].
  intros x Hx. apply elem_of_app. by left.
Qed.

Lemma save_current_data_progress env f :
  progress_state (save_current_data env f).2 = progress_state f
  /\ all_repos (save_current_data env f).2 = all_repos f.
Proof.
  unfold save_current_data, open_write.
  destruct (bool_decide _); [done|]. by destruct (writable env raw_file).
Qed.

Lemma complete_and_save_advances env task f :
  advances f (complete_and_save env task f).2
  /\ task ∈ completed_tasks (progress_state (complete_and_save env task f).2)
  /\ all_repos (complete_and_save env task f).2 = all_repos f.
Proof.
  destruct (mark_task_complete_advances env task f) as [Ha Hin].
  destruct (save_current_data_progress env (mark_task_complete env task f))
    as [Hp Hr].
  assert (all_repos (mark_task_complete env task f) = all_repos f) as Hm.
  { unfold mark_task_complete. destruct (is_task_complete task f); [done|].
    unfold save_state, open_write. by destruct (writable env state_file). }
  unfold complete_and_save.
  destruct (save_current_data env (mark_task_complete env task f))
    as [[[]|e] f2]; simpl in *; unfold advances in *; rewrite Hp, Hr; done.
Qed.

Lemma fetch_top_repos_advances env limit f :
  advances f (fetch_top_repos env limit f).2
  /\ ((fetch_top_repos env limit f).1 = Ret true ->
      "top_repos" ∈ completed_tasks
                      (progress_state (fetch_top_repos env limit f).2)).
Proof.
  unfold fetch_top_repos.
  destruct (is_task_complete "top_repos" f) eqn:Hc.
  { split; [done|]. intros _. by apply bool_decide_eq_true in Hc. }
  pose proof (search_repos_advances env "help-wanted-issues:>5" limit "stars" f)
    as Hs.
  destruct (search_repos env "help-wanted-issues:>5" limit "stars" f)
    as [[repos|] f1]; simpl in *; [|done].
  destruct (complete_and_save_advances env "top_repos"
              (merge_all merge_top_starred repos f1)) as (Ha & Hin & _).
  split; [|done]. eapply advances_trans; [exact Hs|]. exact Ha.
Qed.

Lemma run_queries_frame env queries each sort body :
  forall f,
  let f' := (run_queries env queries each sort body f).2 in
  (exists evs, extends_by f f' evs /\ writes evs = [])
  /\ phase (progress_state f') = phase (progress_state f)
  /\ completed_tasks (progress_state f') = completed_tasks (progress_state f).
Proof.
  induction queries as [|q rest IH]; intros f; simpl.
  { split; [exists []; split; [apply extends_by_refl|done]|done]. }
  destruct (search_batches_events env (build_tier1_query q) sort each
              (batch_starts each) [] 0%nat f) as (evs & Hext & Hw & _).
  destruct (SearchExtras.search_batches_progress env (build_tier1_query q) sort
              each (batch_starts each) [] 0%nat f) as (Hph & Hct & _).
  fold (search_repos env q each sort f) in *.
  destruct (search_repos env q each sort f) as [[repos|] f1]; simpl in *.
  - destruct (IH (merge_all body repos f1)) as ((evs2 & Hext2 & Hw2) & Hp2 & Hc2).
    simpl in *. split; [|split; congruence].
    exists (evs ++ evs2). split.
    + eapply extends_by_trans; [exact Hext|exact Hext2].
    + by rewrite writes_app, Hw, Hw2.
  - split; [eauto|done].
Qed.

Lemma multi_query_task_advances env task queries limit sort body f :
  advances f (multi_query_task env task queries limit sort body f).2
  /\ ((multi_query_task env task queries limit sort body f).1 = Ret true ->
      task ∈ completed_tasks
               (progress_state
                  (multi_query_task env task queries limit sort body f).2)).
Proof.
  unfold multi_query_task.
  destruct (is_task_complete task f) eqn:Hc.
  { split; [done|]. intros _. by apply bool_decide_eq_true in Hc. }
  destruct (run_queries_frame env queries
              (limit / Z.of_nat (length queries)) sort body f)
    as (_ & Hph & Hct).
  destruct (run_queries env queries _ sort body f) as [[] f1]; simpl in *.
  - destruct (complete_and_save_advances env task f1) as (Ha & Hin & _).
    split; [|done]. eapply advances_trans; [|exact Ha].
    unfold advances. by rewrite Hph, Hct.
  - split; [|done]. unfold advances. by rewrite Hph, Hct.
Qed.

Lemma fetch_repos_by_advances env prefix body keys limit :
  forall f,
  advances f (fetch_repos_by env prefix body keys limit f).2
  /\ ((fetch_repos_by env prefix body keys limit f).1 = Ret true ->
      forall key, key ∈ keys ->
        prefix +:+ "_" +:+ key
        ∈ completed_tasks
            (progress_state (fetch_repos_by env prefix body keys limit f).2)).
Proof.
  induction keys as [|key rest IH]; intros f; simpl.
  { split; [done|]. intros _ key H. by apply elem_of_nil in H. }
  destruct (is_task_complete (prefix +:+ "_" +:+ key) f) eqn:Hc.
  { destruct (IH f) as [Ha Hin]. split; [done|]. intros Hret k Hk.
    apply elem_of_cons in Hk as [->|Hk]; [|by apply Hin].
    apply bool_decide_eq_true in Hc. by apply Ha. }
  pose proof (search_repos_advances env (prefix +:+ ":" +:+ key) limit "stars" f)
    as Hs.
  destruct (search_repos env (prefix +:+ ":" +:+ key) limit "stars" f)
    as [[repos|] f1]; simpl in *; [|done].
  destruct (mark_task_complete_advances env (prefix +:+ "_" +:+ key)
              (merge_all (body key) repos f1)) as [Hm Hin].
  set (f2 := mark_task_complete env (prefix +:+ "_" +:+ key)
               (merge_all (body key) repos f1)) in *.
  assert (advances f f2) as Hf2.
  { eapply advances_trans; [exact Hs|]. exact Hm. }
  destruct (save_current_data_progress env f2) as [Hp _].
  destruct (save_current_data env f2) as [[[]|e] f3]; simpl in *.
  - destruct (IH f3) as [Ha Hrest].
    assert (advances f2 f3) as H23 by (unfold advances; by rewrite Hp).
    split; [eapply advances_trans; [exact Hf2|];
            eapply advances_trans; [exact H23|exact Ha]|].
    intros Hret k Hk. apply elem_of_cons in Hk as [->|Hk]; [|by apply Hrest].
    apply Ha. unfold advances in H23. simpl. rewrite Hp. exact Hin.
  - split; [|done]. unfold advances in *. by rewrite Hp.
Qed.

Lemma fetch_repos_by_skip env prefix body keys limit f :
  Forall (fun key => is_task_complete (prefix +:+ "_" +:+ key) f = true) keys ->
  fetch_repos_by env prefix body keys limit f = (Ret true, f).
Proof.
  induction 1 as [|key rest Hk _ IH]; simpl; [done|]. by rewrite Hk.
Qed.

(** X18. A completed task is never run again: a task whose name is marked
    returns [True] at once, with the fetcher, the log and the files
    untouched; for the per-topic and per-language tasks this holds for the
    whole list when every name of the list is marked. *)
Theorem completed_tasks_are_skipped (env : Remote) (f : Fetcher) :
  (forall limit, is_task_complete "top_repos" f = true ->
     fetch_top_repos env limit f = (Ret true, f))
  /\ (forall task queries limit sort body,
        is_task_complete task f = true ->
        multi_query_task env task queries limit sort body f = (Ret true, f))
  /\ (forall prefix body keys limit,
        Forall (fun key => is_task_complete (prefix +:+ "_" +:+ key) f = true)
          keys ->
        fetch_repos_by env prefix body keys limit f = (Ret true, f)).
Proof.
  split; [|split].
  - intros limit Hc. unfold fetch_top_repos. by rewrite Hc.
  - intros task queries limit sort body Hc. unfold multi_query_task.
    by rewrite Hc.
  - intros. by apply fetch_repos_by_skip.
Qed.

Lemma completed_tasks_are_skipped_witness :
  fetch_top_repos two_pages 10000 after_top = (Ret true, after_top)
  /\ fetch_repos_by_topics two_pages topics_plan 500 all_done
     = (Ret true, all_done).
Proof.
  destruct (completed_tasks_are_skipped two_pages after_top) as (H1 & _).
  destruct (completed_tasks_are_skipped two_pages all_done) as (_ & _ & H3).
  split; [apply H1; vm_compute; reflexivity|].
  apply H3. repeat constructor.
Defined.

Lemma merge_all_top_ingest repos (m : gmap string Entry) :
  foldl (fun all repo => merge_top_starred repo all) m repos
  = ingest_all ((fun r => (TopStarred, r)) <$> repos) m.
Proof. revert m. induction repos as [|r repos IH]; intros m; simpl; [done|].
       apply IH. Qed.

(** X19. When [fetch_top_repos] returns [True] its task is marked complete;
    and if the task was not marked before, every item the query returned is
    in the entity map under its full name with the tag [top_starred]. *)
Theorem fetch_top_repos_success (env : Remote) (limit : Z) (f : Fetcher) :
  (fetch_top_repos env limit f).1 = Ret true ->
  let f' := (fetch_top_repos env limit f).2 in
  is_task_complete "top_repos" f' = true
  /\ (is_task_complete "top_repos" f = false ->
      forall repo,
        repo ∈ default [] (search_repos env "help-wanted-issues:>5" limit
                             "stars" f).1 ->
        exists e, all_repos f' !! full_name repo = Some e
                  /\ "top_starred" ∈ source e).
Proof.
  intros Hret f'. subst f'. split.
  { apply bool_decide_eq_true. by apply fetch_top_repos_advances. }
  intros Hc repo Hin. revert Hret. unfold fetch_top_repos. rewrite Hc.
  destruct (search_repos env "help-wanted-issues:>5" limit "stars" f)
    as [[repos|] f1]; simpl in *; [|done].
  intros _.
  destruct (complete_and_save_advances env "top_repos"
              (merge_all merge_top_starred repos f1)) as (_ & _ & ->).
  simpl. rewrite merge_all_top_ingest.
  destruct (AggregateExtras.ingest_all_trace
              ((fun r => (TopStarred, r)) <$> repos) (all_repos f1)
              TopStarred repo) as (e & He & Hs & _).
  { apply list_elem_of_fmap. eauto. }
  eauto.
Qed.

Lemma fetch_top_repos_success_witness :
  is_task_complete "top_repos" after_top = true
  /\ exists e, all_repos after_top !! "pallets/flask" = Some e
               /\ "top_starred" ∈ source e.
Proof.
  destruct (fetch_top_repos_success two_pages 10000 fresh) as [H1 H2].
  { vm_compute. reflexivity. }
  split; [exact H1|].
  apply (H2 eq_refl flask_repo). vm_compute.
  apply list_elem_of_further, list_elem_of_here.
Defined.

(** X20. When a task of several queries stops on the quota signal it
    returns [False] with its name unmarked, the phase unchanged and no file
    written: what the earlier queries of the task merged stays in memory
    only. *)
Theorem multi_query_task_quota (env : Remote) (task : string)
    (queries : list string) (limit : Z) (sort : string)
    (body : Repo -> gmap string Entry -> gmap string Entry) (f : Fetcher) :
  (multi_query_task env task queries limit sort body f).1 = Ret false ->
  let f' := (multi_query_task env task queries limit sort body f).2 in
  writes (new_events f f') = []
  /\ completed_tasks (progress_state f') = completed_tasks (progress_state f)
  /\ phase (progress_state f') = phase (progress_state f)
  /\ is_task_complete task f' = false.
Proof.
  unfold multi_query_task.
  destruct (is_task_complete task f) eqn:Hc; [done|].
  destruct (run_queries_frame env queries
              (limit / Z.of_nat (length queries)) sort body f)
    as ((evs & Hext & Hw) & Hph & Hct).
  destruct (run_queries env queries _ sort body f) as [[] f1]; simpl in *.
  - unfold complete_and_save.
    destruct (save_current_data env _) as [[[]|e] f2]; done.
  - intros _. rewrite (extends_by_new_events _ _ _ Hext).
    repeat split; try done. unfold is_task_complete in *. by rewrite Hct.
Qed.

Lemma multi_query_task_quota_witness :
  (fetch_gsoc_repos two_pages_no_quota 500 low_quota).1 = Ret false
  /\ is_task_complete "gsoc_repos"
       (fetch_gsoc_repos two_pages_no_quota 500 low_quota).2 = false.
Proof.
  split; [vm_compute; reflexivity|].
  apply (multi_query_task_quota two_pages_no_quota "gsoc_repos").
  vm_compute. reflexivity.
Defined.

Lemma and_then_advances f r rest :
  advances f r.2 ->
  (forall f1, advances f1 (rest f1).2) ->
  advances f (and_then r rest).2.
Proof.
  intros Hr Hrest. destruct r as [[[]|e] f1]; simpl in *; try done.
  eapply advances_trans; [exact Hr|apply Hrest].
Qed.

Lemma save_raw_data_progress env f :
  progress_state (save_raw_data env f).2 = progress_state f.
Proof. unfold save_raw_data, open_write. by destruct (writable env raw_file). Qed.

Lemma save_state_progress env f :
  progress_state (save_state env f) = progress_state f.
Proof. unfold save_state, open_write. by destruct (writable env state_file). Qed.

(** X21. The phase only advances when the plan is done: if the collection
    block of [main] runs to its end, the phase is [enrichment] and every
    task of the plan is marked complete; if it stops early (quota signal or
    failed write of the data file) the phase is the one it started with.
    Marks are never removed. *)
Theorem collection_phase_advances (env : Remote) (f : Fetcher) :
  let r := collection_phase env f in
  (r.1 = Ret true ->
   phase (progress_state r.2) = "enrichment"
   /\ forall t, t ∈ planned_tasks -> t ∈ completed_tasks (progress_state r.2))
  /\ (r.1 <> Ret true -> phase (progress_state r.2) = phase (progress_state f))
  /\ completed_tasks (progress_state f) ⊆ completed_tasks (progress_state r.2).
Proof.
  intros r. subst r. unfold collection_phase.
  destruct (fetch_top_repos_advances env 10000 f) as [A1 D1].
  destruct (fetch_top_repos env 10000 f) as [[[]|e1] f1]; simpl in *;
    [|by destruct A1..].
  destruct (multi_query_task_advances env "gsoc_repos"
              ["gsoc in:name,description";
               "google-summer-of-code in:name,description";
               "topic:gsoc"; "topic:google-summer-of-code"]
              500 "stars" merge_gsoc f1) as [A2 D2].
  fold (fetch_gsoc_repos env 500 f1) in *.
  destruct (fetch_gsoc_repos env 500 f1) as [[[]|e2] f2]; simpl in *;
    [|pose proof (advances_trans _ _ _ A1 A2) as [? ?]; by repeat split..].
  destruct (multi_query_task_advances env "hacktoberfest_repos"
              ["hacktoberfest in:name,description"; "topic:hacktoberfest"]
              500 "stars" merge_hacktoberfest f2) as [A3 D3].
  fold (fetch_hacktoberfest_repos env 500 f2) in *.
  pose proof (advances_trans _ _ _ A1 A2) as B2.
  destruct (fetch_hacktoberfest_repos env 500 f2) as [[[]|e3] f3]; simpl in *;
    [|pose proof (advances_trans _ _ _ B2 A3) as [? ?]; by repeat split..].
  pose proof (advances_trans _ _ _ B2 A3) as B3.
  destruct (fetch_repos_by_advances env "topic" merge_topic topics_plan 500 f3)
    as [A4 D4].
  fold (fetch_repos_by_topics env topics_plan 500 f3) in *.
  destruct (fetch_repos_by_topics env topics_plan 500 f3) as [[[]|e4] f4];
    simpl in *;
    [|pose proof (advances_trans _ _ _ B3 A4) as [? ?]; by repeat split..].
  pose proof (advances_trans _ _ _ B3 A4) as B4.
  destruct (fetch_repos_by_advances env "language" merge_language
              languages_plan 500 f4) as [A5 D5].
  fold (fetch_repos_by_languages env languages_plan 500 f4) in *.
  destruct (fetch_repos_by_languages env languages_plan 500 f4)
    as [[[]|e5] f5]; simpl in *;
    [|pose proof (advances_trans _ _ _ B4 A5) as [? ?]; by repeat split..].
  pose proof (advances_trans _ _ _ B4 A5) as B5.
  destruct (multi_query_task_advances env "good_first_issue"
              ["good-first-issue in:name,description";
               "help-wanted in:name,description"]
              500 "stars" merge_good_first_issue f5) as [A6 D6].
  fold (fetch_good_first_issue_repos env 500 f5) in *.
  destruct (fetch_good_first_issue_repos env 500 f5) as [[[]|e6] f6];
    simpl in *;
    [|pose proof (advances_trans _ _ _ B5 A6) as [? ?]; by repeat split..].
  pose proof (advances_trans _ _ _ B5 A6) as B6.
  destruct (multi_query_task_advances env "underrated"
              ["stars:100..1000 forks:>20";
               "stars:500..2000 pushed:>2024-01-01";
               "stars:200..1500 watchers:>50"]
              500 "updated" merge_underrated f6) as [A7 D7].
  fold (fetch_underrated_repos env 500 f6) in *.
  destruct (fetch_underrated_repos env 500 f6) as [[[]|e7] f7]; simpl in *;
    [|pose proof (advances_trans _ _ _ B6 A7) as [? ?]; by repeat split..].
  pose proof (advances_trans _ _ _ B6 A7) as B7.
  pose proof (save_raw_data_progress env f7) as Hraw.
  destruct (save_raw_data env f7) as [[[]|e8] f8]; simpl in *.
  2:{ destruct B7 as [? ?]. rewrite Hraw. by repeat split. }
  rewrite save_state_progress. simpl. rewrite Hraw.
  split; [|split; [done|by destruct B7]].
  intros _. split; [done|].
  assert (forall g t, advances g f7 ->
            t ∈ completed_tasks (progress_state g) ->
            t ∈ completed_tasks (progress_state f7)) as Hup.
  { intros g t [Hg _] Ht. by apply Hg. }
  intros t Ht. unfold planned_tasks in Ht.
  rewrite !elem_of_app in Ht. destruct Ht as [Ht|[Ht|[Ht|Ht]]].
  - rewrite !elem_of_cons in Ht. destruct Ht as [->|[->|[->|Ht]]].
    + apply (Hup f1); [|by apply D1].
      repeat (eapply advances_trans; [eassumption|]). apply advances_refl.
    + apply (Hup f2); [|by apply D2].
      repeat (eapply advances_trans; [eassumption|]). apply advances_refl.
    + apply (Hup f3); [|by apply D3].
      repeat (eapply advances_trans; [eassumption|]). apply advances_refl.
    + by apply elem_of_nil in Ht.
  - apply list_elem_of_fmap in Ht as (key & -> & Hkey).
    apply (Hup f4); [|by apply D4].
    repeat (eapply advances_trans; [eassumption|]). apply advances_refl.
  - apply list_elem_of_fmap in Ht as (key & -> & Hkey).
    apply (Hup f5); [|by apply D5].
    repeat (eapply advances_trans; [eassumption|]). apply advances_refl.
  - rewrite !elem_of_cons in Ht. destruct Ht as [->|[->|Ht]].
    + apply (Hup f6); [|by apply D6].
      repeat (eapply advances_trans; [eassumption|]). apply advances_refl.
    + by apply D7.
    + by apply elem_of_nil in Ht.
Qed.

Lemma collection_phase_advances_witness :
  phase (progress_state (collection_phase quiet fresh).2) = "enrichment"
  /\ "language_Rust"
     ∈ completed_tasks (progress_state (collection_phase quiet fresh).2).
Proof.
  destruct (collection_phase_advances quiet fresh) as (H & _).
  destruct H as [H1 H2]; [vm_compute; reflexivity|].
  split; [exact H1|]. apply H2. vm_compute.
  do 17 apply list_elem_of_further. apply list_elem_of_here.
Defined.

(** X22. A rerun after the plan is done asks the service nothing: when
    every task of the plan is marked, the collection block only writes the
    data file and then the state file with the new phase. *)
Theorem collection_phase_rerun (env : Remote) (f : Fetcher) :
  (forall t, t ∈ planned_tasks -> is_task_complete t f = true) ->
  collection_phase env f
  = match save_raw_data env f with
    | (Exn e, f1) => (Exn e, f1)
    | (Ret _, f1) => (Ret true, save_state env (enter_enrichment f1))
    end.
Proof.
  intros H.
  assert (forall t, t ∈ planned_tasks -> is_task_complete t f = true) as Hall
    by done.
  assert (forall r rest, and_then (Ret true, r) rest = rest r) as Hthen by done.
  assert (fetch_top_repos env 10000 f = (Ret true, f)) as E1.
  { unfold fetch_top_repos. rewrite H; [done|]. apply list_elem_of_here. }
  assert (forall task queries limit sort body,
            task ∈ planned_tasks ->
            multi_query_task env task queries limit sort body f = (Ret true, f))
    as Emulti.
  { intros task queries limit sort body Ht. unfold multi_query_task.
    by rewrite H. }
  assert (fetch_repos_by_topics env topics_plan 500 f = (Ret true, f)) as E4.
  { apply fetch_repos_by_skip, Forall_forall. intros key Hk. apply H.
    unfold planned_tasks. rewrite !elem_of_app. right. left.
    apply list_elem_of_fmap. eauto. }
  assert (fetch_repos_by_languages env languages_plan 500 f = (Ret true, f))
    as E5.
  { apply fetch_repos_by_skip, Forall_forall. intros key Hk. apply H.
    unfold planned_tasks. rewrite !elem_of_app. right. right. left.
    apply list_elem_of_fmap. eauto. }
  unfold collection_phase, fetch_gsoc_repos, fetch_hacktoberfest_repos,
    fetch_good_first_issue_repos, fetch_underrated_repos.
  rewrite E1, Hthen.
  rewrite Emulti, Hthen by (apply list_elem_of_further, list_elem_of_here).
  rewrite Emulti, Hthen
    by (apply list_elem_of_further, list_elem_of_further, list_elem_of_here).
  rewrite E4, Hthen, E5, Hthen.
  rewrite Emulti, Hthen
    by (unfold planned_tasks; rewrite !elem_of_app; right; right; right;
        apply list_elem_of_here).
  rewrite Emulti, Hthen
    by (unfold planned_tasks; rewrite !elem_of_app; right; right; right;
        apply list_elem_of_further, list_elem_of_here).
  done.
Qed.

Lemma collection_phase_rerun_witness :
  (collection_phase quiet all_done).1 = Ret true
  /\ requested_pages (log (collection_phase quiet all_done).2) = []
  /\ phase (progress_state (collection_phase quiet all_done).2) = "enrichment".
Proof.
  rewrite (collection_phase_rerun quiet all_done).
  - vm_compute. done.
  - intros t Ht. apply bool_decide_eq_true. exact Ht.
Defined.

End TaskExtras.

(** ** Enrichment: what a batch records and what an entity leaves alone *)

Module EnrichExtras.

Import Quota Checkpoint Enrich Samples MoreSamples.
Import LogFacts EnrichFacts.

(** X23. Enriching one entity never writes a file and changes neither the
    progress state nor the entity map; when it returns the quota signal it
    has only asked for the remaining quota and issued no sub-fetch. *)
Theorem enrich_single_only_requests (env : Remote) (full : string)
    (f : Fetcher) :
  let r := enrich_repo_data_single env full f in
  writes (new_events f r.2) = []
  /\ progress_state r.2 = progress_state f
  /\ all_repos r.2 = all_repos f
  /\ (r.1 = None -> Forall (fun e => e = EvRateLimit) (new_events f r.2)).
Proof.
  intros r. subst r.
  destruct (enrich_single_frame env full f)
    as ((evs & Hext & Hw & Hq) & Hp & Ha).
  by rewrite (extends_by_new_events _ _ _ Hext).
Qed.

(** X24. A batch that does not stop the run has enriched each of its
    entities: with a writable output file, when the loop over a batch ends
    without returning, every entity of the batch is a key of the enriched
    dict and is listed in [enriched_repos]; the entities enriched before are
    still there and the dict has no duplicate key. *)
Theorem enrich_batch_enriches_all (env : Remote) (out : string)
    (meta : Metadata) (completed : list Future)
    (enriched enriched' : list (string * (Entry * Enriched)))
    (f f' : Fetcher) :
  writable env out = true ->
  enrich_batch env out meta completed enriched f = Continue (enriched', f') ->
  (forall p, p ∈ completed ->
     p.1 ∈ enriched'.*1 /\ p.1 ∈ enriched_repos (progress_state f'))
  /\ enriched.*1 ⊆ enriched'.*1
  /\ enriched_repos (progress_state f) ⊆ enriched_repos (progress_state f')
  /\ (NoDup enriched.*1 -> NoDup enriched'.*1).
Proof.
  intros Hw. revert enriched f.
  induction completed as [|[full [rd [e|]]] rest IH]; intros enriched f; simpl.
  { intros [= <- <-]. split; [|done]. intros p Hp. by apply elem_of_nil in Hp. }
  - intros Hrun. apply IH in Hrun as (H1 & H2 & H3 & H4).
    destruct (record_enriched_spec full
                (length (dict_set full (rd, e) enriched)) f)
      as (R1 & R2 & _).
    split; [|split; [|split]].
    + intros p [->|Hin]%elem_of_cons; [|by apply H1]. simpl. split.
      * apply H2, dict_set_keys. by left.
      * by apply H3.
    + intros x Hx. apply H2, dict_set_keys. by right.
    + by etrans.
    + intros Hnd. by apply H4, dict_set_NoDup.
  - unfold _save_enriched_data, open_write. rewrite Hw. done.
Qed.

Lemma enrich_batch_enriches_all_witness :
  exists enriched' f',
    enrich_batch readme_refused enriched_file no_metadata
      (run_pool readme_refused two_entities fresh).1 [] fresh
    = Continue (enriched', f')
    /\ "pallets/flask" ∈ enriched'.*1
    /\ "pallets/flask" ∈ enriched_repos (progress_state f').
Proof.
  destruct (enrich_batch readme_refused enriched_file no_metadata
              (run_pool readme_refused two_entities fresh).1 [] fresh)
    as [[enriched' f']|f'] eqn:E.
  - exists enriched', f'. split; [reflexivity|].
    destruct (enrich_batch_enriches_all readme_refused enriched_file
                no_metadata _ _ _ _ _ eq_refl E) as (H & _).
    apply (H ("pallets/flask",
              (flask_entry, Some (own_record readme_refused "pallets/flask")))).
    vm_compute. apply list_elem_of_further, list_elem_of_here.
  - vm_compute in E. discriminate E.
Defined.

Lemma enrich_batch_unwritable env out meta completed :
  writable env out = false ->
  forall enriched f,
  exists st, enrich_batch env out meta completed enriched f = Continue st.
Proof.
  intros Hw. induction completed as [|[full [rd [e|]]] rest IH];
    intros enriched f; simpl; [eauto|apply IH|].
  unfold _save_enriched_data, open_write. rewrite Hw. apply IH.
Qed.

(** X25. With an output file that cannot be written the enrichment run
    never ends normally: the quota branch swallows its failed write and goes
    on with the batch, and the write at the end of the first batch raises. *)
Theorem enrich_batches_unwritable (env : Remote) (out : string)
    (meta : Metadata) (batch : list (string * Entry))
    (more : list (list (string * Entry)))
    (enriched : list (string * (Entry * Enriched))) (f : Fetcher) :
  writable env out = false ->
  (enrich_batches env out meta (batch :: more) enriched f).1
  = Exn ("cannot write " +:+ out).
Proof.
  intros Hw. simpl. destruct (run_pool env batch f) as [futures f0].
  destruct (enrich_batch_unwritable env out meta
              (enrich_completion env futures) Hw enriched f0)
    as [[enriched' f1] ->].
  unfold _save_enriched_data, open_write. by rewrite Hw.
Qed.

Lemma enrich_batches_unwritable_witness :
  (enrich_batches read_only enriched_file no_metadata
     [[("psf/requests", requests_entry)]] [] low_quota).1
  = Exn "cannot write github_repos_enriched.json".
Proof.
  apply (enrich_batches_unwritable read_only enriched_file no_metadata
           [("psf/requests", requests_entry)] [] [] low_quota).
  reflexivity.
Defined.

End EnrichExtras.

(** ** A query of one batch, end to end *)

Module QueryExtras.

Import Validator Quota Search Checkpoint Views Samples MoreSamples.
Import LogFacts SearchFacts BatchFacts.

Lemma process_results_pass max_results results :
  forall repos total,
  Forall (fun r => is_barren r = false /\ is_quota r = false) results ->
  exists total',
    process_results max_results results repos total
    = Continue (repos ++ flat_map page_repos results, total').
Proof.
  induction results as [|x rs IH]; intros repos total Hall; simpl.
  { rewrite app_nil_r. eauto. }
  apply Forall_cons in Hall as [[Hb Hq] Hrs].
  destruct x as [pg [|it its] fo ti tc|pg err]; simpl in *; [done| |].
  - destruct (IH (repos ++ it :: its) (total + fo)%nat Hrs) as [t' ->].
    rewrite <- app_assoc. eauto.
  - rewrite Hq. apply IH. done.
Qed.

Lemma batch_starts_single max_results :
  0 < max_results <= 500 -> batch_starts max_results = [0].
Proof.
  intros [Hp Hle]. unfold batch_starts, range_step, batch_size, max_pages,
    per_page.
  assert (1 <= (max_results + 100 - 1) / 100 <= 5) as Hm.
  { split; [apply Z.div_le_lower_bound; lia|].
    assert ((max_results + 100 - 1) / 100 < 6); [|lia].
    apply Z.div_lt_upper_bound; lia. }
  revert Hm. generalize ((max_results + 100 - 1) / 100). intros m Hm.
  assert ((Z.min m 10 - 0 + 5 - 1) / 5 = 1) as ->.
  { symmetry. apply Z.div_unique with (r := m - 1); lia. }
  done.
Qed.

(** X26. A query for at most 500 results runs one batch.  If the quota gate
    lets it start and every page of the batch either brings at least one
    valid item or fails with an error other than quota exhaustion, the query
    returns the valid items of its pages in page order, cut to
    [max_results], whatever the order in which the requests completed. *)
Theorem search_repos_single_batch (env : Remote) (query : string)
    (max_results : Z) (sort : string) (f : Fetcher) :
  completes_each_once env ->
  0 < max_results <= 500 ->
  (wait_for_rate_limit env f).1 = true ->
  Forall (fun p =>
            is_barren (page_result env (build_tier1_query query) sort p) = false
            /\ is_quota (page_result env (build_tier1_query query) sort p)
               = false)
    (batch_pages max_results 0) ->
  (search_repos env query max_results sort f).1
  = Some (slice_to
            (flat_map (fun p => page_repos
                         (page_result env (build_tier1_query query) sort p))
               (batch_pages max_results 0))
            max_results).
Proof.
  intros Hfair Hmax Hgate Hall. unfold search_repos.
  rewrite batch_starts_single by done.
  rewrite search_batches_cons by done. simpl. rewrite Hgate. simpl.
  destruct (process_results_pass max_results
              (page_result env (build_tier1_query query) sort
                 <$> batch_pages max_results 0) [] 0%nat) as [total' ->].
  { by rewrite Forall_fmap. }
  simpl. rewrite fmap_flat_map_page.
  by destruct (Z.of_nat _ >=? max_results).
Qed.

Lemma search_repos_single_batch_witness :
  (search_repos quota_on_seventh "topic:x" 250 "stars" fresh).1
  = Some (slice_to
            (flat_map (fun p => page_repos
                         (page_result quota_on_seventh
                            (build_tier1_query "topic:x") "stars" p))
               (batch_pages 250 0))
            250)
  /\ (search_repos quota_on_seventh "topic:x" 250 "stars" fresh).1
     = Some [requests_repo; requests_repo; requests_repo].
Proof.
  split; [|vm_compute; reflexivity].
  apply (search_repos_single_batch quota_on_seventh "topic:x" 250 "stars" fresh).
  - intros q pages. simpl. symmetry. apply Permutation_rev.
  - lia.
  - reflexivity.
  - replace (batch_pages 250 0) with [1; 2; 3] by (vm_compute; reflexivity).
    repeat (constructor; [split; vm_compute; reflexivity|]). constructor.
Defined.

End QueryExtras.

(** ** The word patterns of the validator *)

Module PatternExtras.

Import Validator Views.

Lemma same_eq a b : Re.same a b = true <-> a = b.
Proof.
  unfold Re.same, Text.code. rewrite Nat.eqb_eq. split; [|by intros ->].
  intros H. by rewrite <- (ascii_nat_embedding a), <- (ascii_nat_embedding b), H.
Qed.

Lemma last_cons_after {A} (x : A) (l : list A) :
  last (x :: l) = match last l with Some c => Some c | None => Some x end.
Proof. destruct l as [|y l]; [done|]. rewrite last_cons. by destruct (last (y :: l)). Qed.

(** A run of literal characters matches exactly that run. *)
Lemma match_here_lit w pat :
  forall start prev s,
  Re.match_here (map Re.Chr w ++ pat) start prev s = true <->
  exists post,
    s = w ++ post
    /\ Re.match_here pat (match w with [] => start | _ => false end)
         (match last w with Some c => Some c | None => prev end) post = true.
Proof.
  induction w as [|c w IH]; intros start prev s; simpl.
  { split; [eauto|]. by intros (post & -> & H). }
  destruct s as [|x s]; [split; [done|by intros (? & [=] & _)]|].
  rewrite andb_true_iff, same_eq, IH. rewrite last_cons_after.
  split.
  - intros (-> & post & -> & H). exists post. split; [done|].
    destruct (last w); by destruct w.
  - intros (post & [= -> ->] & H). split; [done|]. exists post.
    split; [done|]. destruct (last w); by destruct w.
Qed.

(** [search_from] tries every position of the text. *)
Lemma search_from_spec pat :
  forall s start prev,
  Re.search_from pat start prev s = true <->
  exists pre post,
    s = pre ++ post
    /\ Re.match_here pat (match pre with [] => start | _ => false end)
         (match last pre with Some c => Some c | None => prev end) post = true.
Proof.
  induction s as [|x s IH]; intros start prev; simpl.
  - rewrite orb_false_r. split.
    + intros H. by exists [], [].
    + intros (pre & post & E & H). symmetry in E.
      apply app_eq_nil in E as [-> ->]. done.
  - rewrite orb_true_iff, IH. split.
    + intros [H|(pre & post & -> & H)].
      * by exists [], (x :: s).
      * exists (x :: pre), post. split; [done|].
        rewrite last_cons_after. destruct (last pre); by destruct pre.
    + intros (pre & post & E & H). destruct pre as [|y pre].
      * left. simpl in E. by subst post.
      * right. injection E as <- ->. exists pre, post. split; [done|].
        rewrite last_cons_after in H. destruct (last pre); by destruct pre.
Qed.

(** A word pattern [\bw\b] finds [w] exactly where it stands as a whole
    word, provided [w] begins and ends with a word character. *)
Lemma search_word_spec (w : string) (t : list ascii) :
  Re.word_opt (head (Text.chars w)) = true ->
  Re.word_opt (last (Text.chars w)) = true ->
  Re.search (Re.word w) t = true <-> occurs_as_word (Text.chars w) t.
Proof.
  intros Hh Hl. unfold Re.search, Re.word, Re.lit, occurs_as_word.
  rewrite search_from_spec.
  set (ws := Text.chars w) in *.
  destruct (head ws) as [hc|] eqn:Eh; [|done].
  destruct (last ws) as [lc|] eqn:El; [|done].
  simpl in Hh, Hl.
  assert (forall post, head (ws ++ post) = Some hc) as Hhead.
  { intros post. destruct ws; simpl in *; congruence. }
  assert (forall (start : bool) prev post,
            Re.match_here (Re.Bnd :: map Re.Chr ws ++ [Re.Bnd]) start prev post
            = true <->
            Re.word_opt prev = false
            /\ exists post', post = ws ++ post'
                             /\ Re.word_opt (head post') = false) as Hm.
  { intros start prev post.
    change (Re.match_here (Re.Bnd :: map Re.Chr ws ++ [Re.Bnd]) start prev post)
      with (xorb (Re.word_opt prev) (Re.word_opt (head post))
            && Re.match_here (map Re.Chr ws ++ [Re.Bnd]) start prev post).
    rewrite andb_true_iff, match_here_lit, El. simpl. split.
    - intros (Hb & post' & -> & H). rewrite Hhead in Hb. simpl in Hb, H.
      rewrite Hh in Hb. rewrite Hl, andb_true_r in H.
      split; [by destruct (Re.word_opt prev)|]. exists post'.
      split; [done|]. by destruct (Re.word_opt (head post')).
    - intros (Hp & post' & -> & Hq). rewrite Hhead. simpl.
      rewrite Hp, Hh. split; [done|]. exists post'. split; [done|].
      by rewrite Hl, Hq. }
  split.
  - intros (pre & post & -> & H). apply Hm in H as (Hp & post' & -> & Hq).
    exists pre, post'. split; [done|]. split; [|done].
    by destruct (last pre).
  - intros (pre & post & -> & Hpre & Hpost).
    exists pre, (ws ++ post). split; [done|]. apply Hm.
    split; [by destruct (last pre)|]. eauto.
Qed.

Lemma tutorial_words_shape :
  Forall (fun w => Re.word_opt (head (Text.chars w)) = true
                   /\ Re.word_opt (last (Text.chars w)) = true)
    tutorial_words.
Proof. repeat (constructor; [split; vm_compute; reflexivity|]). constructor. Qed.

(** X27. A text matches the tutorial patterns exactly when it is not empty
    and, once lower-cased, holds one of the twelve words ([tutorial],
    [example], [demo], ...) as a whole word, that is with no letter, digit
    or underscore right before or right after it. *)
Theorem tutorial_patterns_whole_words (text : string) :
  matches_pattern text tutorial_patterns = true <->
  text <> ""
  /\ exists w, w ∈ tutorial_words
               /\ occurs_as_word (Text.chars w) (Text.lower text).
Proof.
  unfold matches_pattern.
  destruct text as [|c text]; [split; [done|by intros [? _]]|].
  change tutorial_patterns with (map Re.word tutorial_words).
  rewrite existsb_exists. split.
  - intros (p & Hp & Hs). apply in_map_iff in Hp as (w & <- & Hw).
    apply list_elem_of_In in Hw. split; [done|]. exists w. split; [done|].
    pose proof tutorial_words_shape as Hshape.
    rewrite Forall_forall in Hshape. destruct (Hshape w Hw) as [Hh Hl].
    by apply search_word_spec.
  - intros (_ & w & Hw & Hocc). exists (Re.word w). split.
    + apply in_map, list_elem_of_In, Hw.
    + pose proof tutorial_words_shape as Hshape.
      rewrite Forall_forall in Hshape. destruct (Hshape w Hw) as [Hh Hl].
      by apply search_word_spec.
Qed.

End PatternExtras.
